(** * WarpMe: the simulation core (js/core/state.js, js/core/simulation.js),
      the opening scenario, the coordinate transforms of the renderer and
      the commands of the bridge stations (helm, weapons, tactical,
      engineering, navigation) as a shallow embedding.

    Numbers.  JavaScript numbers are modelled by exact rationals [Q]; tick
    counters (lifetimes, cooldowns, game time) by [Z].  [Math.hypot] is never
    used for its value in the core, only in comparisons against a bound, so a
    distance is carried as its square and compared with the square of the
    bound.  [Math.cos], [Math.sin], [Math.atan2] and [Math.PI] are parameters
    of the development, as are the entropy behind [Math.random] and the
    strings produced by [crypto.randomUUID].

    Objects.  Ships are JavaScript objects that are mutated in place and
    shared between [gameState.playerShip], [gameState.ships] and the callers
    of [damageShip]; they live in an object store indexed by addresses, and
    the ship list holds addresses.

    Events.  [emit] delivers to listeners synchronously; the model records
    every emission in a trace, newest first, and takes listeners to be
    observers: they do not call back into the world during dispatch.  Calls
    into the audio layer are recorded the same way.

    Exceptions.  A property read on [undefined] raises a TypeError; the
    functions that can reach one return an [Outcome].

    Stations.  A station's own fields are a record that is passed in and
    out next to the world; timer callbacks are functions of their own, run
    when the timer fires; the DOM and the canvas are not modelled. *)

From Stdlib Require Import QArith Qround Lqa ZArith Lia DecimalString.
From stdpp Require Import base list strings gmap.

Local Open Scope Q_scope.
Set Default Proof Using "Type".

(** ** Numbers *)

Definition Qltb (a b : Q) : bool :=
  match a ?= b with Lt => true | _ => false end.

Definition Qleb (a b : Q) : bool :=
  match a ?= b with Gt => false | _ => true end.

(** [Math.min] and [Math.max] on two arguments. *)
Definition Math_min (a b : Q) : Q := if Qleb a b then a else b.
Definition Math_max (a b : Q) : Q := if Qleb a b then b else a.

(** [Math.abs]. *)
Definition Math_abs (a : Q) : Q := if Qltb a 0 then - a else a.

(** [Math.floor], as an integer. *)
Definition Math_floor (a : Q) : Z := Qfloor a.

(** Truncation towards zero, the quotient behind the [%] operator. *)
Definition Qtrunc (a : Q) : Z := if Qltb a 0 then Qceiling a else Qfloor a.

(** [a % b] of JavaScript for a non-zero [b]: the result has the sign of the
    dividend. *)
Definition jsRem (a b : Q) : Q := a - b * inject_Z (Qtrunc (a / b)).

(** Square of [Math.hypot(dx, dy)]. *)
Definition hypotSq (dx dy : Q) : Q := dx * dx + dy * dy.

(** [Math.hypot(..) < r] and [Math.hypot(..) > r], on the squared distance. *)
Definition distLt (dsq r : Q) : bool := Qltb 0 r && Qltb dsq (r * r).
Definition distGt (dsq r : Q) : bool := Qltb r 0 || Qltb (r * r) dsq.

(** A distance that may still be [Infinity] ([None]), as in
    [checkAlertLevel]. *)
Definition minDistSq (nearest : option Q) (dsq : Q) : option Q :=
  match nearest with
  | None => Some dsq
  | Some n => Some (Math_min n dsq)
  end.

Definition nearestLt (nearest : option Q) (r : Q) : bool :=
  match nearest with
  | None => false
  | Some dsq => distLt dsq r
  end.

Definition nearestGt (nearest : option Q) (r : Q) : bool :=
  match nearest with
  | None => true
  | Some dsq => distGt dsq r
  end.

(** The two normalising loops of [moveNPCShip]:
    [while (h < lo) h += 360] and [while (h >= hi) h -= 360] (and their
    strict and non-strict variants), with an explicit iteration budget. *)
Fixpoint whileBelow (fuel : nat) (lo h : Q) : Q :=
  match fuel with
  | O => h
  | S fuel' => if Qltb h lo then whileBelow fuel' lo (h + 360) else h
  end.

Fixpoint whileAtLeast (fuel : nat) (hi h : Q) : Q :=
  match fuel with
  | O => h
  | S fuel' => if Qleb hi h then whileAtLeast fuel' hi (h - 360) else h
  end.

Fixpoint whileAbove (fuel : nat) (hi h : Q) : Q :=
  match fuel with
  | O => h
  | S fuel' => if Qltb hi h then whileAbove fuel' hi (h - 360) else h
  end.

(** Number of iterations that always suffices for a value [h] and a
    threshold [t]: more than [|h - t| / 360]. *)
Definition turns (h t : Q) : nat :=
  S (Z.to_nat (Qceiling (Math_abs (h - t) / 360))).

(** ** Data model *)

Inductive Faction := Friendly | Neutral | Hostile.
Inductive AiState := Patrol | Approach | Attack | Flee.
Inductive AlertLevel := AlertNormal | AlertYellow | AlertRed.
Inductive WeaponKind := Phaser | Torpedo.

#[global] Instance Faction_eq_dec : EqDecision Faction.
Proof. solve_decision. Defined.
#[global] Instance AiState_eq_dec : EqDecision AiState.
Proof. solve_decision. Defined.
#[global] Instance AlertLevel_eq_dec : EqDecision AlertLevel.
Proof. solve_decision. Defined.

Record Subsystem := mkSubsystem {
  hp : Q;
  maxHp : Q;
  power : Q
}.

Record Subsystems := mkSubsystems {
  engines : Subsystem;
  weapons : Subsystem;
  shields : Subsystem;
  sensors : Subsystem
}.

Record Point := mkPoint { px : Q; py : Q }.

Record Ship := mkShip {
  id : string;
  name : string;
  type : string;
  faction : Faction;
  x : Q;
  y : Q;
  heading : Q;
  velocity : Q;
  maxVelocity : Q;
  turnRate : Q;
  subsystems : Subsystems;
  hull : Q;
  maxHull : Q;
  shieldStrength : Q;
  maxShieldStrength : Q;
  aiState : AiState;
  patrolPoints : list Point;
  patrolIndex : nat;
  target : option string;
  size : Q;
  scanned : bool
}.

Record Projectile := mkProjectile {
  projId : string;
  projType : WeaponKind;
  projX : Q;
  projY : Q;
  projHeading : Q;
  projVelocity : Q;
  projDamage : Q;
  sourceId : string;
  targetId : option string;
  lifetime : Z;
  projSize : Q
}.

Record Beam := mkBeam {
  x1 : Q; y1 : Q; x2 : Q; y2 : Q;
  beamLifetime : Z
}.

Inductive MsgType := MsgNormal | MsgAlert | MsgHail | MsgInfo.

Record CommsMsg := mkCommsMsg {
  msgId : string;
  sender : string;
  message : string;
  msgType : MsgType;
  timestamp : Z;
  read : bool
}.

(** Addresses of ship objects. *)
Definition addr := nat.

(** The events of the bus, with their payloads; a ship payload is the
    address of the ship object. *)
Inductive Event :=
| ShipAdded (a : addr)
| ShipDestroyed (a : addr)
| ShipDamaged (a : addr) (damage : Q)
| PlayerDestroyed (a : addr)
| CommsMessage (m : CommsMsg)
| TargetChanged (t : option string)
| AlertChanged (level : AlertLevel)
| WaypointSet (p : Point)
| WaypointCleared
| RepairStarted (systemName : string)
| PowerChanged (systemName : string) (p : Q)
| WeaponFired (kind : WeaponKind) (tgt : option addr).

Inductive Sound :=
| PlayHullHit | PlayExplosion | PlayRepairComplete | PlayRedAlert | PlayYellowAlert.

Record GameState := mkGameState {
  heap : addr -> Ship;
  nextAddr : addr;
  playerShip : addr;
  ships : list addr;
  projectiles : list Projectile;
  phaserBeams : list Beam;
  commsLog : list CommsMsg;
  currentTarget : option string;
  alertLevel : AlertLevel;
  waypoint : option Point;
  gameTime : Z;
  isPaused : bool;
  repairCooldowns : gmap string Z;
  (* instrumentation *)
  events : list Event;
  sounds : list Sound;
  randomCalls : nat;
  uuidCalls : nat
}.

(** Exceptions: the only one the core can raise is the [TypeError] of a
    property read on [undefined]. *)
Inductive Outcome (A : Type) :=
| Done (a : A)
| TypeError.
Arguments Done {A} a.
Arguments TypeError {A}.

Definition bindO {A B} (o : Outcome A) (k : A -> Outcome B) : Outcome B :=
  match o with
  | Done a => k a
  | TypeError => TypeError
  end.

(** ** In-place updates of object fields *)

Definition setHp (v : Q) (s : Subsystem) : Subsystem :=
  mkSubsystem v (maxHp s) (power s).
Definition setSubPower (v : Q) (s : Subsystem) : Subsystem :=
  mkSubsystem (hp s) (maxHp s) v.

(** [subsystems[systemName]]: [undefined] for a name that is not one of
    the four own properties.  The names the program itself passes are the
    four subsystem names; a name that JavaScript finds on [Object.prototype]
    (['constructor'], ['toString'], ...) would yield that inherited member
    and lies outside this table. *)
Definition getSubsystem (systemName : string) (ss : Subsystems) : option Subsystem :=
  if String.eqb systemName "engines" then Some (engines ss)
  else if String.eqb systemName "weapons" then Some (weapons ss)
  else if String.eqb systemName "shields" then Some (shields ss)
  else if String.eqb systemName "sensors" then Some (sensors ss)
  else None.

Definition putSubsystem (systemName : string) (s : Subsystem) (ss : Subsystems) : Subsystems :=
  if String.eqb systemName "engines" then mkSubsystems s (weapons ss) (shields ss) (sensors ss)
  else if String.eqb systemName "weapons" then mkSubsystems (engines ss) s (shields ss) (sensors ss)
  else if String.eqb systemName "shields" then mkSubsystems (engines ss) (weapons ss) s (sensors ss)
  else if String.eqb systemName "sensors" then mkSubsystems (engines ss) (weapons ss) (shields ss) s
  else ss.

Definition setX (v : Q) (s : Ship) : Ship :=
  mkShip (id s) (name s) (type s) (faction s) v (y s) (heading s) (velocity s)
    (maxVelocity s) (turnRate s) (subsystems s) (hull s) (maxHull s)
    (shieldStrength s) (maxShieldStrength s) (aiState s) (patrolPoints s)
    (patrolIndex s) (target s) (size s) (scanned s).
Definition setY (v : Q) (s : Ship) : Ship :=
  mkShip (id s) (name s) (type s) (faction s) (x s) v (heading s) (velocity s)
    (maxVelocity s) (turnRate s) (subsystems s) (hull s) (maxHull s)
    (shieldStrength s) (maxShieldStrength s) (aiState s) (patrolPoints s)
    (patrolIndex s) (target s) (size s) (scanned s).
Definition setHeadingField (v : Q) (s : Ship) : Ship :=
  mkShip (id s) (name s) (type s) (faction s) (x s) (y s) v (velocity s)
    (maxVelocity s) (turnRate s) (subsystems s) (hull s) (maxHull s)
    (shieldStrength s) (maxShieldStrength s) (aiState s) (patrolPoints s)
    (patrolIndex s) (target s) (size s) (scanned s).
Definition setVelocity (v : Q) (s : Ship) : Ship :=
  mkShip (id s) (name s) (type s) (faction s) (x s) (y s) (heading s) v
    (maxVelocity s) (turnRate s) (subsystems s) (hull s) (maxHull s)
    (shieldStrength s) (maxShieldStrength s) (aiState s) (patrolPoints s)
    (patrolIndex s) (target s) (size s) (scanned s).
Definition setSubsystems (v : Subsystems) (s : Ship) : Ship :=
  mkShip (id s) (name s) (type s) (faction s) (x s) (y s) (heading s) (velocity s)
    (maxVelocity s) (turnRate s) v (hull s) (maxHull s)
    (shieldStrength s) (maxShieldStrength s) (aiState s) (patrolPoints s)
    (patrolIndex s) (target s) (size s) (scanned s).
Definition setHull (v : Q) (s : Ship) : Ship :=
  mkShip (id s) (name s) (type s) (faction s) (x s) (y s) (heading s) (velocity s)
    (maxVelocity s) (turnRate s) (subsystems s) v (maxHull s)
    (shieldStrength s) (maxShieldStrength s) (aiState s) (patrolPoints s)
    (patrolIndex s) (target s) (size s) (scanned s).
Definition setShieldStrength (v : Q) (s : Ship) : Ship :=
  mkShip (id s) (name s) (type s) (faction s) (x s) (y s) (heading s) (velocity s)
    (maxVelocity s) (turnRate s) (subsystems s) (hull s) (maxHull s)
    v (maxShieldStrength s) (aiState s) (patrolPoints s)
    (patrolIndex s) (target s) (size s) (scanned s).
Definition setAiState (v : AiState) (s : Ship) : Ship :=
  mkShip (id s) (name s) (type s) (faction s) (x s) (y s) (heading s) (velocity s)
    (maxVelocity s) (turnRate s) (subsystems s) (hull s) (maxHull s)
    (shieldStrength s) (maxShieldStrength s) v (patrolPoints s)
    (patrolIndex s) (target s) (size s) (scanned s).
Definition setPatrolIndex (v : nat) (s : Ship) : Ship :=
  mkShip (id s) (name s) (type s) (faction s) (x s) (y s) (heading s) (velocity s)
    (maxVelocity s) (turnRate s) (subsystems s) (hull s) (maxHull s)
    (shieldStrength s) (maxShieldStrength s) (aiState s) (patrolPoints s)
    v (target s) (size s) (scanned s).
Definition setShipTarget (v : option string) (s : Ship) : Ship :=
  mkShip (id s) (name s) (type s) (faction s) (x s) (y s) (heading s) (velocity s)
    (maxVelocity s) (turnRate s) (subsystems s) (hull s) (maxHull s)
    (shieldStrength s) (maxShieldStrength s) (aiState s) (patrolPoints s)
    (patrolIndex s) v (size s) (scanned s).

(** Field updates of the world. *)
Definition withHeap (v : addr -> Ship) (st : GameState) : GameState :=
  mkGameState v (nextAddr st) (playerShip st) (ships st) (projectiles st)
    (phaserBeams st) (commsLog st) (currentTarget st) (alertLevel st)
    (waypoint st) (gameTime st) (isPaused st) (repairCooldowns st)
    (events st) (sounds st) (randomCalls st) (uuidCalls st).
Definition withShips (v : list addr) (st : GameState) : GameState :=
  mkGameState (heap st) (nextAddr st) (playerShip st) v (projectiles st)
    (phaserBeams st) (commsLog st) (currentTarget st) (alertLevel st)
    (waypoint st) (gameTime st) (isPaused st) (repairCooldowns st)
    (events st) (sounds st) (randomCalls st) (uuidCalls st).
Definition withProjectiles (v : list Projectile) (st : GameState) : GameState :=
  mkGameState (heap st) (nextAddr st) (playerShip st) (ships st) v
    (phaserBeams st) (commsLog st) (currentTarget st) (alertLevel st)
    (waypoint st) (gameTime st) (isPaused st) (repairCooldowns st)
    (events st) (sounds st) (randomCalls st) (uuidCalls st).
Definition withPhaserBeams (v : list Beam) (st : GameState) : GameState :=
  mkGameState (heap st) (nextAddr st) (playerShip st) (ships st) (projectiles st)
    v (commsLog st) (currentTarget st) (alertLevel st)
    (waypoint st) (gameTime st) (isPaused st) (repairCooldowns st)
    (events st) (sounds st) (randomCalls st) (uuidCalls st).
Definition withCommsLog (v : list CommsMsg) (st : GameState) : GameState :=
  mkGameState (heap st) (nextAddr st) (playerShip st) (ships st) (projectiles st)
    (phaserBeams st) v (currentTarget st) (alertLevel st)
    (waypoint st) (gameTime st) (isPaused st) (repairCooldowns st)
    (events st) (sounds st) (randomCalls st) (uuidCalls st).
Definition withCurrentTarget (v : option string) (st : GameState) : GameState :=
  mkGameState (heap st) (nextAddr st) (playerShip st) (ships st) (projectiles st)
    (phaserBeams st) (commsLog st) v (alertLevel st)
    (waypoint st) (gameTime st) (isPaused st) (repairCooldowns st)
    (events st) (sounds st) (randomCalls st) (uuidCalls st).
Definition withAlertLevel (v : AlertLevel) (st : GameState) : GameState :=
  mkGameState (heap st) (nextAddr st) (playerShip st) (ships st) (projectiles st)
    (phaserBeams st) (commsLog st) (currentTarget st) v
    (waypoint st) (gameTime st) (isPaused st) (repairCooldowns st)
    (events st) (sounds st) (randomCalls st) (uuidCalls st).
Definition withRepairCooldowns (v : gmap string Z) (st : GameState) : GameState :=
  mkGameState (heap st) (nextAddr st) (playerShip st) (ships st) (projectiles st)
    (phaserBeams st) (commsLog st) (currentTarget st) (alertLevel st)
    (waypoint st) (gameTime st) (isPaused st) v
    (events st) (sounds st) (randomCalls st) (uuidCalls st).
Definition withEvents (v : list Event) (st : GameState) : GameState :=
  mkGameState (heap st) (nextAddr st) (playerShip st) (ships st) (projectiles st)
    (phaserBeams st) (commsLog st) (currentTarget st) (alertLevel st)
    (waypoint st) (gameTime st) (isPaused st) (repairCooldowns st)
    v (sounds st) (randomCalls st) (uuidCalls st).
Definition withSounds (v : list Sound) (st : GameState) : GameState :=
  mkGameState (heap st) (nextAddr st) (playerShip st) (ships st) (projectiles st)
    (phaserBeams st) (commsLog st) (currentTarget st) (alertLevel st)
    (waypoint st) (gameTime st) (isPaused st) (repairCooldowns st)
    (events st) v (randomCalls st) (uuidCalls st).
Definition withRandomCalls (v : nat) (st : GameState) : GameState :=
  mkGameState (heap st) (nextAddr st) (playerShip st) (ships st) (projectiles st)
    (phaserBeams st) (commsLog st) (currentTarget st) (alertLevel st)
    (waypoint st) (gameTime st) (isPaused st) (repairCooldowns st)
    (events st) (sounds st) v (uuidCalls st).
Definition withUuidCalls (v : nat) (st : GameState) : GameState :=
  mkGameState (heap st) (nextAddr st) (playerShip st) (ships st) (projectiles st)
    (phaserBeams st) (commsLog st) (currentTarget st) (alertLevel st)
    (waypoint st) (gameTime st) (isPaused st) (repairCooldowns st)
    (events st) (sounds st) (randomCalls st) v.

(** [obj.field = ...] on the ship object at address [a]. *)
Definition modify (a : addr) (f : Ship -> Ship) (st : GameState) : GameState :=
  withHeap (fun b => if Nat.eqb b a then f (heap st b) else heap st b) st.

(** [emit(event, data)]. *)
Definition emit (e : Event) (st : GameState) : GameState :=
  withEvents (e :: events st) st.

Definition play (s : Sound) (st : GameState) : GameState :=
  withSounds (s :: sounds st) st.

(** ** Strings *)

Definition upperAscii (c : Ascii.ascii) : Ascii.ascii :=
  let n := Ascii.nat_of_ascii c in
  if (Nat.leb 97 n && Nat.leb n 122)%bool then Ascii.ascii_of_nat (n - 32) else c.

Fixpoint toUpperCase (s : string) : string :=
  match s with
  | EmptyString => EmptyString
  | String c s' => String (upperAscii c) (toUpperCase s')
  end.

(** [a || b] on optional strings: [null], [undefined] and the empty string
    are falsy. *)
Definition orString (a b : option string) : option string :=
  match a with
  | Some s => if String.eqb s "" then b else Some s
  | None => b
  end.

(** [a || d] on an optional number: [undefined] and [0] are falsy. *)
Definition orNumber (a : option Q) (d : Q) : Q :=
  match a with
  | Some v => if Qeq_bool v 0 then d else v
  | None => d
  end.

Definition levelName (l : AlertLevel) : string :=
  match l with
  | AlertNormal => "normal"
  | AlertYellow => "yellow"
  | AlertRed => "red"
  end.

(** [systems[k]] for the array
    [['engines', 'weapons', 'shields', 'sensors']]; [k] is
    [Math.floor(Math.random() * 4)], which lies in 0..3. *)
Definition systemAt (k : Z) : string :=
  if Z.eqb k 0 then "engines"
  else if Z.eqb k 1 then "weapons"
  else if Z.eqb k 2 then "shields"
  else "sensors".

(** [createSubsystems()]. *)
Definition createSubsystems : Subsystems :=
  mkSubsystems (mkSubsystem 100 100 50) (mkSubsystem 100 100 50)
               (mkSubsystem 100 100 50) (mkSubsystem 100 100 50).

(** The [config] argument of [createShip]; an absent property is [None]. *)
Record ShipConfig := mkShipConfig {
  cfgId : option string;
  cfgName : option string;
  cfgType : option string;
  cfgFaction : option Faction;
  cfgX : option Q;
  cfgY : option Q;
  cfgHeading : option Q;
  cfgVelocity : option Q;
  cfgMaxVelocity : option Q;
  cfgTurnRate : option Q;
  cfgSubsystems : option Subsystems;
  cfgHull : option Q;
  cfgMaxHull : option Q;
  cfgShieldStrength : option Q;
  cfgMaxShieldStrength : option Q;
  cfgAiState : option AiState;
  cfgPatrolPoints : option (list Point);
  cfgPatrolIndex : option nat;
  cfgTarget : option string;
  cfgSize : option Q;
  cfgScanned : option bool
}.

Section Engine.

(** The numeric library and the two sources of fresh values. *)
Variable Math_cos Math_sin : Q -> Q.
Variable Math_atan2 : Q -> Q -> Q.
Variable Math_PI : Q.
Variable entropy : nat -> Z.
Variable uuidStream : nat -> string.

(** The [n]-th value of [Math.random()]: 53 random bits scaled into
    [0, 1). *)
Definition randomValue (n : nat) : Q :=
  inject_Z (entropy n mod 2 ^ 53) / inject_Z (2 ^ 53).

Definition Math_random (st : GameState) : Q * GameState :=
  (randomValue (randomCalls st), withRandomCalls (S (randomCalls st)) st).

Definition randomUUID (st : GameState) : string * GameState :=
  (uuidStream (uuidCalls st), withUuidCalls (S (uuidCalls st)) st).

(** *** state.js *)

Definition createShip (config : ShipConfig) (st : GameState) : Ship * GameState :=
  let '(i, st) :=
    match orString (cfgId config) None with
    | Some i => (i, st)
    | None => randomUUID st
    end in
  (mkShip i
     (default "Unknown Vessel" (orString (cfgName config) None))
     (default "frigate" (orString (cfgType config) None))
     (default Neutral (cfgFaction config))
     (orNumber (cfgX config) 0)
     (orNumber (cfgY config) 0)
     (orNumber (cfgHeading config) 0)
     (orNumber (cfgVelocity config) 0)
     (orNumber (cfgMaxVelocity config) 5)
     (orNumber (cfgTurnRate config) 3)
     (default createSubsystems (cfgSubsystems config))
     (orNumber (cfgHull config) 100)
     (orNumber (cfgMaxHull config) 100)
     (orNumber (cfgShieldStrength config) 100)
     (orNumber (cfgMaxShieldStrength config) 100)
     (default Patrol (cfgAiState config))
     (default [] (cfgPatrolPoints config))
     (default O (cfgPatrolIndex config))
     (orString (cfgTarget config) None)
     (orNumber (cfgSize config) 20)
     (default false (cfgScanned config)),
   st).

Definition createProjectile (kind : WeaponKind) (x0 y0 h : Q) (src : string)
    (tgt : option string) (st : GameState) : Projectile * GameState :=
  let '(i, st) := randomUUID st in
  let torpedo := match kind with Torpedo => true | Phaser => false end in
  (mkProjectile i kind x0 y0 h
     (if torpedo then 12 else 50)
     (if torpedo then 30 else 10)
     src
     (orString tgt None)
     (if torpedo then 300%Z else 20%Z)
     (if torpedo then 8 else 3),
   st).

(** [addCommsMessage(sender, message, type)]; the returned message object
    is not used by the core. *)
Definition addCommsMessage (from text : string) (ty : MsgType) (st : GameState) : GameState :=
  let '(i, st) := randomUUID st in
  let msg := mkCommsMsg i from text ty (gameTime st) false in
  let st := withCommsLog (msg :: commsLog st) st in
  let st := if Nat.ltb 50 (length (commsLog st))
            then withCommsLog (removelast (commsLog st)) st else st in
  emit (CommsMessage msg) st.

(** [ships.findIndex(s => s.id === shipId)]. *)
Definition findShipIndex (shipId : option string) (st : GameState) : option (nat * addr) :=
  list_find (fun a => Some (id (heap st a)) = shipId) (ships st).

Definition removeShip (shipId : option string) (st : GameState) : GameState :=
  match findShipIndex shipId st with
  | Some (index, ship) =>
      let st := withShips (delete index (ships st)) st in
      let st := emit (ShipDestroyed ship) st in
      if decide (currentTarget st = shipId) then withCurrentTarget None st else st
  | None => st
  end.

Definition getShip (shipId : option string) (st : GameState) : option addr :=
  if decide (shipId = Some "player") then Some (playerShip st)
  else snd <$> findShipIndex shipId st.

Definition damageSubsystem (systemName : string) (amount : Q) (s : Ship) : Ship :=
  match getSubsystem systemName (subsystems s) with
  | Some sys =>
      setSubsystems
        (putSubsystem systemName (setHp (Math_max 0 (hp sys - amount)) sys) (subsystems s)) s
  | None => s
  end.

(** [damageShip(ship, damage)], in the three blocks the source marks with
    comments. *)

(** "Shields absorb damage first": returns [hullDamage]. *)
Definition absorbDamage (ship : addr) (damage : Q) (st : GameState) : Q * GameState :=
  let shieldEffectiveness := power (shields (subsystems (heap st ship))) / 100 in
  let shieldAbsorb :=
    Math_min (shieldStrength (heap st ship)) (damage * shieldEffectiveness * 0.8) in
  let st := modify ship (fun s => setShieldStrength (shieldStrength s - shieldAbsorb) s) st in
  let hullDamage := damage - shieldAbsorb in
  (hullDamage, modify ship (fun s => setHull (hull s - hullDamage) s) st).

(** "Random subsystem damage". *)
Definition randomSubsystemDamage (ship : addr) (hullDamage : Q) (st : GameState) : GameState :=
  if Qltb 5 hullDamage then
    let '(r, st) := Math_random st in
    if Qltb r 0.3 then
      let '(r', st) := Math_random st in
      let system := systemAt (Math_floor (r' * 4)) in
      let st := modify ship (damageSubsystem system (hullDamage * 0.5)) st in
      if String.eqb (id (heap st ship)) "player"
      then addCommsMessage "DAMAGE CONTROL" (toUpperCase system ++ " damaged!") MsgAlert st
      else st
    else st
  else st.

(** "Check for destruction". *)
Definition checkDestruction (ship : addr) (st : GameState) : GameState :=
  if Qleb (hull (heap st ship)) 0 then
    let st := modify ship (setHull 0) st in
    if negb (String.eqb (id (heap st ship)) "player") then
      let st := removeShip (Some (id (heap st ship))) st in
      addCommsMessage "TACTICAL" (name (heap st ship) ++ " destroyed!") MsgInfo st
    else
      let st := emit (PlayerDestroyed ship) st in
      addCommsMessage "SYSTEM" "HULL BREACH! ALL HANDS ABANDON SHIP!" MsgAlert st
  else st.

Definition damageShip (ship : addr) (damage : Q) (st : GameState) : GameState :=
  let '(hullDamage, st) := absorbDamage ship damage st in
  let st := randomSubsystemDamage ship hullDamage st in
  let st := emit (ShipDamaged ship damage) st in
  checkDestruction ship st.

(** [reset()]: the world at session start.  The player object sits at
    address 0; the trace is empty. *)
Definition playerConfig : ShipConfig :=
  mkShipConfig (Some "player") (Some "USS Endeavour") (Some "cruiser") (Some Friendly)
    (Some 0) (Some 0) (Some 0) (Some 0) (Some 8) None None None None None None
    None None None None (Some 25) (Some true).

Definition blankShip : Ship :=
  mkShip "" "" "" Neutral 0 0 0 0 0 0 createSubsystems 0 0 0 0 Patrol [] O None 0 false.

Definition blankState : GameState :=
  mkGameState (fun _ => blankShip) 1%nat O [] [] [] [] None AlertNormal None 0%Z false ∅
    [] [] O O.

Definition reset : GameState :=
  let '(player, st) := createShip playerConfig blankState in
  withHeap (fun _ => player) st.

Definition addShip (config : ShipConfig) (st : GameState) : addr * GameState :=
  let '(ship, st) := createShip config st in
  let a := nextAddr st in
  let st :=
    mkGameState (fun b => if Nat.eqb b a then ship else heap st b) (S a)
      (playerShip st) (ships st ++ [a]) (projectiles st) (phaserBeams st)
      (commsLog st) (currentTarget st) (alertLevel st) (waypoint st)
      (gameTime st) (isPaused st) (repairCooldowns st) (events st) (sounds st)
      (randomCalls st) (uuidCalls st) in
  (a, emit (ShipAdded a) st).

Definition setTarget (shipId : option string) (st : GameState) : GameState :=
  emit (TargetChanged shipId) (withCurrentTarget shipId st).

Definition setAlertLevel (level : AlertLevel) (st : GameState) : GameState :=
  if decide (alertLevel st = level) then st
  else
    let st := withAlertLevel level st in
    let st := emit (AlertChanged level) st in
    addCommsMessage "BRIDGE" (toUpperCase (levelName level) ++ " ALERT")
      (match level with AlertRed => MsgAlert | _ => MsgInfo end) st.

Definition clearWaypoint (st : GameState) : GameState :=
  emit WaypointCleared
    (mkGameState (heap st) (nextAddr st) (playerShip st) (ships st) (projectiles st)
       (phaserBeams st) (commsLog st) (currentTarget st) (alertLevel st)
       None (gameTime st) (isPaused st) (repairCooldowns st)
       (events st) (sounds st) (randomCalls st) (uuidCalls st)).


(** [repairSubsystem(systemName)]: [system.hp] is read without a check that
    [system] is defined. *)
Definition repairSubsystem (systemName : string) (st : GameState) : Outcome (bool * GameState) :=
  if match repairCooldowns st !! systemName with
     | Some c => Z.ltb 0 c
     | None => false
     end
  then Done (false, st)
  else
    match getSubsystem systemName (subsystems (heap st (playerShip st))) with
    | None => TypeError
    | Some system =>
        if Qleb (maxHp system) (hp system) then Done (false, st)
        else
          let repaired := setHp (Math_min (maxHp system) (hp system + 25)) system in
          let st :=
            modify (playerShip st)
              (fun s => setSubsystems (putSubsystem systemName repaired (subsystems s)) s) st in
          let st := withRepairCooldowns (<[systemName := 300%Z]> (repairCooldowns st)) st in
          let st := addCommsMessage "ENGINEERING" ("Repairing " ++ systemName ++ "...") MsgInfo st in
          Done (true, emit (RepairStarted systemName) st)
    end.

Definition setPower (systemName : string) (p : Q) (st : GameState) : GameState :=
  match getSubsystem systemName (subsystems (heap st (playerShip st))) with
  | Some system =>
      let p' := Math_max 0 (Math_min 100 p) in
      let st :=
        modify (playerShip st)
          (fun s => setSubsystems
                      (putSubsystem systemName (setSubPower p' system) (subsystems s)) s) st in
      emit (PowerChanged systemName p') st
  | None => st
  end.

Definition fireWeapon (kind : string) (tgtId : option string) (st : GameState)
    : bool * GameState :=
  let ship := playerShip st in
  let w := weapons (subsystems (heap st ship)) in
  if Qleb (hp w) 0 || Qleb (power w) 0 then
    (false, addCommsMessage "SYSTEM" "Weapons offline!" MsgAlert st)
  else
    let effectiveness := (hp w / 100) * (power w / 100) in
    if String.eqb kind "phaser" then
      match getShip (orString tgtId (currentTarget st)) st with
      | None => (false, addCommsMessage "SYSTEM" "No target locked!" MsgAlert st)
      | Some tgt =>
          let distance :=
            hypotSq (x (heap st tgt) - x (heap st ship)) (y (heap st tgt) - y (heap st ship)) in
          if distGt distance 500 then
            (false, addCommsMessage "SYSTEM" "Target out of phaser range!" MsgAlert st)
          else
            let st :=
              withPhaserBeams
                (phaserBeams st ++
                 [mkBeam (x (heap st ship)) (y (heap st ship))
                         (x (heap st tgt)) (y (heap st tgt)) 15%Z]) st in
            let damage := 15 * effectiveness in
            let st := damageShip tgt damage st in
            (true, emit (WeaponFired Phaser (Some tgt)) st)
      end
    else if String.eqb kind "torpedo" then
      let '(projectile, st) :=
        createProjectile Torpedo (x (heap st ship)) (y (heap st ship))
          (heading (heap st ship)) "player" (orString tgtId (currentTarget st)) st in
      let projectile :=
        mkProjectile (projId projectile) (projType projectile) (projX projectile)
          (projY projectile) (projHeading projectile) (projVelocity projectile)
          (projDamage projectile * effectiveness) (sourceId projectile)
          (targetId projectile) (lifetime projectile) (projSize projectile) in
      let st := withProjectiles (projectiles st ++ [projectile]) st in
      (true, emit (WeaponFired Torpedo None) st)
    else (false, st).

(** *** simulation.js *)

(** [getSystemEffectiveness(ship, system)]; the callers pass the literal
    names ['engines'] and ['weapons'], here the matching projections. *)
Definition getSystemEffectiveness (ship : Ship) (system : Subsystems -> Subsystem) : Q :=
  let sys := system (subsystems ship) in
  (hp sys / 100) * (power sys / 100).

Definition updatePlayerShip (st : GameState) : GameState :=
  let ship := playerShip st in
  let engineEffectiveness := getSystemEffectiveness (heap st ship) engines in
  let radians := (heading (heap st ship) * Math_PI) / 180 in
  let effectiveVelocity := velocity (heap st ship) * engineEffectiveness in
  let st := modify ship (fun s => setX (x s + Math_cos radians * effectiveVelocity) s) st in
  let st := modify ship (fun s => setY (y s + Math_sin radians * effectiveVelocity) s) st in
  match waypoint st with
  | Some wp =>
      if Qltb 0 (velocity (heap st ship)) then
        let dx := px wp - x (heap st ship) in
        let dy := py wp - y (heap st ship) in
        if distLt (hypotSq dx dy) 20 then
          clearWaypoint (addCommsMessage "NAVIGATION" "Waypoint reached." MsgInfo st)
        else st
      else st
  | None => st
  end.

(** [a / b < c] with the division of IEEE numbers: a zero divisor gives
    an infinity of the sign of [a], or NaN, and only minus infinity is below
    [c]. *)
Definition ratioLt (a b c : Q) : bool :=
  if Qeq_bool b 0 then Qltb a 0 else Qltb (a / b) c.

Definition updateNPCAI (ship : addr) (st : GameState) : GameState :=
  let player := playerShip st in
  let distToPlayer :=
    hypotSq (x (heap st player) - x (heap st ship)) (y (heap st player) - y (heap st ship)) in
  match faction (heap st ship) with
  | Friendly =>
      if distGt distToPlayer 500 then
        modify ship (setShipTarget (Some "player")) (modify ship (setAiState Approach) st)
      else modify ship (setAiState Patrol) st
  | Neutral => modify ship (setAiState Patrol) st
  | Hostile =>
      if ratioLt (hull (heap st ship)) (maxHull (heap st ship)) 0.3 then
        modify ship (setAiState Flee) st
      else if distLt distToPlayer 800 then
        modify ship (setShipTarget (Some "player")) (modify ship (setAiState Attack) st)
      else if distLt distToPlayer 1500 then
        modify ship (setShipTarget (Some "player")) (modify ship (setAiState Approach) st)
      else modify ship (setAiState Patrol) st
  end.

(** [npcFireAtPlayer(ship)]; the bearing [angle] the source computes first
    is never used. *)
Definition npcFireAtPlayer (ship : addr) (st : GameState) : GameState :=
  let weaponEffectiveness := getSystemEffectiveness (heap st ship) weapons in
  if Qleb weaponEffectiveness 0 then st
  else
    let player := playerShip st in
    let distance :=
      hypotSq (x (heap st player) - x (heap st ship)) (y (heap st player) - y (heap st ship)) in
    if distLt distance 400 then
      let st :=
        withPhaserBeams
          (phaserBeams st ++
           [mkBeam (x (heap st ship)) (y (heap st ship))
                   (x (heap st player)) (y (heap st player)) 15%Z]) st in
      let damage := 10 * weaponEffectiveness in
      let st := damageShip player damage st in
      play PlayHullHit st
    else st.

(** The block "Turn towards target" of [moveNPCShip], run when [targetX]
    and [targetY] are defined. *)
Definition steer (ship : addr) (engineEffectiveness targetX targetY : Q)
    (st : GameState) : GameState :=
  let s := heap st ship in
  let targetAngle := Math_atan2 (targetY - y s) (targetX - x s) * 180 / Math_PI in
  let angleDiff := targetAngle - heading s in
  let angleDiff := whileAbove (turns angleDiff 180) 180 angleDiff in
  let angleDiff := whileBelow (turns angleDiff (-180)) (-180) angleDiff in
  let turnSpeed := turnRate s * engineEffectiveness in
  let st :=
    if Qltb (Math_abs angleDiff) turnSpeed then modify ship (setHeadingField targetAngle) st
    else
      modify ship
        (fun s => setHeadingField
                    (heading s + (if Qltb 0 angleDiff then turnSpeed else - turnSpeed)) s) st in
  let st :=
    modify ship (fun s => setHeadingField (whileBelow (turns (heading s) 0) 0 (heading s)) s) st in
  modify ship
    (fun s => setHeadingField (whileAtLeast (turns (heading s) 360) 360 (heading s)) s) st.

(** The [switch (ship.aiState)] of [moveNPCShip]: the new world and the
    target point, if one was chosen.  [patrolPoints[patrolIndex]] is
    [undefined] for an index outside the route, and reading [point.x] then
    raises. *)
Definition chooseTarget (ship : addr) (engineEffectiveness : Q) (st : GameState)
    : Outcome (GameState * option (Q * Q)) :=
  let s := heap st ship in
  match aiState s with
  | Patrol =>
      if Nat.ltb 0 (length (patrolPoints s)) then
        match patrolPoints s !! patrolIndex s with
        | None => TypeError
        | Some point =>
            let targetX := px point in
            let targetY := py point in
            let st :=
              if distLt (hypotSq (targetX - x s) (targetY - y s)) 30 then
                modify ship
                  (fun s => setPatrolIndex
                              ((patrolIndex s + 1) mod length (patrolPoints s))%nat s) st
              else st in
            Done (modify ship
                    (fun s => setVelocity (maxVelocity s * 0.5 * engineEffectiveness) s) st,
                  Some (targetX, targetY))
        end
      else Done (modify ship (setVelocity 0) st, None)
  | Approach =>
      if decide (target s = Some "player") then
        let p := heap st (playerShip st) in
        Done (modify ship
                (fun s => setVelocity (maxVelocity s * 0.8 * engineEffectiveness) s) st,
              Some (x p, y p))
      else Done (st, None)
  | Attack =>
      if decide (target s = Some "player") then
        let p := heap st (playerShip st) in
        let targetX := x p in
        let targetY := y p in
        let st :=
          modify ship (fun s => setVelocity (maxVelocity s * engineEffectiveness) s) st in
        let st :=
          if distLt (hypotSq (targetX - x (heap st ship)) (targetY - y (heap st ship))) 400 then
            let '(r, st) := Math_random st in
            if Qltb r 0.02 then npcFireAtPlayer ship st else st
          else st in
        Done (st, Some (targetX, targetY))
      else Done (st, None)
  | Flee =>
      let fleeFrom := heap st (playerShip st) in
      let angle := Math_atan2 (y s - y fleeFrom) (x s - x fleeFrom) in
      let targetX := x s + Math_cos angle * 500 in
      let targetY := y s + Math_sin angle * 500 in
      Done (modify ship (fun s => setVelocity (maxVelocity s * engineEffectiveness) s) st,
            Some (targetX, targetY))
  end.

Definition moveNPCShip (ship : addr) (st : GameState) : Outcome GameState :=
  let engineEffectiveness := getSystemEffectiveness (heap st ship) engines in
  bindO (chooseTarget ship engineEffectiveness st) (fun '(st, tgt) =>
    let st :=
      match tgt with
      | Some (targetX, targetY) => steer ship engineEffectiveness targetX targetY st
      | None => st
      end in
    let radians := (heading (heap st ship) * Math_PI) / 180 in
    let st := modify ship (fun s => setX (x s + Math_cos radians * velocity s) s) st in
    Done (modify ship (fun s => setY (y s + Math_sin radians * velocity s) s) st)).

Fixpoint forEachShip (l : list addr) (st : GameState) : Outcome GameState :=
  match l with
  | [] => Done st
  | ship :: l' => bindO (moveNPCShip ship (updateNPCAI ship st)) (forEachShip l')
  end.

Definition updateNPCShips (st : GameState) : Outcome GameState :=
  forEachShip (ships st) st.

(** The first three statements of the loop body of [updateProjectiles]:
    the projectile moves and ages by one tick. *)
Definition moveProjectile (proj : Projectile) : Projectile :=
  let radians := (projHeading proj * Math_PI) / 180 in
  mkProjectile (projId proj) (projType proj)
    (projX proj + Math_cos radians * projVelocity proj)
    (projY proj + Math_sin radians * projVelocity proj)
    (projHeading proj) (projVelocity proj) (projDamage proj) (sourceId proj)
    (targetId proj) (lifetime proj - 1)%Z (projSize proj).

(** [dist < target.size + proj.size]. *)
Definition collides (st : GameState) (proj : Projectile) (tgt : addr) : bool :=
  distLt (hypotSq (x (heap st tgt) - projX proj) (y (heap st tgt) - projY proj))
         (size (heap st tgt) + projSize proj).

Definition projectileTargets (st : GameState) (proj : Projectile) : list addr :=
  if String.eqb (sourceId proj) "player" then ships st else [playerShip st].

(** One iteration of the loop of [updateProjectiles], at index [i]. *)
Definition stepProjectile (i : nat) (st : GameState) : GameState :=
  match projectiles st !! i with
  | None => st
  | Some proj0 =>
      let proj := moveProjectile proj0 in
      let st := withProjectiles (<[i := proj]> (projectiles st)) st in
      let '(hit, st) :=
        match find (collides st proj) (projectileTargets st proj) with
        | Some tgt => (true, play PlayExplosion (damageShip tgt (projDamage proj) st))
        | None => (false, st)
        end in
      if hit || Z.leb (lifetime proj) 0
      then withProjectiles (delete i (projectiles st)) st
      else st
  end.

(** [for (let i = n - 1; i >= 0; i--)]. *)
Fixpoint projectileLoop (n : nat) (st : GameState) : GameState :=
  match n with
  | O => st
  | S i => projectileLoop i (stepProjectile i st)
  end.

Definition updateProjectiles (st : GameState) : GameState :=
  projectileLoop (length (projectiles st)) st.

Definition stepBeam (i : nat) (st : GameState) : GameState :=
  match phaserBeams st !! i with
  | None => st
  | Some b =>
      let b' := mkBeam (x1 b) (y1 b) (x2 b) (y2 b) (beamLifetime b - 1)%Z in
      if Z.leb (beamLifetime b') 0
      then withPhaserBeams (delete i (phaserBeams st)) st
      else withPhaserBeams (<[i := b']> (phaserBeams st)) st
  end.

Fixpoint beamLoop (n : nat) (st : GameState) : GameState :=
  match n with
  | O => st
  | S i => beamLoop i (stepBeam i st)
  end.

Definition updatePhaserBeams (st : GameState) : GameState :=
  beamLoop (length (phaserBeams st)) st.

Definition updateRepairCooldowns (st : GameState) : GameState :=
  map_fold
    (fun system c st =>
       if Z.ltb 0 c then
         let st := withRepairCooldowns (<[system := (c - 1)%Z]> (repairCooldowns st)) st in
         if Z.eqb (c - 1) 0 then play PlayRepairComplete st else st
       else st)
    st (repairCooldowns st).

(** The [forEach] of [checkAlertLevel]: squared distance to the nearest
    hostile, [None] while it is still [Infinity]. *)
Definition nearestHostile (st : GameState) : option Q :=
  let player := heap st (playerShip st) in
  fold_left
    (fun nearest ship =>
       if decide (faction (heap st ship) = Hostile)
       then minDistSq nearest
              (hypotSq (x (heap st ship) - x player) (y (heap st ship) - y player))
       else nearest)
    (ships st) None.

Definition checkAlertLevel (st : GameState) : GameState :=
  let nearestHostileDistance := nearestHostile st in
  if nearestLt nearestHostileDistance 500 then
    if decide (alertLevel st ≠ AlertRed)
    then play PlayRedAlert (setAlertLevel AlertRed st)
    else st
  else if nearestLt nearestHostileDistance 1000 then
    if decide (alertLevel st ≠ AlertYellow ∧ alertLevel st ≠ AlertRed)
    then play PlayYellowAlert (setAlertLevel AlertYellow st)
    else st
  else if bool_decide (alertLevel st ≠ AlertNormal) && nearestGt nearestHostileDistance 1500
  then setAlertLevel AlertNormal st
  else st.

Definition regenerateShield (s : Ship) : Ship :=
  let shieldPower := power (shields (subsystems s)) / 100 in
  let shieldHealth := hp (shields (subsystems s)) / 100 in
  if Qltb 0 shieldPower && Qltb 0 shieldHealth
     && Qltb (shieldStrength s) (maxShieldStrength s)
  then
    setShieldStrength
      (Math_min (shieldStrength s + 0.1 * shieldPower * shieldHealth) (maxShieldStrength s)) s
  else s.

Definition regenerateShields (st : GameState) : GameState :=
  fold_left (fun st ship => modify ship regenerateShield st)
            (ships st ++ [playerShip st]) st.

(** [update()]: one tick. *)
Definition update (st : GameState) : Outcome GameState :=
  let st :=
    mkGameState (heap st) (nextAddr st) (playerShip st) (ships st) (projectiles st)
      (phaserBeams st) (commsLog st) (currentTarget st) (alertLevel st)
      (waypoint st) (gameTime st + 1)%Z (isPaused st) (repairCooldowns st)
      (events st) (sounds st) (randomCalls st) (uuidCalls st) in
  let st := updatePlayerShip st in
  bindO (updateNPCShips st) (fun st =>
    let st := updateProjectiles st in
    let st := updatePhaserBeams st in
    let st := updateRepairCooldowns st in
    let st := checkAlertLevel st in
    Done (regenerateShields st)).

(** *** helm.js *)

Definition setThrottle (percent : Q) (st : GameState) : GameState :=
  let ship := playerShip st in
  let e := engines (subsystems (heap st ship)) in
  let engineEffectiveness := (hp e / 100) * (power e / 100) in
  modify ship
    (fun s => setVelocity ((percent / 100) * maxVelocity s * engineEffectiveness) s) st.

Definition normalizeHeading (h : Q) : Q := jsRem (jsRem h 360 + 360) 360.

Definition setHeading (h : Q) (st : GameState) : GameState :=
  modify (playerShip st) (setHeadingField (normalizeHeading h)) st.

Definition turn (degrees : Q) (st : GameState) : GameState :=
  let h := heading (heap st (playerShip st)) + degrees in
  modify (playerShip st) (setHeadingField (normalizeHeading h)) st.

(** *** The effect of [damageShip] on the damaged object

    What the statements of [damageShip] leave in the object it was handed,
    as a function of the object before the call; [n] is the number of
    [Math.random()] calls made so far. *)
Definition subsystemHit (n : nat) (hullDamage : Q) (s : Ship) : Ship :=
  if Qltb 5 hullDamage then
    if Qltb (randomValue n) 0.3
    then damageSubsystem (systemAt (Math_floor (randomValue (S n) * 4))) (hullDamage * 0.5) s
    else s
  else s.

Definition shieldAbsorbOf (damage : Q) (s : Ship) : Q :=
  Math_min (shieldStrength s) (damage * (power (shields (subsystems s)) / 100) * 0.8).

Definition damagedShip (n : nat) (damage : Q) (s : Ship) : Ship :=
  let shieldAbsorb := shieldAbsorbOf damage s in
  let hullDamage := damage - shieldAbsorb in
  let s1 := setHull (hull s - hullDamage) (setShieldStrength (shieldStrength s - shieldAbsorb) s) in
  let s2 := subsystemHit n hullDamage s1 in
  if Qleb (hull s2) 0 then setHull 0 s2 else s2.

(** The hull the destruction check looks at. *)
Definition hullAfterHit (damage : Q) (s : Ship) : Q :=
  hull s - (damage - shieldAbsorbOf damage s).

(** [damageShip] up to the destruction check. *)
Definition damageShipBody (ship : addr) (damage : Q) (st : GameState) : GameState :=
  let '(hullDamage, st) := absorbDamage ship damage st in
  emit (ShipDamaged ship damage) (randomSubsystemDamage ship hullDamage st).

(** The fields of the world that the damage pipeline leaves alone. *)
Definition untouched (st st' : GameState) : Prop :=
  projectiles st' = projectiles st /\
  phaserBeams st' = phaserBeams st /\
  sounds st' = sounds st /\
  playerShip st' = playerShip st /\
  alertLevel st' = alertLevel st.

(** *** Collisions of a projectile, as the specification words them

    A projectile is tested against its opposing set: a projectile of the
    player against every listed ship, any other projectile against the
    player.  A candidate qualifies when its distance to the projectile is
    below the sum of the two collision radii. *)

(** [distance < r], on the squared distance. *)
Definition closerThan (dsq r : Q) : Prop := 0 < r /\ dsq < r * r.

Definition opposingSet (st : GameState) (proj : Projectile) : list addr :=
  if decide (sourceId proj = "player") then ships st else [playerShip st].

Definition inReach (st : GameState) (proj : Projectile) (b : addr) : Prop :=
  closerThan (hypotSq (x (heap st b) - projX proj) (y (heap st b) - projY proj))
             (size (heap st b) + projSize proj).

(** The first qualifying candidate in the order of the opposing set, and
    the absence of any. *)
Definition firstCollision (st : GameState) (proj : Projectile) (tgt : addr) : Prop :=
  exists l1 l2,
    opposingSet st proj = l1 ++ tgt :: l2 /\
    Forall (fun b => ~ inReach st proj b) l1 /\
    inReach st proj tgt.

Definition noCollision (st : GameState) (proj : Projectile) : Prop :=
  Forall (fun b => ~ inReach st proj b) (opposingSet st proj).

(** The projectiles of a list one tick later, had none of them hit
    anything: moved, aged, and dropped at lifetime 0. *)
Definition agedProjectiles (l : list Projectile) : list Projectile :=
  List.filter (fun p => Z.ltb 0 (lifetime p)) (List.map moveProjectile l).

(** *** Hostiles around the player, as the specification words them *)

Definition hostileDistSq (st : GameState) (ship : addr) : Q :=
  hypotSq (x (heap st ship) - x (heap st (playerShip st)))
          (y (heap st ship) - y (heap st (playerShip st))).

(** Some listed hostile is at a distance below [r]. *)
Definition someHostileWithin (st : GameState) (r : Q) : Prop :=
  exists ship, ship ∈ ships st /\ faction (heap st ship) = Hostile /\
               distLt (hostileDistSq st ship) r = true.

(** Every listed hostile is at a distance above [r] (in particular when
    there is none). *)
Definition allHostilesBeyond (st : GameState) (r : Q) : Prop :=
  forall ship, ship ∈ ships st -> faction (heap st ship) = Hostile ->
               distGt (hostileDistSq st ship) r = true.

(** *** NPC movement, as the specification words it *)

(** The AI state gives the ship a point to steer to. *)
Definition steers (st : GameState) (ship : addr) : Prop :=
  match aiState (heap st ship) with
  | Patrol => patrolPoints (heap st ship) ≠ []
  | Approach | Attack => target (heap st ship) = Some "player"
  | Flee => True
  end.

(** The patrol index points into the route. *)
Definition validPatrol (s : Ship) : Prop :=
  patrolPoints s = [] \/ (patrolIndex s < length (patrolPoints s))%nat.

(** Engine effectiveness of a ship object. *)
Definition engineEffectivenessOf (s : Ship) : Q :=
  (hp (engines (subsystems s)) / 100) * (power (engines (subsystems s)) / 100).

(** The fields the AI decision reads that movement never writes. *)
Definition sameCore (s s' : Ship) : Prop :=
  faction s' = faction s /\ aiState s' = aiState s /\ maxHull s' = maxHull s.

(** *** Phaser fire, as the specification words it *)


(** A configured number that [||] takes for missing: [undefined] or 0;
    and a configured string that it takes for missing: [undefined] or the
    empty string. *)
Definition falsyNumber (c : option Q) : Prop :=
  match c with
  | Some v => v == 0
  | None => True
  end.

Definition falsyString (c : option string) : Prop := c = None \/ c = Some "".



(** *** Well-formed worlds and the event trace *)

Definition shipIds (st : GameState) : list string :=
  (fun a => id (heap st a)) <$> ships st.

(** The player object carries the id ['player'] ([reset] gives it), and the
    listed ships carry pairwise different ids, none of them ['player']
    ([createShip] draws them from [crypto.randomUUID]). *)
Definition wellFormed (st : GameState) : Prop :=
  id (heap st (playerShip st)) = "player" /\
  ("player" ∉ shipIds st) /\
  NoDup (shipIds st).

(** The id [createShip] gives a ship. *)
Definition createdId (config : ShipConfig) (st : GameState) : string :=
  match orString (cfgId config) None with
  | Some i => i
  | None => uuidStream (uuidCalls st)
  end.

(** Addresses in use lie below the next free one. *)
Definition allocated (st : GameState) : Prop :=
  (playerShip st < nextAddr st)%nat /\
  Forall (fun a => (a < nextAddr st)%nat) (ships st).

Definition isDestruction (e : Event) : bool :=
  match e with
  | ShipDestroyed _ | PlayerDestroyed _ => true
  | _ => false
  end.

Definition isShipDamaged (e : Event) : bool :=
  match e with
  | ShipDamaged _ _ => true
  | _ => false
  end.

Definition damageCount (l : list Event) : nat :=
  length (List.filter isShipDamaged l).

(** *** Engineering, as the specification words it *)

(** [Math.max(0, Math.min(100, p))]. *)
Definition clampPower (p : Q) : Q := Math_max 0 (Math_min 100 p).

(** One tick of a repair cooldown. *)
Definition coolDown (c : Z) : Z := if Z.ltb 0 c then (c - 1)%Z else c.

(** The body of the loop of [updateRepairCooldowns]. *)
Definition cooldownStep (system : string) (c : Z) (st : GameState) : GameState :=
  if Z.ltb 0 c then
    let st := withRepairCooldowns (<[system := (c - 1)%Z]> (repairCooldowns st)) st in
    if Z.eqb (c - 1) 0 then play PlayRepairComplete st else st
  else st.

(** *** Evolution of a world

    What every phase of a tick keeps: the player address, the ids and the
    patrol routes of all ship objects, valid patrol indices, and a ship list
    that can only lose entries. *)
Definition evolves (st st' : GameState) : Prop :=
  playerShip st' = playerShip st /\
  ships st' `sublist_of` ships st /\
  forall a, id (heap st' a) = id (heap st a) /\
            patrolPoints (heap st' a) = patrolPoints (heap st a) /\
            (validPatrol (heap st a) -> validPatrol (heap st' a)).

(** A field update that leaves id, route and patrol index alone. *)
Definition inert (f : Ship -> Ship) : Prop :=
  forall s, id (f s) = id s /\ patrolPoints (f s) = patrolPoints s /\
            patrolIndex (f s) = patrolIndex s.

(** Worlds that differ at most in the object at [ship]. *)
Definition onlyShip (ship : addr) (st st' : GameState) : Prop :=
  events st' = events st /\ phaserBeams st' = phaserBeams st /\
  projectiles st' = projectiles st /\ sounds st' = sounds st /\
  ships st' = ships st /\ playerShip st' = playerShip st /\
  randomCalls st' = randomCalls st /\ commsLog st' = commsLog st /\
  forall b, b ≠ ship -> heap st' b = heap st b.

(** *** Beams, as the specification words them *)

(** A beam one tick older, and the beams of a list that are still alive one
    tick later. *)
Definition ageBeam (b : Beam) : Beam :=
  mkBeam (x1 b) (y1 b) (x2 b) (y2 b) (beamLifetime b - 1)%Z.

Definition agedBeams (l : list Beam) : list Beam :=
  List.filter (fun b => Z.ltb 0 (beamLifetime b)) (List.map ageBeam l).

(** *** The clock

    The tick counter and the pause flag of a world; only [update] advances
    the former, and nothing in the core writes the latter. *)
Definition clock (st : GameState) : Z * bool := (gameTime st, isPaused st).

(** *** simulation.js: the frame loop

    [loop(timestamp)] of the [Simulation] object, whose fields [lastTick]
    and [running] are passed in and out.  Scheduling of the next frame and
    the render callback are outside the core and not modelled. *)
Definition tickLength : Q := 50.

(** [for (let i = 0; i < Math.min(ticksNeeded, 5); i++)], for [n]
    iterations. *)
Fixpoint runTicks (n : nat) (lastTick : Q) (st : GameState) : Outcome (Q * GameState) :=
  match n with
  | O => Done (lastTick, st)
  | S k =>
      let lastTick := lastTick + tickLength in
      bindO (if negb (isPaused st) then update st else Done st) (runTicks k lastTick)
  end.

Definition loop (running : bool) (timestamp lastTick : Q) (st : GameState)
    : Outcome (Q * GameState) :=
  if negb running then Done (lastTick, st)
  else
    let elapsed := timestamp - lastTick in
    let ticksNeeded := Math_floor (elapsed / tickLength) in
    runTicks (Z.to_nat (Z.min ticksNeeded 5)) lastTick st.

(** *** Shield regeneration, as a relation between a ship object before
    and after: only the shield strength changed, it did not fall, and it did
    not pass the maximum unless it was above it already. *)
Definition regenerated (s s' : Ship) : Prop :=
  s' = setShieldStrength (shieldStrength s') s /\
  shieldStrength s <= shieldStrength s' /\
  shieldStrength s' <= Math_max (shieldStrength s) (maxShieldStrength s).

(** *** The one situation in which the AI decision picks the attack state:
    a hostile ship, not below 30% hull, closer than 800 to the player. *)
Definition attacks (st : GameState) (ship : addr) : Prop :=
  faction (heap st ship) = Hostile /\
  ratioLt (hull (heap st ship)) (maxHull (heap st ship)) 0.3 = false /\
  distLt (hypotSq (x (heap st (playerShip st)) - x (heap st ship))
                  (y (heap st (playerShip st)) - y (heap st ship))) 800 = true.

(** *** scenario.js

    The synchronous part of [initializeScenario]; the two messages it
    schedules with [setTimeout] arrive later and are not part of the call. *)
Definition friendlyNames : list string :=
  ["USS Valor"; "USS Horizon"; "USS Discovery"; "USS Pathfinder";
   "USS Sentinel"; "USS Pioneer"; "USS Defiant"; "USS Resolute"].

Definition neutralNames : list string :=
  ["SS Aurora"; "SS Merchant Star"; "SS Free Spirit"; "SS Wanderer";
   "SS Fortune"; "SS Nebula Trader"; "SS Cargo King"; "SS Silent Runner"].

Definition hostileNames : list string :=
  ["IKS Vengeance"; "IKS Bloodwing"; "IKS Ravager"; "IKS Death Strike";
   "IKS Shadow Hunter"; "IKS Wrath"; "IKS Destroyer"; "IKS Predator"].

Definition generatePatrolPoints (centerX centerY radius : Q) (count : nat) : list Point :=
  List.map
    (fun i =>
       let angle := (inject_Z (Z.of_nat i) / inject_Z (Z.of_nat count)) * Math_PI * 2 in
       mkPoint (centerX + Math_cos angle * radius) (centerY + Math_sin angle * radius))
    (seq 0 count).

Definition randomRingPosition (minRadius maxRadius : Q) (st : GameState)
    : Point * GameState :=
  let '(r, st) := Math_random st in
  let angle := r * Math_PI * 2 in
  let '(r, st) := Math_random st in
  let radius := minRadius + r * (maxRadius - minRadius) in
  (mkPoint (Math_cos angle * radius) (Math_sin angle * radius), st).

(** [for (let i = 0; i < n; i++) body(i)]. *)
Fixpoint forUpTo (n : nat) (body : nat -> GameState -> Outcome GameState)
    (st : GameState) : Outcome GameState :=
  match n with
  | O => Done st
  | S k => bindO (forUpTo k body st) (body k)
  end.

(** The body of the loop over the three traders. *)
Definition addNeutral (i : nat) (st : GameState) : Outcome GameState :=
  let '(pos, st) := randomRingPosition 800 1500 st in
  let '(patrolCenter, st) := randomRingPosition 600 1200 st in
  let '(r, st) := Math_random st in
  Done (snd (addShip
    (mkShipConfig None (neutralNames !! i) (Some "freighter") (Some Neutral)
       (Some (px pos)) (Some (py pos)) (Some (r * 360)) (Some 0) (Some 3)
       None None None None None None None
       (Some (generatePatrolPoints (px patrolCenter) (py patrolCenter) 400 4))
       None None (Some 22) (Some false)) st)).

Record Zone := mkZone { minR : Q; maxR : Q; zoneAngle : Q }.

Definition hostileZones : list Zone :=
  [mkZone 2000 2500 0; mkZone 2200 2800 (Math_PI / 2);
   mkZone 1800 2400 Math_PI; mkZone 2000 2600 (- Math_PI / 2)].

(** The body of the loop over the four warships; [hostileZones[i]] is
    [undefined] outside the array, and reading [zone.minR] then raises. *)
Definition addHostile (i : nat) (st : GameState) : Outcome GameState :=
  match hostileZones !! i with
  | None => TypeError
  | Some zone =>
      let '(r, st) := Math_random st in
      let radius := minR zone + r * (maxR zone - minR zone) in
      let '(r, st) := Math_random st in
      let angleVar := (r - 0.5) * 0.5 in
      let x0 := Math_cos (zoneAngle zone + angleVar) * radius in
      let y0 := Math_sin (zoneAngle zone + angleVar) * radius in
      let '(r, st) := Math_random st in
      let flagship := Nat.eqb i 0 in
      Done (snd (addShip
        (mkShipConfig None (hostileNames !! i)
           (Some (if flagship then "battlecruiser" else "warbird")) (Some Hostile)
           (Some x0) (Some y0) (Some (r * 360)) (Some 0) (Some 7) (Some 2)
           None (Some (if flagship then 150 else 100)) (Some (if flagship then 150 else 100))
           None None None
           (Some (generatePatrolPoints x0 y0 300 3))
           None None (Some (if flagship then 28 else 22)) (Some false)) st))
  end.

Definition initializeScenario : Outcome GameState :=
  let st := reset in
  let '(escort1Pos, st) := randomRingPosition 100 200 st in
  let '(r, st) := Math_random st in
  let st :=
    snd (addShip
      (mkShipConfig None (friendlyNames !! 0%nat) (Some "escort") (Some Friendly)
         (Some (px escort1Pos)) (Some (py escort1Pos)) (Some (r * 360)) (Some 0) (Some 6)
         None None None None None None None
         (Some (generatePatrolPoints 0 0 300 4))
         None None (Some 18) (Some true)) st) in
  let '(escort2Pos, st) := randomRingPosition 150 300 st in
  let '(r, st) := Math_random st in
  let st :=
    snd (addShip
      (mkShipConfig None (friendlyNames !! 1%nat) (Some "frigate") (Some Friendly)
         (Some (px escort2Pos)) (Some (py escort2Pos)) (Some (r * 360)) (Some 0) (Some 5)
         None None None None None None None
         (Some (generatePatrolPoints (px escort2Pos) (py escort2Pos) 200 3))
         None None (Some 20) (Some true)) st) in
  bindO (forUpTo 3 addNeutral st) (fun st =>
  bindO (forUpTo 4 addHostile st) (fun st =>
  Done (addCommsMessage "STARFLEET COMMAND"
          "USS Endeavour, you are cleared for patrol. Report any hostile activity."
          MsgHail st))).

(** A projection of the world a fallible step returns. *)
Definition mapO {A B} (f : A -> B) (o : Outcome A) : Outcome B :=
  match o with
  | Done a => Done (f a)
  | TypeError => TypeError
  end.

(** *** weapons.js: the weapons station

    The station's own fields; the calls it makes to the audio manager are
    logged in [weaponsAudio], newest first.  Rendering is not modelled. *)
Inductive AudioCall :=
| playError | playPhaser | playTorpedo | playTargetLock | playClick | playBeep.

Record WeaponsStation := mkWeaponsStation {
  phaserCharge : Q;
  torpedoCount : Z;
  phaserCooldown : Z;
  torpedoCooldown : Z;
  weaponsAudio : list AudioCall
}.

(** The station as its constructor leaves it. *)
Definition newWeaponsStation : WeaponsStation := mkWeaponsStation 100 10 0 0 [].

Definition weaponsPlay (c : AudioCall) (ws : WeaponsStation) : WeaponsStation :=
  mkWeaponsStation (phaserCharge ws) (torpedoCount ws) (phaserCooldown ws)
    (torpedoCooldown ws) (c :: weaponsAudio ws).

Definition firePhaser (ws : WeaponsStation) (st : GameState) : WeaponsStation * GameState :=
  if Z.ltb 0 (phaserCooldown ws) || Qltb (phaserCharge ws) 20 then
    (weaponsPlay playError ws, st)
  else
    match orString (currentTarget st) None with
    | None =>
        (weaponsPlay playError ws,
         addCommsMessage "WEAPONS" "No target locked!" MsgAlert st)
    | Some _ =>
        let '(fired, st) := fireWeapon "phaser" (currentTarget st) st in
        if fired then
          let ws := weaponsPlay playPhaser ws in
          (mkWeaponsStation (phaserCharge ws - 20) (torpedoCount ws) 30
             (torpedoCooldown ws) (weaponsAudio ws), st)
        else (ws, st)
    end.

Definition fireTorpedo (ws : WeaponsStation) (st : GameState) : WeaponsStation * GameState :=
  if Z.ltb 0 (torpedoCooldown ws) || Z.leb (torpedoCount ws) 0 then
    (weaponsPlay playError ws, st)
  else
    let '(fired, st) := fireWeapon "torpedo" (currentTarget st) st in
    if fired then
      let ws := weaponsPlay playTorpedo ws in
      (mkWeaponsStation (phaserCharge ws) (torpedoCount ws - 1) (phaserCooldown ws)
         60 (weaponsAudio ws), st)
    else (ws, st).

(** [update(timestamp)] of the station, once per rendered frame. *)
Definition weaponsUpdate (ws : WeaponsStation) (st : GameState) : WeaponsStation :=
  let weaponSys := weapons (subsystems (heap st (playerShip st))) in
  let rechargeRate := (hp weaponSys / 100) * (power weaponSys / 100) * 0.5 in
  mkWeaponsStation
    (Math_min 100 (phaserCharge ws + rechargeRate))
    (torpedoCount ws)
    (if Z.ltb 0 (phaserCooldown ws) then phaserCooldown ws - 1 else phaserCooldown ws)%Z
    (if Z.ltb 0 (torpedoCooldown ws) then torpedoCooldown ws - 1 else torpedoCooldown ws)%Z
    (weaponsAudio ws).

(** The station after [n] frames, the world at frame [j] being
    [worlds j]. *)
Fixpoint weaponsFrames (ws : WeaponsStation) (worlds : nat -> GameState) (n : nat)
    : WeaponsStation :=
  match n with
  | O => ws
  | S j => weaponsUpdate (weaponsFrames ws worlds j) (worlds j)
  end.

(** What the station keeps true of itself. *)
Definition stationOk (ws : WeaponsStation) : Prop :=
  0 <= phaserCharge ws /\ phaserCharge ws <= 100 /\
  (0 <= torpedoCount ws)%Z /\ (0 <= phaserCooldown ws)%Z /\ (0 <= torpedoCooldown ws)%Z.

(** *** Number formatting

    [Math.round] rounds half-way cases up; [String(n)] of an integer is its
    decimal numeral; [x.toFixed(1)] takes the sign off, picks the integer
    [n] with [n / 10] nearest to [|x|] (the larger one on a tie) and prints
    it with one digit after the point. *)
Definition Math_round (a : Q) : Z := Qfloor (a + (1 # 2)).

Definition showZ (z : Z) : string := NilZero.string_of_int (Z.to_int z).

Definition toFixed1 (a : Q) : string :=
  let neg := Qltb a 0 in
  let n := Qfloor ((if neg then - a else a) * 10 + (1 # 2)) in
  (if neg then "-" else "") ++ showZ (n / 10)%Z ++ "." ++ showZ (n mod 10)%Z.

(** *** renderer.js: the coordinate transforms of the [Renderer], whose
    fields [width] and [height] are the canvas size. *)
Record Renderer := mkRenderer { width : Q; height : Q }.

Definition worldToScreen (r : Renderer) (worldX worldY centerX centerY scale : Q) : Point :=
  mkPoint ((worldX - centerX) / scale + width r / 2)
          ((worldY - centerY) / scale + height r / 2).

Definition screenToWorld (r : Renderer) (screenX screenY centerX centerY scale : Q) : Point :=
  mkPoint ((screenX - width r / 2) * scale + centerX)
          ((screenY - height r / 2) * scale + centerY).

(** *** helm.js: keyboard and pointer commands *)

(** The station's [scale]. *)
Definition helmScale : Q := 0.8.

Definition calculateHeadingFromVector (dx dy : Q) : Q :=
  let heading := Math_atan2 dy dx * 180 / Math_PI in
  if Qltb heading 0 then heading + 360 else heading.

Definition calculateHeadingFromPoint (x0 y0 centerX centerY : Q) : Q :=
  calculateHeadingFromVector (x0 - centerX) (y0 - centerY).

(** [handleCompassPointer(event)], given the centre of the compass
    rectangle. *)
Definition handleCompassPointer (clientX clientY centerX centerY : Q)
    (st : GameState) : GameState :=
  setHeading (calculateHeadingFromPoint clientX clientY centerX centerY) st.

(** [handleMapSteer(event)], given the pointer position relative to the
    canvas. *)
Definition handleMapSteer (r : Renderer) (screenX screenY : Q) (st : GameState)
    : GameState :=
  let ship := heap st (playerShip st) in
  let worldPos := screenToWorld r screenX screenY (x ship) (y ship) helmScale in
  let dx := px worldPos - x ship in
  let dy := py worldPos - y ship in
  if Qltb (Math_abs dx + Math_abs dy) 0.001 then st
  else setHeading (calculateHeadingFromVector dx dy) st.

(** The [keydown] listener; [inputFocused] says whether the active element
    is an input field. *)
Definition keydown (inputFocused : bool) (key : string) (st : GameState) : GameState :=
  if inputFocused then st
  else
    let ship := heap st (playerShip st) in
    if String.eqb key "ArrowUp" || String.eqb key "w" then
      setThrottle (Math_min 100 (velocity ship / maxVelocity ship * 100 + 10)) st
    else if String.eqb key "ArrowDown" || String.eqb key "s" then
      setThrottle (Math_max 0 (velocity ship / maxVelocity ship * 100 - 10)) st
    else if String.eqb key "ArrowLeft" || String.eqb key "a" then turn (-5) st
    else if String.eqb key "ArrowRight" || String.eqb key "d" then turn 5 st
    else st.

















(** [autoNavigateToWaypoint()].  The bearing is stored as computed, without
    the [% 360] of [setHeading]: for a bearing just below zero the sum with
    360 can reach 360 itself once rounded, so the stored heading is known to
    lie in the closed range 0..360 only. *)
Definition autoNavigateToWaypoint (st : GameState) : GameState :=
  match waypoint st with
  | None => st
  | Some wp =>
      let ship := playerShip st in
      let dx := px wp - x (heap st ship) in
      let dy := py wp - y (heap st ship) in
      let heading := calculateHeadingFromVector dx dy in
      let st := modify ship (setHeadingField heading) st in
      let e := engines (subsystems (heap st ship)) in
      let engineEffectiveness := (hp e / 100) * (power e / 100) in
      let st :=
        modify ship (fun s => setVelocity (maxVelocity s * 0.75 * engineEffectiveness) s) st in
      addCommsMessage "NAVIGATION"
        ("Course set to waypoint. Heading " ++ showZ (Math_round heading) ++ "°, speed "
           ++ toFixed1 (velocity (heap st ship)) ++ " km/s")
        MsgInfo st
  end.


(** *** engineering.js: power presets *)

(** [presets[preset]]; a key outside the table yields no configuration to
    apply. *)
Definition presets (preset : string) : option (list (string * Q)) :=
  if String.eqb preset "balanced" then
    Some [("engines", 50); ("weapons", 50); ("shields", 50); ("sensors", 50)]
  else if String.eqb preset "combat" then
    Some [("engines", 30); ("weapons", 80); ("shields", 60); ("sensors", 30)]
  else if String.eqb preset "defensive" then
    Some [("engines", 20); ("weapons", 30); ("shields", 100); ("sensors", 50)]
  else if String.eqb preset "speed" then
    Some [("engines", 100); ("weapons", 30); ("shields", 40); ("sensors", 30)]
  else None.

Definition applyPreset (preset : string) (st : GameState) : GameState :=
  match presets preset with
  | Some config => fold_left (fun st '(system, value) => setPower system value st) config st
  | None => st
  end.

Definition getTotalPower (st : GameState) : Q :=
  let systems := subsystems (heap st (playerShip st)) in
  power (engines systems) + power (weapons systems)
  + power (shields systems) + power (sensors systems).

(** *** weapons.js: picking a target on the map *)

(** The station's [scale]. *)
Definition weaponsScale : Q := 1.5.

(** The [forEach] of [handleCanvasClick]: the closest ship found so far
    with the square of its distance, [None] while [closestDist] is still the
    click tolerance. *)
Definition closestTo (tolerance wx wy : Q) (st : GameState) : option (addr * Q) :=
  fold_left
    (fun best ship =>
       let dist := hypotSq (x (heap st ship) - wx) (y (heap st ship) - wy) in
       match best with
       | None => if distLt dist tolerance then Some (ship, dist) else None
       | Some (_, closestDist) => if Qltb dist closestDist then Some (ship, dist) else best
       end)
    (ships st) None.

Definition weaponsHandleCanvasClick (r : Renderer) (screenX screenY : Q)
    (ws : WeaponsStation) (st : GameState) : WeaponsStation * GameState :=
  let p := heap st (playerShip st) in
  let worldPos := screenToWorld r screenX screenY (x p) (y p) weaponsScale in
  match closestTo (40 * weaponsScale) (px worldPos) (py worldPos) st with
  | Some (closestShip, _) =>
      (weaponsPlay playTargetLock ws, setTarget (Some (id (heap st closestShip))) st)
  | None => (ws, st)
  end.

(** What [setPower] leaves in the player object. *)
Definition poweredShip (systemName : string) (p : Q) (s : Ship) : Ship :=
  match getSubsystem systemName (subsystems s) with
  | Some system =>
      setSubsystems
        (putSubsystem systemName (setSubPower (clampPower p) system) (subsystems s)) s
  | None => s
  end.

(** The closest ship among the first ships of the list, as the loop of
    [handleCanvasClick] knows it. *)
Definition closestAmong (tolerance wx wy : Q) (st : GameState) (l : list addr)
    (best : option (addr * Q)) : Prop :=
  let dsq := fun a => hypotSq (x (heap st a) - wx) (y (heap st a) - wy) in
  match best with
  | None => forall b, b ∈ l -> distLt (dsq b) tolerance = false
  | Some (a, d) =>
      d = dsq a /\ distLt d tolerance = true /\
      (forall b, b ∈ l -> d <= dsq b) /\
      exists i, l !! i = Some a /\
                forall j b, (j < i)%nat -> l !! j = Some b -> d < dsq b
  end.

(** *** state.js: hailing

    [hailShip(shipId)] up to the point where it arms the timer, and the
    timer's callback [hailResponse], which closes over the ship object. *)
Definition hailShip (shipId : option string) (st : GameState) : option addr * GameState :=
  match getShip shipId st with
  | None => (None, st)
  | Some ship =>
      (Some ship,
       addCommsMessage "COMMS" ("Hailing " ++ name (heap st ship) ++ "...") MsgHail st)
  end.

(** [responses[ship.faction]]. *)
Definition responses (shipName : string) (f : Faction) : list string :=
  match f with
  | Friendly =>
      [(shipName ++ " here. Good to see you, Endeavour!")%string;
       "Greetings, Endeavour. How can we assist?";
       (shipName ++ " acknowledging. Standing by.")%string]
  | Neutral =>
      [("This is " ++ shipName ++ ". State your business.")%string;
       (shipName ++ " responding. We're on a trade route.")%string;
       "Acknowledged, Endeavour. Safe travels."]
  | Hostile =>
      [(shipName ++ " to Federation vessel: Leave this sector!")%string;
       "You dare hail us? Prepare to be destroyed!";
       "No response... jamming frequencies detected."]
  end.

(** An index outside [options] would give the message [undefined]. *)
Definition hailResponse (ship : addr) (st : GameState) : GameState :=
  let options := responses (name (heap st ship)) (faction (heap st ship)) in
  let '(r, st) := Math_random st in
  let response :=
    default "undefined"
      (options !! Z.to_nat (Math_floor (r * inject_Z (Z.of_nat (length options))))) in
  addCommsMessage (toUpperCase (name (heap st ship))) response MsgHail st.

(** *** tactical.js: scanning *)
Record TacticalStation := mkTacticalStation {
  tacticalScale : Q;
  radarAngle : Q;
  scanRadius : Q;
  scanning : bool;
  selectedShip : option addr;
  tacticalAudio : list AudioCall
}.

Definition setScanned (v : bool) (s : Ship) : Ship :=
  mkShip (id s) (name s) (type s) (faction s) (x s) (y s) (heading s) (velocity s)
    (maxVelocity s) (turnRate s) (subsystems s) (hull s) (maxHull s)
    (shieldStrength s) (maxShieldStrength s) (aiState s) (patrolPoints s)
    (patrolIndex s) (target s) (size s) v.

(** [performScan()]: the station, and whether an interval timer was
    started.  The cue [playScan] belongs to the audio layer and is not
    logged. *)
Definition performScan (ts : TacticalStation) : TacticalStation * bool :=
  match selectedShip ts with
  | None => (ts, false)
  | Some _ =>
      if scanning ts then (ts, false)
      else
        (mkTacticalStation (tacticalScale ts) (radarAngle ts) 0 true (selectedShip ts)
           (tacticalAudio ts), true)
  end.

(** The callback of the interval timer: station, world, and whether the
    timer keeps running.  [this.selectedShip.scanned = true] raises when no
    ship is selected any more. *)
Definition scanTick (ts : TacticalStation) (st : GameState)
    : Outcome (TacticalStation * GameState * bool) :=
  let radius := scanRadius ts + 50 in
  if Qltb 500 radius then
    match selectedShip ts with
    | None => TypeError
    | Some ship =>
        let ts := mkTacticalStation (tacticalScale ts) (radarAngle ts) 0 false
                    (selectedShip ts) (tacticalAudio ts) in
        let st := modify ship (setScanned true) st in
        Done (ts,
              addCommsMessage "SENSORS" ("Scan complete: " ++ name (heap st ship)) MsgInfo st,
              false)
    end
  else
    Done (mkTacticalStation (tacticalScale ts) (radarAngle ts) radius (scanning ts)
            (selectedShip ts) (tacticalAudio ts), st, true).

(** [n] firings of the timer, as long as it keeps running. *)
Fixpoint scanTicks (n : nat) (ts : TacticalStation) (st : GameState)
    : Outcome (TacticalStation * GameState * bool) :=
  match n with
  | O => Done (ts, st, true)
  | S k =>
      bindO (scanTicks k ts st) (fun '(ts, st, running) =>
        if running then scanTick ts st else Done (ts, st, false))
  end.

(** * Properties *)

(** ** Comparisons *)

Lemma Qltb_lt (a b : Q) : Qltb a b = true <-> a < b.
Proof.
  unfold Qltb. rewrite Qlt_alt. destruct (a ?= b); split; congruence.
Qed.

Lemma Qltb_ge (a b : Q) : Qltb a b = false <-> b <= a.
Proof.
  rewrite <- not_true_iff_false, Qltb_lt. split.
  - apply Qnot_lt_le.
  - apply Qle_not_lt.
Qed.

Lemma Qleb_le (a b : Q) : Qleb a b = true <-> a <= b.
Proof.
  unfold Qleb. rewrite Qle_alt. destruct (a ?= b); split; congruence.
Qed.

Lemma Qleb_gt (a b : Q) : Qleb a b = false <-> b < a.
Proof.
  rewrite <- not_true_iff_false, Qleb_le. split.
  - apply Qnot_le_lt.
  - apply Qlt_not_le.
Qed.

(** Case analysis on every comparison in sight, leaving the facts for
    [lra]. *)
Ltac qcases :=
  repeat match goal with
    | |- context [Qltb ?a ?b] =>
        let E := fresh "E" in
        destruct (Qltb a b) eqn:E;
        [apply Qltb_lt in E | apply Qltb_ge in E]
    | |- context [Qleb ?a ?b] =>
        let E := fresh "E" in
        destruct (Qleb a b) eqn:E;
        [apply Qleb_le in E | apply Qleb_gt in E]
    end.

Lemma Math_min_le_l (a b : Q) : Math_min a b <= a.
Proof. unfold Math_min. qcases; lra. Qed.

Lemma Math_max_ge_l (a b : Q) : a <= Math_max a b.
Proof. unfold Math_max. qcases; lra. Qed.

(** ** Frame facts: what the bookkeeping operations leave alone *)

Lemma heap_addCommsMessage (from text : string) (ty : MsgType) (st : GameState) :
  heap (addCommsMessage from text ty st) = heap st.
Proof. unfold addCommsMessage. cbn. case_match; reflexivity. Qed.

Lemma ships_addCommsMessage (from text : string) (ty : MsgType) (st : GameState) :
  ships (addCommsMessage from text ty st) = ships st.
Proof. unfold addCommsMessage. cbn. case_match; reflexivity. Qed.

Lemma playerShip_addCommsMessage (from text : string) (ty : MsgType) (st : GameState) :
  playerShip (addCommsMessage from text ty st) = playerShip st.
Proof. unfold addCommsMessage. cbn. case_match; reflexivity. Qed.

Lemma heap_removeShip (shipId : option string) (st : GameState) :
  heap (removeShip shipId st) = heap st.
Proof.
  unfold removeShip. destruct (findShipIndex shipId st) as [[i a]|]; [|reflexivity].
  cbn. case_decide; reflexivity.
Qed.

Lemma playerShip_removeShip (shipId : option string) (st : GameState) :
  playerShip (removeShip shipId st) = playerShip st.
Proof.
  unfold removeShip. destruct (findShipIndex shipId st) as [[i a]|]; [|reflexivity].
  cbn. case_decide; reflexivity.
Qed.

Lemma id_damageSubsystem (systemName : string) (amount : Q) (s : Ship) :
  id (damageSubsystem systemName amount s) = id s.
Proof. unfold damageSubsystem. case_match; reflexivity. Qed.

Lemma hull_damageSubsystem (systemName : string) (amount : Q) (s : Ship) :
  hull (damageSubsystem systemName amount s) = hull s.
Proof. unfold damageSubsystem. case_match; reflexivity. Qed.

Lemma shieldStrength_damageSubsystem (systemName : string) (amount : Q) (s : Ship) :
  shieldStrength (damageSubsystem systemName amount s) = shieldStrength s.
Proof. unfold damageSubsystem. case_match; reflexivity. Qed.

Lemma hull_subsystemHit (n : nat) (d : Q) (s : Ship) :
  hull (subsystemHit n d s) = hull s.
Proof.
  unfold subsystemHit. repeat case_match; auto using hull_damageSubsystem.
Qed.

Lemma shieldStrength_subsystemHit (n : nat) (d : Q) (s : Ship) :
  shieldStrength (subsystemHit n d s) = shieldStrength s.
Proof.
  unfold subsystemHit. repeat case_match; auto using shieldStrength_damageSubsystem.
Qed.

Lemma id_subsystemHit (n : nat) (d : Q) (s : Ship) :
  id (subsystemHit n d s) = id s.
Proof.
  unfold subsystemHit. repeat case_match; auto using id_damageSubsystem.
Qed.

Lemma id_damagedShip (n : nat) (damage : Q) (s : Ship) :
  id (damagedShip n damage s) = id s.
Proof.
  unfold damagedShip. case_match; cbn; rewrite id_subsystemHit; reflexivity.
Qed.

Lemma heap_modify (a : addr) (f : Ship -> Ship) (st : GameState) (b : addr) :
  heap (modify a f st) b = if Nat.eqb b a then f (heap st b) else heap st b.
Proof. reflexivity. Qed.

Lemma heap_modify_eq (a : addr) (f : Ship -> Ship) (st : GameState) :
  heap (modify a f st) a = f (heap st a).
Proof. rewrite heap_modify, Nat.eqb_refl. reflexivity. Qed.

Lemma heap_emit (e : Event) (st : GameState) : heap (emit e st) = heap st.
Proof. reflexivity. Qed.

Lemma heap_play (s : Sound) (st : GameState) : heap (play s st) = heap st.
Proof. reflexivity. Qed.

Lemma heap_withRandomCalls (n : nat) (st : GameState) : heap (withRandomCalls n st) = heap st.
Proof. reflexivity. Qed.

Lemma heap_randomSubsystemDamage (ship : addr) (hullDamage : Q) (st : GameState) (b : addr) :
  heap (randomSubsystemDamage ship hullDamage st) b =
  if Nat.eqb b ship then subsystemHit (randomCalls st) hullDamage (heap st ship) else heap st b.
Proof.
  unfold randomSubsystemDamage, subsystemHit, Math_random.
  cbn [randomCalls withRandomCalls].
  destruct (Qltb 5 hullDamage); [|by destruct (Nat.eqb_spec b ship) as [->|]].
  destruct (Qltb _ 0.3); [|by destruct (Nat.eqb_spec b ship) as [->|]].
  case_match; rewrite ?heap_addCommsMessage, heap_modify;
    by destruct (Nat.eqb_spec b ship) as [->|].
Qed.

Lemma heap_checkDestruction (ship : addr) (st : GameState) (b : addr) :
  heap (checkDestruction ship st) b =
  if Nat.eqb b ship
  then (if Qleb (hull (heap st ship)) 0 then setHull 0 (heap st ship) else heap st ship)
  else heap st b.
Proof.
  unfold checkDestruction.
  destruct (Qleb _ 0); [|by destruct (Nat.eqb_spec b ship) as [->|]].
  case_match; rewrite heap_addCommsMessage, ?heap_removeShip, ?heap_emit, heap_modify;
    by destruct (Nat.eqb_spec b ship) as [->|].
Qed.

(** The object store after [damageShip]: only the damaged object differs,
    and it holds [damagedShip]. *)
Lemma damageShip_heap (ship : addr) (damage : Q) (st : GameState) (b : addr) :
  heap (damageShip ship damage st) b =
  if Nat.eqb b ship then damagedShip (randomCalls st) damage (heap st ship) else heap st b.
Proof.
  unfold damageShip, absorbDamage.
  rewrite heap_checkDestruction, heap_emit, !heap_randomSubsystemDamage.
  rewrite !heap_modify, !Nat.eqb_refl.
  destruct (Nat.eqb_spec b ship) as [->|]; reflexivity.
Qed.

(** C1.  [damageShip] never drives hull or shieldStrength below 0: for every
    world, every ship object and every raw damage value, the object's
    [hull] and [shieldStrength] are both at least 0 after the call. *)
Theorem damageShip_never_negative (st : GameState) (ship : addr) (damage : Q) :
  0 <= hull (heap (damageShip ship damage st) ship) /\
  0 <= shieldStrength (heap (damageShip ship damage st) ship).
Proof.
  rewrite damageShip_heap, Nat.eqb_refl.
  unfold damagedShip.
  set (absorb := shieldAbsorbOf damage (heap st ship)).
  assert (Habs : absorb <= shieldStrength (heap st ship)) by apply Math_min_le_l.
  destruct (Qleb _ 0) eqn:E.
  - cbn [hull shieldStrength setHull]. rewrite shieldStrength_subsystemHit.
    cbn. split; lra.
  - apply Qleb_gt in E. rewrite shieldStrength_subsystemHit. cbn.
    split; lra.
Qed.

(** ** Destruction *)

Lemma events_addCommsMessage (from text : string) (ty : MsgType) (st : GameState) :
  events (addCommsMessage from text ty st) =
  CommsMessage (mkCommsMsg (uuidStream (uuidCalls st)) from text ty (gameTime st) false)
    :: events st.
Proof. unfold addCommsMessage. cbn. case_match; reflexivity. Qed.

Lemma ships_modify (a : addr) (f : Ship -> Ship) (st : GameState) :
  ships (modify a f st) = ships st.
Proof. reflexivity. Qed.

Lemma ships_randomSubsystemDamage (ship : addr) (hullDamage : Q) (st : GameState) :
  ships (randomSubsystemDamage ship hullDamage st) = ships st.
Proof.
  unfold randomSubsystemDamage, Math_random.
  repeat case_match; rewrite ?ships_addCommsMessage; reflexivity.
Qed.

Lemma playerShip_randomSubsystemDamage (ship : addr) (hullDamage : Q) (st : GameState) :
  playerShip (randomSubsystemDamage ship hullDamage st) = playerShip st.
Proof.
  unfold randomSubsystemDamage, Math_random.
  repeat case_match; rewrite ?playerShip_addCommsMessage; reflexivity.
Qed.

(** The random block emits nothing but comms messages. *)
Lemma events_randomSubsystemDamage (ship : addr) (hullDamage : Q) (st : GameState) :
  exists l, events (randomSubsystemDamage ship hullDamage st) = l ++ events st /\
            List.filter isDestruction l = [] /\ List.filter isShipDamaged l = [].
Proof.
  unfold randomSubsystemDamage, Math_random.
  repeat case_match; rewrite ?events_addCommsMessage;
    first [ by exists [] | by eexists [_] ].
Qed.

(** Ids are never reassigned. *)
Lemma id_damageShip (ship : addr) (damage : Q) (st : GameState) (b : addr) :
  id (heap (damageShip ship damage st) b) = id (heap st b).
Proof.
  rewrite damageShip_heap. destruct (Nat.eqb_spec b ship) as [->|]; [|reflexivity].
  apply id_damagedShip.
Qed.

Lemma findShipIndex_unique (st : GameState) (i : nat) (a : addr) :
  NoDup (shipIds st) -> ships st !! i = Some a ->
  findShipIndex (Some (id (heap st a))) st = Some (i, a).
Proof.
  intros Hnd Hi. unfold findShipIndex. apply list_find_Some.
  split_and!; [done..|].
  intros j b Hj Hlt [= Heq].
  assert (i = j); [|lia].
  eapply NoDup_lookup; [exact Hnd|..]; unfold shipIds; rewrite list_lookup_fmap.
  - rewrite Hi. reflexivity.
  - rewrite Hj. cbn. by rewrite Heq.
Qed.

Lemma findShipIndex_ext (st st' : GameState) (shipId : option string) :
  ships st' = ships st -> (forall b, id (heap st' b) = id (heap st b)) ->
  findShipIndex shipId st' = findShipIndex shipId st.
Proof.
  intros Hs Hid. unfold findShipIndex. rewrite Hs.
  apply list_find_ext. intros b. by rewrite Hid.
Qed.

Lemma delete_unique_ids {A B : Type} (f : A -> B) (l : list A) (i : nat) (a b : A) :
  NoDup (f <$> l) -> l !! i = Some a -> b ∈ delete i l -> f b ≠ f a.
Proof.
  intros Hnd Hi [j Hj]%list_elem_of_lookup_1 Heq.
  rewrite list_lookup_delete in Hj.
  assert (exists k, k ≠ i /\ l !! k = Some b) as (k & Hk & Hlk).
  { case_decide; [exists j | exists (S j)]; split; auto; lia. }
  apply Hk. eapply NoDup_lookup; [exact Hnd|..]; rewrite list_lookup_fmap.
  - rewrite Hlk. reflexivity.
  - rewrite Hi. cbn. by rewrite Heq.
Qed.

Lemma checkDestruction_alive (ship : addr) (st : GameState) :
  0 < hull (heap st ship) -> checkDestruction ship st = st.
Proof.
  intros H. unfold checkDestruction.
  destruct (Qleb _ 0) eqn:E; [|reflexivity].
  apply Qleb_le in E. lra.
Qed.

Lemma checkDestruction_npc (ship : addr) (st : GameState) (i : nat) :
  NoDup (shipIds st) -> ships st !! i = Some ship -> id (heap st ship) ≠ "player" ->
  hull (heap st ship) <= 0 ->
  ships (checkDestruction ship st) = delete i (ships st) /\
  exists m, events (checkDestruction ship st) = CommsMessage m :: ShipDestroyed ship :: events st.
Proof.
  intros Hnd Hi Hid Hh. unfold checkDestruction.
  apply Qleb_le in Hh. rewrite Hh.
  rewrite heap_modify_eq. cbn [id setHull].
  apply String.eqb_neq in Hid. rewrite Hid. cbn [negb]. cbv zeta.
  set (st1 := modify ship (setHull 0) st).
  assert (Hfind : findShipIndex (Some (id (heap st ship))) st1 = Some (i, ship)).
  { rewrite (findShipIndex_ext st st1); [by apply findShipIndex_unique|done|].
    intros b. unfold st1. rewrite heap_modify. by destruct (Nat.eqb b ship). }
  rewrite ships_addCommsMessage, events_addCommsMessage.
  unfold removeShip. rewrite Hfind.
  cbn. case_decide; cbn; eauto.
Qed.

Lemma checkDestruction_player (ship : addr) (st : GameState) :
  id (heap st ship) = "player" -> hull (heap st ship) <= 0 ->
  ships (checkDestruction ship st) = ships st /\
  exists m, events (checkDestruction ship st) = CommsMessage m :: PlayerDestroyed ship :: events st.
Proof.
  intros Hid Hh. unfold checkDestruction.
  apply Qleb_le in Hh. rewrite Hh.
  rewrite heap_modify_eq. cbn [id setHull]. rewrite Hid, String.eqb_refl.
  cbn [negb]. cbv zeta.
  rewrite ships_addCommsMessage, events_addCommsMessage. eauto.
Qed.

Lemma playerShip_checkDestruction (ship : addr) (st : GameState) :
  playerShip (checkDestruction ship st) = playerShip st.
Proof.
  unfold checkDestruction.
  repeat case_match;
    rewrite ?playerShip_addCommsMessage, ?playerShip_removeShip; reflexivity.
Qed.

Lemma playerShip_damageShip (ship : addr) (damage : Q) (st : GameState) :
  playerShip (damageShip ship damage st) = playerShip st.
Proof.
  unfold damageShip, absorbDamage.
  rewrite playerShip_checkDestruction. cbn [playerShip emit withEvents].
  by rewrite playerShip_randomSubsystemDamage.
Qed.

Lemma hull_damagedShip (n : nat) (damage : Q) (s : Ship) :
  hull (damagedShip n damage s) =
  if Qleb (hullAfterHit damage s) 0 then 0 else hullAfterHit damage s.
Proof.
  unfold damagedShip. rewrite hull_subsystemHit. cbn [hull setHull].
  fold (hullAfterHit damage s).
  destruct (Qleb _ 0); [reflexivity|]. by rewrite hull_subsystemHit.
Qed.

Lemma subsystems_subsystemHit (n : nat) (d : Q) (s t : Ship) :
  subsystems t = subsystems s ->
  subsystems (subsystemHit n d t) = subsystems (subsystemHit n d s).
Proof.
  intros H. unfold subsystemHit.
  destruct (Qltb 5 d); [|done]. destruct (Qltb _ 0.3); [|done].
  unfold damageSubsystem. rewrite H.
  destruct (getSubsystem _ (subsystems s)); [|done].
  by cbn [subsystems setSubsystems].
Qed.

Lemma damagedShip_fields (n : nat) (damage : Q) (s : Ship) :
  shieldStrength (damagedShip n damage s) = shieldStrength s - shieldAbsorbOf damage s /\
  subsystems (damagedShip n damage s) =
    subsystems (subsystemHit n (damage - shieldAbsorbOf damage s) s).
Proof.
  unfold damagedShip. cbv zeta.
  set (hd := damage - shieldAbsorbOf damage s).
  split.
  - destruct (Qleb _ 0); cbn [shieldStrength setHull];
      by rewrite shieldStrength_subsystemHit.
  - destruct (Qleb _ 0); cbn [subsystems setHull];
      by apply subsystems_subsystemHit.
Qed.

Lemma damageShip_split (ship : addr) (damage : Q) (st : GameState) :
  damageShip ship damage st = checkDestruction ship (damageShipBody ship damage st).
Proof. reflexivity. Qed.

Lemma damageShipBody_facts (ship : addr) (damage : Q) (st : GameState) :
  let st' := damageShipBody ship damage st in
  ships st' = ships st /\
  playerShip st' = playerShip st /\
  (forall b, id (heap st' b) = id (heap st b)) /\
  hull (heap st' ship) = hullAfterHit damage (heap st ship) /\
  exists l, events st' = ShipDamaged ship damage :: l ++ events st /\
            List.filter isDestruction l = [] /\ List.filter isShipDamaged l = [].
Proof.
  unfold damageShipBody, absorbDamage. cbn zeta.
  cbn [ships playerShip emit withEvents events heap].
  rewrite ships_randomSubsystemDamage, playerShip_randomSubsystemDamage.
  split_and!; try reflexivity.
  - intros b. rewrite heap_randomSubsystemDamage.
    destruct (Nat.eqb_spec b ship) as [->|].
    + rewrite id_subsystemHit, !heap_modify_eq. reflexivity.
    + rewrite !heap_modify. apply Nat.eqb_neq in n. by rewrite n.
  - rewrite heap_randomSubsystemDamage, Nat.eqb_refl, hull_subsystemHit.
    rewrite !heap_modify_eq. reflexivity.
  - destruct (events_randomSubsystemDamage ship
                (damage - Math_min (shieldStrength (heap st ship))
                            (damage * (power (shields (subsystems (heap st ship))) / 100) * 0.8))
                (modify ship
                   (fun s => setHull (hull s - (damage - Math_min (shieldStrength (heap st ship))
                            (damage * (power (shields (subsystems (heap st ship))) / 100) * 0.8))) s)
                   (modify ship
                      (fun s => setShieldStrength (shieldStrength s - Math_min (shieldStrength (heap st ship))
                            (damage * (power (shields (subsystems (heap st ship))) / 100) * 0.8)) s) st)))
      as (l & Hl & Hd & Hs).
    exists l. rewrite Hl. done.
Qed.

Lemma hull_zero_after_hit (st : GameState) (ship : addr) (damage : Q) :
  hull (heap (damageShip ship damage st) ship) == 0 ->
  hullAfterHit damage (heap st ship) <= 0.
Proof.
  rewrite damageShip_heap, Nat.eqb_refl, hull_damagedShip.
  destruct (Qleb _ 0) eqn:E.
  - intros _. by apply Qleb_le.
  - apply Qleb_gt in E. intros H. lra.
Qed.

(** C2.  When the hull of the damaged ship reaches 0 in [damageShip]: a
    listed (NPC) ship is spliced out of the ship list within the call, can no
    longer be looked up, and the call emits exactly one destruction event, the
    [shipDestroyed] of that ship; for the player ship the call emits exactly
    one destruction event, [playerDestroyed], the ship list is untouched and
    [getShip('player')] still returns the player object. *)
Theorem damageShip_destruction (st : GameState) (ship : addr) (damage : Q) :
  wellFormed st ->
  hull (heap (damageShip ship damage st) ship) == 0 ->
  (forall i, ships st !! i = Some ship ->
     ships (damageShip ship damage st) = delete i (ships st) /\
     (ship ∉ ships (damageShip ship damage st)) /\
     getShip (Some (id (heap st ship))) (damageShip ship damage st) = None /\
     exists l, events (damageShip ship damage st) = l ++ events st /\
               List.filter isDestruction l = [ShipDestroyed ship]) /\
  (ship = playerShip st ->
     ships (damageShip ship damage st) = ships st /\
     playerShip (damageShip ship damage st) = ship /\
     getShip (Some "player") (damageShip ship damage st) = Some ship /\
     exists l, events (damageShip ship damage st) = l ++ events st /\
               List.filter isDestruction l = [PlayerDestroyed ship]).
Proof.
  intros (Hpid & Hnp & Hnd) Hzero%hull_zero_after_hit.
  destruct (damageShipBody_facts ship damage st)
    as (Hships & Hplayer & Hids & Hhull & l & Hev & Hl & _).
  set (st1 := damageShipBody ship damage st) in *.
  assert (Hnd1 : NoDup (shipIds st1)).
  { unfold shipIds. rewrite Hships.
    erewrite list_fmap_ext; [exact Hnd|]. intros ? b _. apply Hids. }
  rewrite <- Hhull in Hzero.
  assert (Hids' : forall b, id (heap (checkDestruction ship st1) b) = id (heap st b)).
  { intros b. unfold st1. rewrite <- damageShip_split. apply id_damageShip. }
  split.
  - intros i Hi.
    assert (Hidship : id (heap st ship) ≠ "player").
    { intros Heq. apply Hnp. unfold shipIds. rewrite <- Heq.
      apply (list_elem_of_fmap_2 (fun a => id (heap st a))).
      by eapply list_elem_of_lookup_2. }
    destruct (checkDestruction_npc ship st1 i) as (Hs & m & He);
      [done|by rewrite Hships|by rewrite Hids|done|].
    rewrite damageShip_split. fold st1. rewrite Hs, He, Hev, Hships.
    assert (Hout : forall b, b ∈ delete i (ships st) -> id (heap st b) ≠ id (heap st ship)).
    { intros b Hb. by eapply (delete_unique_ids (fun a => id (heap st a))). }
    split_and!.
    + reflexivity.
    + intros Hin. by apply (Hout ship Hin).
    + unfold getShip. rewrite decide_False by congruence.
      assert (findShipIndex (Some (id (heap st ship)))
                (checkDestruction ship st1) = None) as ->; [|done].
      apply list_find_None. rewrite Hs, Hships.
      apply Forall_forall. intros b Hb [= Heq].
      apply (Hout b Hb). rewrite <- Heq. symmetry. apply Hids'.
    + exists (CommsMessage m :: ShipDestroyed ship :: ShipDamaged ship damage :: l).
      split; [reflexivity|]. cbn. by rewrite Hl.
  - intros ->.
    destruct (checkDestruction_player (playerShip st) st1) as (Hs & m & He);
      [by rewrite Hids|done|].
    rewrite damageShip_split. fold st1. rewrite Hs, He, Hev, Hships.
    rewrite playerShip_checkDestruction, Hplayer.
    split_and!; try reflexivity.
    + unfold getShip. rewrite decide_True by done.
      by rewrite playerShip_checkDestruction, Hplayer.
    + exists (CommsMessage m :: PlayerDestroyed (playerShip st)
                :: ShipDamaged (playerShip st) damage :: l).
      split; [reflexivity|]. cbn. by rewrite Hl.
Qed.

(** When the hull stays above 0 nothing is destroyed: the ship list is
    untouched and no destruction event is emitted. *)
Lemma damageShip_survival (st : GameState) (ship : addr) (damage : Q) :
  0 < hull (heap (damageShip ship damage st) ship) ->
  ships (damageShip ship damage st) = ships st /\
  exists l, events (damageShip ship damage st) = l ++ events st /\
            List.filter isDestruction l = [].
Proof.
  rewrite damageShip_heap, Nat.eqb_refl, hull_damagedShip.
  destruct (damageShipBody_facts ship damage st)
    as (Hships & Hplayer & Hids & Hhull & l & Hev & Hl & _).
  destruct (Qleb _ 0) eqn:E; [intros H; lra|]. intros H.
  rewrite damageShip_split, checkDestruction_alive by (by rewrite Hhull).
  split; [done|].
  exists (ShipDamaged ship damage :: l). split; [done|]. cbn. by rewrite Hl.
Qed.

(** ** Fields [damageShip] does not touch *)

Lemma untouched_refl (st : GameState) : untouched st st.
Proof. by repeat split. Qed.

Lemma untouched_trans (st1 st2 st3 : GameState) :
  untouched st1 st2 -> untouched st2 st3 -> untouched st1 st3.
Proof.
  unfold untouched. intros (?&?&?&?&?) (?&?&?&?&?). split_and!; congruence.
Qed.

Lemma untouched_addCommsMessage (from text : string) (ty : MsgType) (st : GameState) :
  untouched st (addCommsMessage from text ty st).
Proof. unfold addCommsMessage, untouched. cbn. by case_match. Qed.

Lemma untouched_removeShip (shipId : option string) (st : GameState) :
  untouched st (removeShip shipId st).
Proof.
  unfold removeShip. destruct (findShipIndex shipId st) as [[i a]|];
    [|apply untouched_refl].
  unfold untouched. cbn. by case_decide.
Qed.

Lemma untouched_randomSubsystemDamage (ship : addr) (hullDamage : Q) (st : GameState) :
  untouched st (randomSubsystemDamage ship hullDamage st).
Proof.
  unfold randomSubsystemDamage, Math_random.
  destruct (Qltb 5 hullDamage); [|apply untouched_refl].
  destruct (Qltb _ 0.3); [|by repeat split].
  case_match; [|by repeat split].
  eapply untouched_trans; [|apply untouched_addCommsMessage]. by repeat split.
Qed.

Lemma untouched_checkDestruction (ship : addr) (st : GameState) :
  untouched st (checkDestruction ship st).
Proof.
  unfold checkDestruction.
  destruct (Qleb _ 0); [|apply untouched_refl].
  case_match; cbv zeta.
  - eapply untouched_trans; [|apply untouched_addCommsMessage].
    eapply untouched_trans; [|apply untouched_removeShip]. by repeat split.
  - eapply untouched_trans; [|apply untouched_addCommsMessage]. by repeat split.
Qed.

Lemma untouched_damageShip (ship : addr) (damage : Q) (st : GameState) :
  untouched st (damageShip ship damage st).
Proof.
  unfold damageShip, absorbDamage.
  eapply untouched_trans; [|apply untouched_checkDestruction].
  eapply untouched_trans; [|by repeat split].
  eapply untouched_trans; [|apply untouched_randomSubsystemDamage].
  by repeat split.
Qed.

Lemma events_checkDestruction (ship : addr) (st : GameState) :
  exists l, events (checkDestruction ship st) = l ++ events st /\
            List.filter isShipDamaged l = [].
Proof.
  unfold checkDestruction.
  destruct (Qleb _ 0); [|by exists []].
  case_match; cbv zeta; rewrite events_addCommsMessage.
  - unfold removeShip. destruct (findShipIndex _ _) as [[i a]|].
    + cbv zeta. case_decide; by eexists [_; _].
    + by eexists [_].
  - by eexists [_; _].
Qed.

(** One call of [damageShip] emits exactly one [shipDamaged], for the ship
    it was handed. *)
Lemma events_damageShip (ship : addr) (damage : Q) (st : GameState) :
  exists l, events (damageShip ship damage st) = l ++ events st /\
            List.filter isShipDamaged l = [ShipDamaged ship damage].
Proof.
  rewrite damageShip_split.
  destruct (damageShipBody_facts ship damage st) as (_ & _ & _ & _ & l & Hev & _ & Hl).
  destruct (events_checkDestruction ship (damageShipBody ship damage st)) as (l' & Hev' & Hl').
  exists (l' ++ ShipDamaged ship damage :: l). split.
  - rewrite Hev', Hev. by rewrite <- app_assoc.
  - rewrite List.filter_app, Hl'. cbn. by rewrite Hl.
Qed.

(** ** Projectiles *)

Lemma find_first {A : Type} (p : A -> bool) (l : list A) (a : A) :
  find p l = Some a ->
  exists l1 l2, l = l1 ++ a :: l2 /\ Forall (fun b => p b = false) l1 /\ p a = true.
Proof.
  induction l as [|b l IH]; [done|]. cbn.
  destruct (p b) eqn:Hb.
  - intros [= ->]. by exists [], l.
  - intros (l1 & l2 & -> & Hl1 & Ha)%IH.
    exists (b :: l1), l2. split_and!; [done| |done]. by constructor.
Qed.

Lemma find_first_inv {A : Type} (p : A -> bool) (l1 l2 : list A) (a : A) :
  Forall (fun b => p b = false) l1 -> p a = true -> find p (l1 ++ a :: l2) = Some a.
Proof.
  induction 1 as [|b l1 Hb _ IH]; cbn; intros Ha.
  - by rewrite Ha.
  - rewrite Hb. by apply IH.
Qed.

Lemma find_none_Forall {A : Type} (p : A -> bool) (l : list A) :
  find p l = None <-> Forall (fun b => p b = false) l.
Proof.
  induction l as [|b l IH]; cbn.
  - split; [constructor|done].
  - destruct (p b) eqn:Hb.
    + split; [done|]. intros H. inversion H; congruence.
    + rewrite IH. split; [by constructor|]. by inversion 1.
Qed.

(** The code's test and candidate list are the specification's. *)
Lemma collides_inReach (st : GameState) (proj : Projectile) (b : addr) :
  collides st proj b = true <-> inReach st proj b.
Proof.
  unfold collides, inReach, closerThan, distLt.
  by rewrite andb_true_iff, !Qltb_lt.
Qed.

Lemma collides_not_inReach (st : GameState) (proj : Projectile) (b : addr) :
  collides st proj b = false <-> ~ inReach st proj b.
Proof.
  rewrite <- collides_inReach. by destruct (collides st proj b).
Qed.

Lemma projectileTargets_opposingSet (st : GameState) (proj : Projectile) :
  projectileTargets st proj = opposingSet st proj.
Proof.
  unfold projectileTargets, opposingSet.
  destruct (String.eqb_spec (sourceId proj) "player"); by case_decide.
Qed.

Lemma collision_find (st : GameState) (proj : Projectile) (tgt : addr) :
  firstCollision st proj tgt <-> find (collides st proj) (projectileTargets st proj) = Some tgt.
Proof.
  rewrite projectileTargets_opposingSet. split.
  - intros (l1 & l2 & -> & H1 & H2). apply find_first_inv.
    + eapply Forall_impl; [exact H1|]. intros b. apply collides_not_inReach.
    + by apply collides_inReach.
  - intros H. apply find_first in H as (l1 & l2 & Hl & H1 & H2).
    exists l1, l2. split_and!; [done| |by apply collides_inReach].
    eapply Forall_impl; [exact H1|]. intros b. apply collides_not_inReach.
Qed.

Lemma noCollision_find (st : GameState) (proj : Projectile) :
  noCollision st proj <-> find (collides st proj) (projectileTargets st proj) = None.
Proof.
  rewrite find_none_Forall, projectileTargets_opposingSet. unfold noCollision.
  split; intros H; (eapply Forall_impl; [exact H|]); intros b; apply collides_not_inReach.
Qed.

(** Either some candidate is the first qualifying one, or none qualifies. *)
Lemma collision_cases (st : GameState) (proj : Projectile) :
  (exists tgt, firstCollision st proj tgt) \/ noCollision st proj.
Proof.
  destruct (find (collides st proj) (projectileTargets st proj)) as [tgt|] eqn:E.
  - left. exists tgt. by apply collision_find.
  - right. by apply noCollision_find.
Qed.

Lemma stepProjectile_hit (st : GameState) (i : nat) (proj0 : Projectile) (tgt : addr) :
  projectiles st !! i = Some proj0 ->
  firstCollision st (moveProjectile proj0) tgt ->
  projectiles (stepProjectile i st) = delete i (projectiles st) /\
  (exists l, events (stepProjectile i st) = l ++ events st /\
             List.filter isShipDamaged l =
               [ShipDamaged tgt (projDamage (moveProjectile proj0))]) /\
  (forall b, b ≠ tgt -> heap (stepProjectile i st) b = heap st b) /\
  heap (stepProjectile i st) tgt =
    damagedShip (randomCalls st) (projDamage (moveProjectile proj0)) (heap st tgt) /\
  sounds (stepProjectile i st) = PlayExplosion :: sounds st.
Proof.
  intros Hi Hc%collision_find. unfold stepProjectile. rewrite Hi. cbv zeta.
  change (find _ _) with
    (find (collides st (moveProjectile proj0)) (projectileTargets st (moveProjectile proj0))).
  rewrite Hc. cbn [orb].
  set (st0 := withProjectiles _ st).
  destruct (untouched_damageShip tgt (projDamage (moveProjectile proj0)) st0) as (Hp & _).
  destruct (events_damageShip tgt (projDamage (moveProjectile proj0)) st0) as (l & Hev & Hl).
  cbn [projectiles withProjectiles play withSounds events heap].
  rewrite Hp. split_and!.
  - unfold st0. cbn [projectiles withProjectiles].
    apply list_eq. intros j. rewrite !list_lookup_delete.
    case_decide; rewrite list_lookup_insert_ne; auto; lia.
  - exists l. by rewrite Hev.
  - intros b Hb. rewrite damageShip_heap.
    apply Nat.eqb_neq in Hb. by rewrite Hb.
  - by rewrite damageShip_heap, Nat.eqb_refl.
  - cbn [sounds withProjectiles play withSounds].
    by destruct (untouched_damageShip tgt (projDamage (moveProjectile proj0)) st0)
      as (_ & _ & -> & _).
Qed.

Lemma stepProjectile_miss (st : GameState) (i : nat) (proj0 : Projectile) :
  projectiles st !! i = Some proj0 ->
  noCollision st (moveProjectile proj0) ->
  stepProjectile i st =
  withProjectiles
    (if Z.leb (lifetime (moveProjectile proj0)) 0
     then delete i (projectiles st)
     else <[i := moveProjectile proj0]> (projectiles st)) st.
Proof.
  intros Hi Hc%noCollision_find. unfold stepProjectile. rewrite Hi. cbv zeta.
  change (find _ _) with
    (find (collides st (moveProjectile proj0)) (projectileTargets st (moveProjectile proj0))).
  rewrite Hc. cbn [orb].
  destruct (Z.leb _ 0); [|reflexivity].
  unfold withProjectiles. cbn. f_equal.
  apply list_eq. intros j. rewrite !list_lookup_delete.
  case_decide; rewrite list_lookup_insert_ne; auto; lia.
Qed.

(** What one iteration does to the list, whatever the case: the entry at
    [i] is dropped, or replaced by its moved copy, which is still alive; a
    [shipDamaged] is emitted at most once, and only when the entry is
    dropped. *)
Lemma stepProjectile_shape (st : GameState) (i : nat) (proj0 : Projectile) :
  projectiles st !! i = Some proj0 ->
  exists l keep,
    events (stepProjectile i st) = l ++ events st /\
    projectiles (stepProjectile i st) =
      take i (projectiles st) ++ keep ++ drop (S i) (projectiles st) /\
    ((keep = [] /\ damageCount l <= 1)%nat \/
     (keep = [moveProjectile proj0] /\ (0 < lifetime (moveProjectile proj0))%Z /\
      damageCount l = O)).
Proof.
  intros Hi.
  assert (Hlt : (i < length (projectiles st))%nat) by by eapply lookup_lt_Some.
  destruct (collision_cases st (moveProjectile proj0)) as [[tgt Hc]|Hc].
  - destruct (stepProjectile_hit st i proj0 tgt Hi Hc) as (Hp & (l & Hev & Hl) & _).
    exists l, []. rewrite Hev, Hp, delete_take_drop. split_and!; [done..|].
    left. unfold damageCount. rewrite Hl. cbn. split; [done|lia].
  - rewrite (stepProjectile_miss st i proj0 Hi Hc).
    cbn [events projectiles withProjectiles].
    destruct (Z.leb_spec (lifetime (moveProjectile proj0)) 0).
    + exists [], []. rewrite delete_take_drop. split_and!; [done..|].
      left. cbn. split; [done|lia].
    + exists [], [moveProjectile proj0]. rewrite insert_take_drop by done.
      split_and!; [done..|]. right. by cbn.
Qed.

(** The loop of [updateProjectiles] from index [k - 1] down to 0: the
    entries from [k] on are as before, each earlier entry is dropped or kept
    as its aged copy with lifetime above 0, and every [shipDamaged]
    emitted is paid for by a dropped entry. *)
Lemma projectileLoop_account (k : nat) (st : GameState) :
  (k <= length (projectiles st))%nat ->
  exists l kept,
    events (projectileLoop k st) = l ++ events st /\
    projectiles (projectileLoop k st) = kept ++ drop k (projectiles st) /\
    Forall (fun p => (0 < lifetime p)%Z /\
                     exists p0, p0 ∈ take k (projectiles st) /\ p = moveProjectile p0) kept /\
    (damageCount l + length kept <= k)%nat.
Proof.
  revert st. induction k as [|i IH]; intros st Hk.
  - exists [], []. cbn. split_and!; [done..|constructor|lia].
  - destruct (lookup_lt_is_Some_2 (projectiles st) i) as [proj0 Hi]; [lia|].
    destruct (stepProjectile_shape st i proj0 Hi) as (l1 & keep & Hev & Hp & Hkeep).
    cbn [projectileLoop].
    set (st1 := stepProjectile i st) in *.
    assert (Htake : length (take i (projectiles st)) = i)
      by (rewrite length_take; lia).
    destruct (IH st1) as (l2 & kept & Hev2 & Hp2 & Hall & Hcount).
    { rewrite Hp, length_app. lia. }
    rewrite Hp in Hp2, Hall.
    rewrite drop_app_length' in Hp2 by done.
    rewrite take_app_length' in Hall by done.
    exists (l2 ++ l1), (kept ++ keep).
    split_and!.
    + rewrite Hev2, Hev. by rewrite app_assoc.
    + rewrite Hp2. by rewrite app_assoc.
    + apply Forall_app. split.
      * eapply Forall_impl; [exact Hall|].
        intros p (Hlife & p0 & Hin & ->). split; [done|].
        exists p0. split; [|done].
        rewrite (take_S_r _ _ _ Hi). apply elem_of_app. by left.
      * destruct Hkeep as [[-> _]|(-> & Hlife & _)]; [constructor|].
        apply Forall_singleton. split; [done|].
        exists proj0. split; [|done].
        rewrite (take_S_r _ _ _ Hi). apply elem_of_app. right. by apply list_elem_of_singleton.
    + unfold damageCount in *. rewrite List.filter_app, !length_app.
      destruct Hkeep as [[-> ?]|(-> & _ & ?)]; cbn [length]; lia.
Qed.

Lemma updateProjectiles_account (st : GameState) :
  exists l,
    events (updateProjectiles st) = l ++ events st /\
    Forall (fun p => (0 < lifetime p)%Z /\
                     exists p0, p0 ∈ projectiles st /\ p = moveProjectile p0)
           (projectiles (updateProjectiles st)) /\
    (damageCount l + length (projectiles (updateProjectiles st))
       <= length (projectiles st))%nat.
Proof.
  unfold updateProjectiles.
  destruct (projectileLoop_account (length (projectiles st)) st)
    as (l & kept & Hev & Hp & Hall & Hcount); [done|].
  rewrite drop_all, app_nil_r in Hp. rewrite firstn_all in Hall.
  exists l. rewrite Hp. done.
Qed.

Lemma updateProjectiles_lifetime (st : GameState) (L : Z) :
  Forall (fun p => (lifetime p <= L)%Z) (projectiles st) ->
  Forall (fun p => (0 < lifetime p <= L - 1)%Z) (projectiles (updateProjectiles st)).
Proof.
  intros HL. destruct (updateProjectiles_account st) as (l & _ & Hall & _).
  eapply Forall_impl; [exact Hall|].
  intros p (Hpos & p0 & Hin & ->). split; [done|].
  rewrite Forall_forall in HL. specialize (HL p0 Hin). cbn. lia.
Qed.

(** Ticks of [updateProjectiles] with no firing in between. *)
Lemma updateProjectiles_iter (n : nat) (st : GameState) (L : Z) :
  Forall (fun p => (lifetime p <= L)%Z) (projectiles st) ->
  Forall (fun p => (0 < lifetime p <= L - Z.of_nat (S n))%Z)
         (projectiles (Nat.iter (S n) updateProjectiles st)).
Proof.
  intros HL. induction n as [|n IH].
  - cbn [Nat.iter]. change (Z.of_nat 1) with 1%Z. by apply updateProjectiles_lifetime.
  - change (Nat.iter (S (S n)) updateProjectiles st)
      with (updateProjectiles (Nat.iter (S n) updateProjectiles st)).
    eapply Forall_impl.
    + apply (updateProjectiles_lifetime _ (L - Z.of_nat (S n))).
      eapply Forall_impl; [exact IH|]. cbn beta. intros; lia.
    + cbn beta. intros; lia.
Qed.

Lemma updateProjectiles_expire (n : nat) (st : GameState) :
  Forall (fun p => (lifetime p <= Z.of_nat (S n))%Z) (projectiles st) ->
  projectiles (Nat.iter (S n) updateProjectiles st) = [].
Proof.
  intros HL%(updateProjectiles_iter n).
  destruct (projectiles _) as [|p ps]; [done|].
  apply Forall_cons in HL as [Hp _]. lia.
Qed.

(** The loop of [updateProjectiles] visits the indices from the last to
    the first. *)
Lemma projectileLoop_fold (n : nat) (st : GameState) :
  projectileLoop n st = fold_left (fun s i => stepProjectile i s) (rev (seq 0 n)) st.
Proof.
  revert st. induction n as [|n IH]; intros st; [done|].
  rewrite seq_S, rev_app_distr. cbn [projectileLoop rev app fold_left Nat.add]. apply IH.
Qed.

Lemma withProjectiles_same (st : GameState) : withProjectiles (projectiles st) st = st.
Proof. by destruct st. Qed.

Lemma agedProjectiles_app (l k : list Projectile) :
  agedProjectiles (l ++ k) = agedProjectiles l ++ agedProjectiles k.
Proof. unfold agedProjectiles. by rewrite List.map_app, List.filter_app. Qed.

(** A tick without a hit: every projectile moves and ages, and those at
    lifetime 0 are dropped. *)
Lemma projectileLoop_quiet (k : nat) (st : GameState) :
  (k <= length (projectiles st))%nat ->
  Forall (fun p => noCollision st (moveProjectile p)) (take k (projectiles st)) ->
  projectileLoop k st =
  withProjectiles (agedProjectiles (take k (projectiles st)) ++ drop k (projectiles st)) st.
Proof.
  revert st. induction k as [|i IH]; intros st Hk Hq.
  - change (st = withProjectiles (projectiles st) st). by rewrite withProjectiles_same.
  - destruct (lookup_lt_is_Some_2 (projectiles st) i) as [p Hi]; [lia|].
    rewrite (take_S_r _ _ _ Hi) in Hq. apply Forall_app in Hq as [Hq Hp].
    apply Forall_cons in Hp as [Hp _].
    cbn [projectileLoop]. rewrite (stepProjectile_miss st i p Hi Hp).
    set (keep := if Z.leb (lifetime (moveProjectile p)) 0
                 then delete i (projectiles st)
                 else <[i := moveProjectile p]> (projectiles st)).
    assert (Hkeep : keep = take i (projectiles st) ++ agedProjectiles [p]
                           ++ drop (S i) (projectiles st)).
    { subst keep. unfold agedProjectiles. cbn [List.map List.filter].
      destruct (Z.leb_spec (lifetime (moveProjectile p)) 0) as [Hle|Hgt].
      - rewrite (proj2 (Z.ltb_ge 0 _) Hle). cbn [app]. by rewrite delete_take_drop.
      - rewrite (proj2 (Z.ltb_lt 0 _) Hgt). cbn [app].
        rewrite insert_take_drop; [done|]. by eapply lookup_lt_Some. }
    assert (Htake : length (take i (projectiles st)) = i) by (rewrite length_take; lia).
    rewrite IH; cbn [projectiles withProjectiles]; rewrite Hkeep.
    + rewrite take_app_length', drop_app_length' by done.
      rewrite (take_S_r _ _ _ Hi), agedProjectiles_app.
      unfold withProjectiles. cbn. by rewrite <- !app_assoc.
    + rewrite length_app. lia.
    + by rewrite take_app_length'.
Qed.

(** C3.  A projectile is removed exactly once.  [updateProjectiles] is
    the loop body [stepProjectile] run at every index, from the last to the
    first.  At its turn the projectile at index [i], moved and aged, either
    meets a first qualifying candidate of its opposing set -- then that one
    ship takes the projectile's damage through [damageShip] once, no other
    ship object changes, the explosion is played and the projectile is
    spliced out -- or it meets none and is spliced out exactly when its
    decremented lifetime is 0 or less, otherwise kept.  One of the two cases
    always applies.  Over a whole update every [shipDamaged] emitted is
    matched by a removed projectile, survivors have a positive lifetime, a
    tick in which nothing is hit keeps exactly the projectiles with lifetime
    left, and a projectile that is never hit is gone after as many updates
    as its lifetime. *)
Theorem projectile_removed_exactly_once (st : GameState) (i : nat) (proj0 : Projectile) :
  projectiles st !! i = Some proj0 ->
  (forall tgt, firstCollision st (moveProjectile proj0) tgt ->
     projectiles (stepProjectile i st) = delete i (projectiles st) /\
     (exists l, events (stepProjectile i st) = l ++ events st /\
                List.filter isShipDamaged l =
                  [ShipDamaged tgt (projDamage (moveProjectile proj0))]) /\
     (forall b, b ≠ tgt -> heap (stepProjectile i st) b = heap st b) /\
     heap (stepProjectile i st) tgt =
       damagedShip (randomCalls st) (projDamage (moveProjectile proj0)) (heap st tgt) /\
     sounds (stepProjectile i st) = PlayExplosion :: sounds st) /\
  (noCollision st (moveProjectile proj0) ->
     (lifetime proj0 - 1 <= 0)%Z ->
     stepProjectile i st = withProjectiles (delete i (projectiles st)) st) /\
  (noCollision st (moveProjectile proj0) ->
     (0 < lifetime proj0 - 1)%Z ->
     stepProjectile i st =
       withProjectiles (<[i := moveProjectile proj0]> (projectiles st)) st) /\
  ((exists tgt, firstCollision st (moveProjectile proj0) tgt) \/
   noCollision st (moveProjectile proj0)) /\
  (exists l,
     events (updateProjectiles st) = l ++ events st /\
     Forall (fun p => (0 < lifetime p)%Z /\
                      exists p0, p0 ∈ projectiles st /\ p = moveProjectile p0)
            (projectiles (updateProjectiles st)) /\
     (damageCount l + length (projectiles (updateProjectiles st))
        <= length (projectiles st))%nat) /\
  (forall n, Forall (fun p => (lifetime p <= Z.of_nat (S n))%Z) (projectiles st) ->
             projectiles (Nat.iter (S n) updateProjectiles st) = []) /\
  updateProjectiles st =
    fold_left (fun s j => stepProjectile j s) (rev (seq 0 (length (projectiles st)))) st /\
  (Forall (fun p => noCollision st (moveProjectile p)) (projectiles st) ->
   updateProjectiles st = withProjectiles (agedProjectiles (projectiles st)) st).
Proof.
  intros Hi. split_and!.
  - intros tgt Hc. by apply stepProjectile_hit.
  - intros Hc Hl. rewrite (stepProjectile_miss st i proj0 Hi Hc).
    cbn [lifetime moveProjectile]. by rewrite (proj2 (Z.leb_le _ _) Hl).
  - intros Hc Hl. rewrite (stepProjectile_miss st i proj0 Hi Hc).
    cbn [lifetime moveProjectile]. by rewrite (proj2 (Z.leb_gt _ _) Hl).
  - apply collision_cases.
  - apply updateProjectiles_account.
  - intros n. apply updateProjectiles_expire.
  - apply projectileLoop_fold.
  - intros Hq. unfold updateProjectiles. rewrite projectileLoop_quiet.
    + by rewrite firstn_all, drop_all, app_nil_r.
    + done.
    + by rewrite firstn_all.
Qed.

(** ** NPC behaviour *)

Lemma ratioLt_true (a b c : Q) : ~ b == 0 -> a / b < c -> ratioLt a b c = true.
Proof.
  intros Hb Hlt. unfold ratioLt.
  destruct (Qeq_bool b 0) eqn:E.
  - apply Qeq_bool_iff in E. contradiction.
  - by apply Qltb_lt.
Qed.

Lemma damaged_hostile_flees_at (st : GameState) (ship : addr) :
  faction (heap st ship) = Hostile ->
  ~ maxHull (heap st ship) == 0 ->
  hull (heap st ship) / maxHull (heap st ship) < 0.3 ->
  aiState (heap (updateNPCAI ship st) ship) = Flee.
Proof.
  intros Hf Hm Hr. unfold updateNPCAI. rewrite Hf.
  rewrite (ratioLt_true _ _ _ Hm Hr).
  by rewrite heap_modify_eq.
Qed.


(** ** Alert level *)

Lemma distLt_min (n d r : Q) : distLt (Math_min n d) r = distLt n r || distLt d r.
Proof.
  unfold distLt, Math_min.
  destruct (Qltb 0 r); [cbn|done].
  destruct (Qleb n d) eqn:E0; [apply Qleb_le in E0|apply Qleb_gt in E0];
    qcases; cbn; try reflexivity; exfalso; lra.
Qed.

Lemma distGt_min (n d r : Q) : distGt (Math_min n d) r = distGt n r && distGt d r.
Proof.
  unfold distGt, Math_min.
  destruct (Qltb r 0); [done|cbn].
  destruct (Qleb n d) eqn:E0; [apply Qleb_le in E0|apply Qleb_gt in E0];
    qcases; cbn; try reflexivity; exfalso; lra.
Qed.

(** The fold of [checkAlertLevel] computes the minimum: it is below [r]
    exactly when some hostile is, and above [r] exactly when all are. *)
Lemma nearest_fold_lt (st : GameState) (l : list addr) (acc : option Q) (r : Q) :
  nearestLt
    (fold_left
       (fun nearest ship =>
          if decide (faction (heap st ship) = Hostile)
          then minDistSq nearest
                 (hypotSq (x (heap st ship) - x (heap st (playerShip st)))
                          (y (heap st ship) - y (heap st (playerShip st))))
          else nearest) l acc) r = true <->
  nearestLt acc r = true \/
  exists ship, ship ∈ l /\ faction (heap st ship) = Hostile /\
               distLt (hostileDistSq st ship) r = true.
Proof.
  revert acc. induction l as [|a l IH]; intros acc; cbn [fold_left].
  - split; [by left|]. intros [H|(b & Hb & _)]; [done|]. by apply elem_of_nil in Hb.
  - rewrite IH. fold (hostileDistSq st a). split.
    + intros [H|(b & Hb & Hf & Hd)].
      * case_decide as Hfa; [|by left].
        destruct acc as [n|]; cbn in H.
        -- rewrite distLt_min in H. apply orb_true_iff in H as [H|H]; [by left|].
           right. exists a. split_and!; [by left|done..].
        -- right. exists a. split_and!; [by left|done..].
      * right. exists b. split_and!; [by right|done..].
    + intros [H|(b & Hb & Hf & Hd)].
      * left. case_decide; [|done].
        destruct acc as [n|]; [|done]. cbn in *. rewrite distLt_min, H. done.
      * apply elem_of_cons in Hb as [->|Hb].
        -- left. rewrite decide_True by done.
           destruct acc as [n|]; cbn; [|done]. rewrite distLt_min, Hd. apply orb_true_r.
        -- right. exists b. done.
Qed.

Lemma nearest_fold_gt (st : GameState) (l : list addr) (acc : option Q) (r : Q) :
  nearestGt
    (fold_left
       (fun nearest ship =>
          if decide (faction (heap st ship) = Hostile)
          then minDistSq nearest
                 (hypotSq (x (heap st ship) - x (heap st (playerShip st)))
                          (y (heap st ship) - y (heap st (playerShip st))))
          else nearest) l acc) r = true <->
  nearestGt acc r = true /\
  forall ship, ship ∈ l -> faction (heap st ship) = Hostile ->
               distGt (hostileDistSq st ship) r = true.
Proof.
  revert acc. induction l as [|a l IH]; intros acc; cbn [fold_left].
  - split; [|by intros [? _]]. intros H. split; [done|].
    intros b Hb. by apply elem_of_nil in Hb.
  - rewrite IH. fold (hostileDistSq st a). split.
    + intros [H Hall]. case_decide as Hfa.
      * assert (nearestGt acc r = true /\ distGt (hostileDistSq st a) r = true) as [H1 H2].
        { destruct acc as [n|]; cbn in H |- *; [|done].
          rewrite distGt_min in H. by apply andb_true_iff in H. }
        split; [done|]. intros b [->|Hb]%elem_of_cons; auto.
      * split; [done|]. intros b [->|Hb]%elem_of_cons; [done|auto].
    + intros [H Hall]. split.
      * case_decide as Hfa; [|done].
        specialize (Hall a (list_elem_of_here _ _) Hfa).
        destruct acc as [n|]; cbn in *; [|done]. by rewrite distGt_min, H, Hall.
      * intros b Hb. apply Hall. by right.
Qed.

Lemma nearestLt_iff (st : GameState) (r : Q) :
  nearestLt (nearestHostile st) r = true <-> someHostileWithin st r.
Proof.
  unfold nearestHostile. cbv zeta. rewrite nearest_fold_lt. cbn.
  split; [by intros [?|?]|by right].
Qed.

Lemma nearestGt_iff (st : GameState) (r : Q) :
  nearestGt (nearestHostile st) r = true <-> allHostilesBeyond st r.
Proof.
  unfold nearestHostile. cbv zeta. rewrite nearest_fold_gt. cbn.
  split; [by intros [_ ?]|by split].
Qed.

Lemma alertLevel_addCommsMessage (from text : string) (ty : MsgType) (st : GameState) :
  alertLevel (addCommsMessage from text ty st) = alertLevel st.
Proof. by destruct (untouched_addCommsMessage from text ty st) as (_&_&_&_&?). Qed.

Lemma alertLevel_setAlertLevel (level : AlertLevel) (st : GameState) :
  alertLevel (setAlertLevel level st) = level.
Proof.
  unfold setAlertLevel. case_decide; [done|].
  cbv zeta. by rewrite alertLevel_addCommsMessage.
Qed.

Lemma checkAlertLevel_cases (st : GameState) :
  checkAlertLevel st =
  if nearestLt (nearestHostile st) 500 then
    match alertLevel st with
    | AlertRed => st
    | _ => play PlayRedAlert (setAlertLevel AlertRed st)
    end
  else if nearestLt (nearestHostile st) 1000 then
    match alertLevel st with
    | AlertNormal => play PlayYellowAlert (setAlertLevel AlertYellow st)
    | _ => st
    end
  else if nearestGt (nearestHostile st) 1500 then
    match alertLevel st with
    | AlertNormal => st
    | _ => setAlertLevel AlertNormal st
    end
  else st.
Proof.
  unfold checkAlertLevel. cbv zeta.
  destruct (nearestLt (nearestHostile st) 500), (nearestLt (nearestHostile st) 1000),
    (nearestGt (nearestHostile st) 1500), (alertLevel st); reflexivity.
Qed.

(** C5.  The alert check of a tick.  With [st'] the world after
    [checkAlertLevel]: a hostile nearer than 500 makes the level red; failing
    that, a hostile nearer than 1000 makes it yellow unless it is red, which
    stays red; the level becomes normal only when every hostile is farther
    than 1500, and does become normal then (no hostile being nearer than
    1000); between 1000 and 1500 nothing changes.  Whenever the level does
    not change the whole world is unchanged -- no event, no message, no
    sound -- and so it is for [setAlertLevel] called with the current level. *)
Theorem alert_automation (st : GameState) :
  (someHostileWithin st 500 -> alertLevel (checkAlertLevel st) = AlertRed) /\
  (~ someHostileWithin st 500 -> someHostileWithin st 1000 ->
     alertLevel (checkAlertLevel st) =
       match alertLevel st with AlertRed => AlertRed | _ => AlertYellow end) /\
  (alertLevel (checkAlertLevel st) = AlertNormal -> alertLevel st ≠ AlertNormal ->
     allHostilesBeyond st 1500) /\
  (~ someHostileWithin st 1000 -> allHostilesBeyond st 1500 ->
     alertLevel (checkAlertLevel st) = AlertNormal) /\
  (~ someHostileWithin st 1000 -> ~ allHostilesBeyond st 1500 ->
     checkAlertLevel st = st) /\
  (alertLevel (checkAlertLevel st) = alertLevel st -> checkAlertLevel st = st) /\
  setAlertLevel (alertLevel st) st = st.
Proof.
  clear Math_cos Math_sin Math_atan2 Math_PI entropy.
  assert (B5 : if nearestLt (nearestHostile st) 500
               then someHostileWithin st 500 else ~ someHostileWithin st 500).
  { destruct (nearestLt _ 500) eqn:E; [by apply nearestLt_iff|].
    intros H%nearestLt_iff. congruence. }
  assert (B10 : if nearestLt (nearestHostile st) 1000
                then someHostileWithin st 1000 else ~ someHostileWithin st 1000).
  { destruct (nearestLt _ 1000) eqn:E; [by apply nearestLt_iff|].
    intros H%nearestLt_iff. congruence. }
  assert (B15 : if nearestGt (nearestHostile st) 1500
                then allHostilesBeyond st 1500 else ~ allHostilesBeyond st 1500).
  { destruct (nearestGt _ 1500) eqn:E; [by apply nearestGt_iff|].
    intros H%nearestGt_iff. congruence. }
  assert (Hle : someHostileWithin st 500 -> someHostileWithin st 1000).
  { intros (a & Ha & Hf & Hd). exists a. split_and!; [done..|].
    unfold distLt in *. apply andb_true_iff in Hd as [_ Hd]. apply Qltb_lt in Hd.
    apply andb_true_iff. split; [done|]. apply Qltb_lt. lra. }
  assert (Hsame : setAlertLevel (alertLevel st) st = st).
  { unfold setAlertLevel. by rewrite decide_True. }
  rewrite checkAlertLevel_cases.
  destruct (nearestLt (nearestHostile st) 500),
    (nearestLt (nearestHostile st) 1000),
    (nearestGt (nearestHostile st) 1500), (alertLevel st) eqn:Ea;
    cbn [alertLevel play withSounds]; rewrite ?alertLevel_setAlertLevel, ?Ea;
    (split_and!; [ intros; first [done | tauto] .. | exact Hsame ]).
Qed.

(** ** Headings *)

Lemma floor_bounds (q : Q) : inject_Z (Qfloor q) <= q /\ q < inject_Z (Qfloor q) + 1.
Proof.
  split; [apply Qfloor_le|].
  pose proof (Qlt_floor q) as H. rewrite inject_Z_plus in H. exact H.
Qed.

Lemma ceiling_bounds (q : Q) : inject_Z (Qceiling q) - 1 < q /\ q <= inject_Z (Qceiling q).
Proof.
  split; [|apply Qle_ceiling].
  pose proof (Qceiling_lt q) as H.
  unfold Z.sub in H. rewrite inject_Z_plus in H. exact H.
Qed.

(** The [%] operator with divisor 360: the result is strictly inside
    (-360, 360) and has the sign of the dividend. *)
Lemma jsRem_360 (a : Q) :
  (0 <= a -> 0 <= jsRem a 360 /\ jsRem a 360 < 360) /\
  (a < 0 -> -360 < jsRem a 360 /\ jsRem a 360 <= 0).
Proof.
  unfold jsRem, Qtrunc.
  assert (Ha : a == 360 * (a / 360)) by (field; discriminate).
  set (q := a / 360) in *.
  destruct (floor_bounds q) as [F1 F2]. destruct (ceiling_bounds q) as [C1 C2].
  destruct (Qltb q 0) eqn:E; [apply Qltb_lt in E|apply Qltb_ge in E]; split; intros H; lra.
Qed.

Lemma normalizeHeading_range (h : Q) :
  0 <= normalizeHeading h /\ normalizeHeading h < 360.
Proof.
  unfold normalizeHeading.
  destruct (jsRem_360 h) as [Hpos Hneg].
  assert (0 <= jsRem h 360 + 360) as H.
  { destruct (Qlt_le_dec h 0) as [Hh|Hh]; [apply Hneg in Hh|apply Hpos in Hh]; lra. }
  by apply jsRem_360.
Qed.

(** The normalising loops, given the budget [turns]. *)
Lemma whileBelow_spec (n : nat) (lo h : Q) :
  lo - h <= 360 * inject_Z (Z.of_nat n) ->
  lo <= whileBelow n lo h /\
  (lo <= h -> whileBelow n lo h = h) /\
  (h < lo -> whileBelow n lo h < lo + 360).
Proof.
  revert h. induction n as [|n IH]; intros h Hn.
  - change (inject_Z (Z.of_nat 0)) with 0 in Hn. cbn [whileBelow].
    split_and!; [lra|done|intros; lra].
  - cbn [whileBelow].
    rewrite Nat2Z.inj_succ in Hn. unfold Z.succ in Hn. rewrite inject_Z_plus in Hn.
    change (inject_Z 1) with 1 in Hn.
    destruct (Qltb h lo) eqn:E; [apply Qltb_lt in E|apply Qltb_ge in E].
    + destruct (IH (h + 360)) as (I1 & I2 & I3); [lra|].
      split_and!; [done|intros; lra|]. intros _.
      destruct (Qlt_le_dec (h + 360) lo) as [Hlt|Hge].
      * by apply I3.
      * rewrite I2 by done. lra.
    + split_and!; [done|done|intros; lra].
Qed.

Lemma whileAtLeast_spec (n : nat) (hi h : Q) :
  h - hi < 360 * inject_Z (Z.of_nat n) ->
  whileAtLeast n hi h < hi /\
  (h < hi -> whileAtLeast n hi h = h) /\
  (hi <= h -> hi - 360 <= whileAtLeast n hi h).
Proof.
  revert h. induction n as [|n IH]; intros h Hn.
  - change (inject_Z (Z.of_nat 0)) with 0 in Hn. cbn [whileAtLeast].
    split_and!; [lra|done|intros; lra].
  - cbn [whileAtLeast].
    rewrite Nat2Z.inj_succ in Hn. unfold Z.succ in Hn. rewrite inject_Z_plus in Hn.
    change (inject_Z 1) with 1 in Hn.
    destruct (Qleb hi h) eqn:E; [apply Qleb_le in E|apply Qleb_gt in E].
    + destruct (IH (h - 360)) as (I1 & I2 & I3); [lra|].
      split_and!; [done|intros; lra|]. intros _.
      destruct (Qlt_le_dec (h - 360) hi) as [Hlt|Hge].
      * rewrite I2 by done. lra.
      * specialize (I3 Hge). lra.
    + split_and!; [done|done|intros; lra].
Qed.

Lemma turns_enough (h t : Q) :
  t - h <= 360 * inject_Z (Z.of_nat (turns h t)) /\
  h - t < 360 * inject_Z (Z.of_nat (turns h t)).
Proof.
  unfold turns. rewrite Nat2Z.inj_succ. unfold Z.succ. rewrite inject_Z_plus.
  change (inject_Z 1) with 1.
  set (q := Math_abs (h - t) / 360).
  assert (Hq : Math_abs (h - t) == 360 * q) by (unfold q; field; discriminate).
  assert (Habs : h - t <= Math_abs (h - t) /\ t - h <= Math_abs (h - t)).
  { unfold Math_abs. qcases; lra. }
  destruct (ceiling_bounds q) as [_ C].
  assert (Hc : inject_Z (Qceiling q) <= inject_Z (Z.of_nat (Z.to_nat (Qceiling q)))).
  { rewrite <- Zle_Qle. lia. }
  lra.
Qed.

(** ** NPC movement *)

Lemma subsystemHit_shape (n : nat) (d : Q) (s : Ship) :
  exists ss, subsystemHit n d s = setSubsystems ss s.
Proof.
  assert (Hid : s = setSubsystems (subsystems s) s) by by destruct s.
  unfold subsystemHit, damageSubsystem.
  repeat case_match; eauto.
Qed.

(** [damageShip] writes three fields of the object and no other. *)
Lemma damagedShip_shape (n : nat) (damage : Q) (s : Ship) :
  exists ss h sh, damagedShip n damage s = setSubsystems ss (setHull h (setShieldStrength sh s)).
Proof.
  unfold damagedShip. cbv zeta.
  destruct (subsystemHit_shape n (damage - shieldAbsorbOf damage s)
              (setHull (hull s - (damage - shieldAbsorbOf damage s))
                 (setShieldStrength (shieldStrength s - shieldAbsorbOf damage s) s)))
    as [ss ->].
  destruct (Qleb _ 0); by eexists _, _, _.
Qed.

(** The object store after [npcFireAtPlayer]: only the player object can
    differ, and only through [damageShip]. *)
Lemma heap_npcFireAtPlayer (ship : addr) (st : GameState) (b : addr) :
  heap (npcFireAtPlayer ship st) b = heap st b \/
  (b = playerShip st /\
   exists n damage, heap (npcFireAtPlayer ship st) b = damagedShip n damage (heap st b)).
Proof.
  unfold npcFireAtPlayer. cbv zeta.
  destruct (Qleb _ 0); [by left|].
  destruct (distLt _ 400); [|by left].
  cbn [heap play withSounds]. rewrite damageShip_heap.
  destruct (Nat.eqb_spec b (playerShip st)) as [->|]; [|by left].
  right. split; [done|]. cbn [playerShip withPhaserBeams heap]. eauto.
Qed.

Lemma playerShip_npcFireAtPlayer (ship : addr) (st : GameState) :
  playerShip (npcFireAtPlayer ship st) = playerShip st.
Proof.
  unfold npcFireAtPlayer. cbv zeta.
  destruct (Qleb _ 0); [done|]. destruct (distLt _ 400); [|done].
  cbn [playerShip play withSounds]. by rewrite playerShip_damageShip.
Qed.

(** What the [switch] of [moveNPCShip] does to the moving ship. *)
Ltac ship_fields :=
  cbn [heading maxVelocity turnRate velocity subsystems setVelocity setPatrolIndex
       setSubsystems setHull setShieldStrength].

Ltac no_target side :=
  split_and!;
  [ done | done | done
  | split; [by intros [? ?] | by intros ?]
  | by intros [? ?]
  | intros _; side; reflexivity
  | done ].

Ltac with_target f :=
  split_and!;
  [ done | done | done
  | split; [done | by eexists]
  | intros _; exists f; split;
    [ first [by left | by right; left | by right; right] | lra ]
  | done
  | done ].

Lemma chooseTarget_facts (ship : addr) (e : Q) (st st1 : GameState) (tgt : option (Q * Q)) :
  chooseTarget ship e st = Done (st1, tgt) ->
  heading (heap st1 ship) = heading (heap st ship) /\
  maxVelocity (heap st1 ship) = maxVelocity (heap st ship) /\
  turnRate (heap st1 ship) = turnRate (heap st ship) /\
  (is_Some tgt <-> steers st ship) /\
  (is_Some tgt ->
     exists f, (f == 0.5 \/ f == 0.8 \/ f == 1) /\
               velocity (heap st1 ship) == maxVelocity (heap st ship) * f * e) /\
  (tgt = None ->
     velocity (heap st1 ship) = 0 \/ velocity (heap st1 ship) = velocity (heap st ship)) /\
  (ship ≠ playerShip st -> subsystems (heap st1 ship) = subsystems (heap st ship)).
Proof.
  unfold chooseTarget, steers. cbv zeta.
  destruct (aiState (heap st ship)).
  - (* patrol *)
    destruct (patrolPoints (heap st ship)) as [|p ps] eqn:Hpp; cbn [length Nat.ltb Nat.leb].
    + intros [= <- <-]. rewrite heap_modify_eq. ship_fields. no_target ltac:(left).
    + destruct (_ !! _) as [point|]; [|done].
      intros [= <- <-].
      destruct (distLt _ 30); rewrite !heap_modify_eq; ship_fields; with_target 0.5.
  - (* approach *)
    case_decide as Ht.
    + intros [= <- <-]. rewrite heap_modify_eq. ship_fields. with_target 0.8.
    + intros [= <- <-]. no_target ltac:(right).
  - (* attack *)
    case_decide as Ht.
    + intros [= <- <-].
      set (st0 := modify ship (fun s => setVelocity (maxVelocity s * e) s) st).
      assert (H0 : heap st0 ship = setVelocity (maxVelocity (heap st ship) * e) (heap st ship))
        by (unfold st0; by rewrite heap_modify_eq).
      assert (Hgoal : forall s',
        (s' = heap st0 ship \/
         (ship = playerShip st /\ exists k d, s' = damagedShip k d (heap st0 ship))) ->
        heading s' = heading (heap st ship) /\
        maxVelocity s' = maxVelocity (heap st ship) /\
        turnRate s' = turnRate (heap st ship) /\
        (is_Some (Some (x (heap st (playerShip st)), y (heap st (playerShip st))))
           <-> target (heap st ship) = Some "player") /\
        (is_Some (Some (x (heap st (playerShip st)), y (heap st (playerShip st)))) ->
           exists f, (f == 0.5 \/ f == 0.8 \/ f == 1) /\
                     velocity s' == maxVelocity (heap st ship) * f * e) /\
        (Some (x (heap st (playerShip st)), y (heap st (playerShip st))) = None ->
           velocity s' = 0 \/ velocity s' = velocity (heap st ship)) /\
        (ship ≠ playerShip st -> subsystems s' = subsystems (heap st ship))).
      { intros s' [->|(Hp & k & d & ->)].
        - rewrite H0. ship_fields. with_target 1.
        - destruct (damagedShip_shape k d (heap st0 ship)) as (ss & h & sh & ->).
          rewrite H0. ship_fields. with_target 1. }
      destruct (distLt _ 400); [|apply Hgoal; by left].
      unfold Math_random. cbv zeta.
      destruct (Qltb _ 0.02); [|apply Hgoal; by left].
      apply Hgoal.
      apply (heap_npcFireAtPlayer ship
               (withRandomCalls (S (randomCalls st0)) st0) ship).
    + intros [= <- <-]. no_target ltac:(right).
  - (* flee *)
    intros [= <- <-]. rewrite heap_modify_eq. ship_fields. with_target 1.
Qed.

(** The two loops that close the steering block leave a heading in
    [0, 360), from any value: the budget [turns] is enough for both. *)
Lemma normalizing_loops_range (h : Q) :
  let h1 := whileBelow (turns h 0) 0 h in
  let h2 := whileAtLeast (turns h1 360) 360 h1 in
  0 <= h2 /\ h2 < 360.
Proof.
  cbv zeta.
  destruct (whileBelow_spec (turns h 0) 0 h) as (B1 & _ & _);
    [apply turns_enough|].
  set (h1 := whileBelow (turns h 0) 0 h) in *.
  destruct (whileAtLeast_spec (turns h1 360) 360 h1) as (A1 & A2 & A3);
    [apply turns_enough|].
  split; [|done].
  destruct (Qlt_le_dec h1 360) as [Hlt|Hge].
  - by rewrite A2.
  - specialize (A3 Hge). lra.
Qed.

Lemma steer_facts (ship : addr) (e targetX targetY : Q) (st : GameState) :
  (0 <= heading (heap (steer ship e targetX targetY st) ship) /\
   heading (heap (steer ship e targetX targetY st) ship) < 360) /\
  velocity (heap (steer ship e targetX targetY st) ship) = velocity (heap st ship) /\
  maxVelocity (heap (steer ship e targetX targetY st) ship) = maxVelocity (heap st ship) /\
  subsystems (heap (steer ship e targetX targetY st) ship) = subsystems (heap st ship).
Proof.
  unfold steer. cbv zeta.
  destruct (Qltb (Math_abs _) _); rewrite !heap_modify_eq;
    cbn [heading velocity maxVelocity subsystems setHeadingField];
    (split; [apply normalizing_loops_range|done]).
Qed.

Lemma moveNPCShip_facts (ship : addr) (st st' : GameState) :
  moveNPCShip ship st = Done st' ->
  (steers st ship ->
     (0 <= heading (heap st' ship) /\ heading (heap st' ship) < 360) /\
     exists f, (f == 0.5 \/ f == 0.8 \/ f == 1) /\
       velocity (heap st' ship) ==
         maxVelocity (heap st ship) * f * engineEffectivenessOf (heap st ship)) /\
  (~ steers st ship ->
     heading (heap st' ship) = heading (heap st ship) /\
     (velocity (heap st' ship) = 0 \/ velocity (heap st' ship) = velocity (heap st ship))) /\
  maxVelocity (heap st' ship) = maxVelocity (heap st ship) /\
  (ship ≠ playerShip st -> subsystems (heap st' ship) = subsystems (heap st ship)).
Proof.
  unfold moveNPCShip. cbv zeta.
  change (getSystemEffectiveness (heap st ship) engines)
    with (engineEffectivenessOf (heap st ship)).
  set (e := engineEffectivenessOf (heap st ship)).
  destruct (chooseTarget ship e st) as [[st1 tgt]|] eqn:Hc; [|done].
  cbn [bindO]. intros [= <-].
  destruct (chooseTarget_facts ship e st st1 tgt Hc)
    as (Hh & Hm & _ & Hsome & Hv & Hnone & Hsub).
  rewrite !heap_modify_eq.
  cbn [heading velocity maxVelocity subsystems setX setY].
  destruct tgt as [[tx ty]|].
  - destruct (steer_facts ship e tx ty st1) as (Hr & Hvs & Hms & Hss).
    rewrite Hvs, Hms, Hss.
    split_and!; [|intros Hn; destruct Hn; apply Hsome; by eexists|done|done].
    intros _. split; [done|]. apply Hv. by eexists.
  - split_and!; [|by auto|done|done].
    intros Hs%Hsome. by destruct Hs.
Qed.

(** [moveNPCShip] raises exactly when a patrolling ship's index lies outside
    its non-empty route. *)
Lemma moveNPCShip_returns (ship : addr) (st : GameState) :
  validPatrol (heap st ship) -> exists st', moveNPCShip ship st = Done st'.
Proof.
  intros Hv. unfold moveNPCShip. cbv zeta.
  set (e := getSystemEffectiveness (heap st ship) engines).
  assert (exists r, chooseTarget ship e st = Done r) as [[st1 tgt] ->].
  { unfold chooseTarget. cbv zeta.
    destruct (aiState (heap st ship)); try (repeat case_match; by eexists).
    destruct Hv as [->|Hlt]; [by eexists|].
    destruct (lookup_lt_is_Some_2 _ _ Hlt) as [pt ->].
    case_match; by eexists. }
  cbn [bindO]. by eexists.
Qed.

(** C6.  Headings stay in [0, 360).  For every argument -- negative,
    a multiple of 360, anything -- the player's heading is in [0, 360) after
    [setHeading] and after [turn]; an NPC's heading is in [0, 360) after
    the steering of [moveNPCShip], whatever it was before, and a tick in which
    the ship has no point to steer to leaves its heading as it was.
    [moveNPCShip] does return for every ship whose patrol index points into
    its route. *)
Theorem heading_normalized (st : GameState) :
  (forall h : Q,
     0 <= heading (heap (setHeading h st) (playerShip st)) /\
     heading (heap (setHeading h st) (playerShip st)) < 360) /\
  (forall degrees : Q,
     0 <= heading (heap (turn degrees st) (playerShip st)) /\
     heading (heap (turn degrees st) (playerShip st)) < 360) /\
  (forall ship st', moveNPCShip ship st = Done st' ->
     (steers st ship ->
        0 <= heading (heap st' ship) /\ heading (heap st' ship) < 360) /\
     (~ steers st ship -> heading (heap st' ship) = heading (heap st ship))) /\
  (forall ship, validPatrol (heap st ship) -> exists st', moveNPCShip ship st = Done st').
Proof.
  split_and!.
  - intros h. unfold setHeading. rewrite heap_modify_eq. cbn [heading setHeadingField].
    apply normalizeHeading_range.
  - intros d. unfold turn. cbv zeta. rewrite heap_modify_eq. cbn [heading setHeadingField].
    apply normalizeHeading_range.
  - intros ship st' Hm.
    destruct (moveNPCShip_facts ship st st' Hm) as (Hs & Hn & _).
    split; [intros H; by apply Hs|intros H; by apply Hn].
  - intros ship. apply moveNPCShip_returns.
Qed.

(** ** Weapons *)

(** [addCommsMessage] writes the comms log, emits one [commsMessage] and
    draws one UUID; everything else is as before. *)
Lemma addCommsMessage_effect (from text : string) (ty : MsgType) (st : GameState) :
  let st' := addCommsMessage from text ty st in
  let m := mkCommsMsg (uuidStream (uuidCalls st)) from text ty (gameTime st) false in
  heap st' = heap st /\ ships st' = ships st /\ playerShip st' = playerShip st /\
  projectiles st' = projectiles st /\ phaserBeams st' = phaserBeams st /\
  currentTarget st' = currentTarget st /\ alertLevel st' = alertLevel st /\
  waypoint st' = waypoint st /\ repairCooldowns st' = repairCooldowns st /\
  sounds st' = sounds st /\ randomCalls st' = randomCalls st /\
  events st' = CommsMessage m :: events st /\
  head (commsLog st') = Some m.
Proof.
  unfold addCommsMessage. cbn.
  case_match; cbn; split_and!; try done.
  destruct (commsLog st); done.
Qed.




(** ** Unknown names *)

Lemma setPower_unknown (systemName : string) (p : Q) (st : GameState) :
  getSubsystem systemName (subsystems (heap st (playerShip st))) = None ->
  setPower systemName p st = st.
Proof. intros H. unfold setPower. by rewrite H. Qed.

Lemma fireWeapon_unknown_kind (kind : string) (tgtId : option string) (st : GameState) :
  kind ≠ "phaser" -> kind ≠ "torpedo" ->
  0 < hp (weapons (subsystems (heap st (playerShip st)))) ->
  0 < power (weapons (subsystems (heap st (playerShip st)))) ->
  fireWeapon kind tgtId st = (false, st).
Proof.
  intros Hp Ht Hhp Hpw. unfold fireWeapon. cbv zeta.
  apply Qleb_gt in Hhp, Hpw. rewrite Hhp, Hpw. cbn [orb].
  apply String.eqb_neq in Hp, Ht. by rewrite Hp, Ht.
Qed.

(** [repairSubsystem] with a name that is not a subsystem and has no
    running cooldown reads [hp] of [undefined]. *)
Lemma repairSubsystem_unknown (systemName : string) (st : GameState) :
  getSubsystem systemName (subsystems (heap st (playerShip st))) = None ->
  (forall c, repairCooldowns st !! systemName = Some c -> (c <= 0)%Z) ->
  repairSubsystem systemName st = TypeError.
Proof.
  intros Hn Hc. unfold repairSubsystem. rewrite Hn.
  destruct (repairCooldowns st !! systemName) as [c|]; [|done].
  specialize (Hc c eq_refl). by rewrite (proj2 (Z.ltb_ge 0 c)).
Qed.

(** C8, at the failing input.  On the world of [reset], where no cooldown
    is running, [repairSubsystem('warp')] raises a TypeError instead of
    returning [false]; [setPower('warp', 50)] on the same world is the no-op
    the specification asks for. *)
Theorem repairSubsystem_unknown_name_raises :
  repairSubsystem "warp" reset = TypeError /\ setPower "warp" 50 reset = reset.
Proof. split; reflexivity. Qed.

(** ** Velocity *)




(** ** Phaser damage *)

Lemma npcFireAtPlayer_fires (ship : addr) (st : GameState) :
  0 < getSystemEffectiveness (heap st ship) weapons ->
  distLt (hypotSq (x (heap st (playerShip st)) - x (heap st ship))
                  (y (heap st (playerShip st)) - y (heap st ship))) 400 = true ->
  phaserBeams (npcFireAtPlayer ship st) =
    phaserBeams st ++
      [mkBeam (x (heap st ship)) (y (heap st ship))
              (x (heap st (playerShip st))) (y (heap st (playerShip st))) 15%Z] /\
  exists l, events (npcFireAtPlayer ship st) = l ++ events st /\
            List.filter isShipDamaged l =
              [ShipDamaged (playerShip st)
                 (10 * getSystemEffectiveness (heap st ship) weapons)].
Proof.
  intros He Hd. unfold npcFireAtPlayer. cbv zeta.
  apply Qleb_gt in He. rewrite He, Hd.
  set (st0 := withPhaserBeams _ st).
  set (damage := 10 * getSystemEffectiveness (heap st ship) weapons).
  cbn [phaserBeams events play withSounds].
  destruct (untouched_damageShip (playerShip st) damage st0) as (_ & Hb & _).
  destruct (events_damageShip (playerShip st) damage st0) as (l & Hev & Hl).
  change (playerShip st0) with (playerShip st).
  rewrite Hb. split; [done|]. by exists l.
Qed.

Lemma fireWeapon_phaser_fires (tgtId : option string) (st : GameState) (tgt : addr) :
  let w := weapons (subsystems (heap st (playerShip st))) in
  0 < hp w -> 0 < power w ->
  getShip (orString tgtId (currentTarget st)) st = Some tgt ->
  distGt (hypotSq (x (heap st tgt) - x (heap st (playerShip st)))
                  (y (heap st tgt) - y (heap st (playerShip st)))) 500 = false ->
  fst (fireWeapon "phaser" tgtId st) = true /\
  exists l, events (snd (fireWeapon "phaser" tgtId st)) = l ++ events st /\
            List.filter isShipDamaged l =
              [ShipDamaged tgt (15 * ((hp w / 100) * (power w / 100)))].
Proof.
  cbv zeta. intros Hhp Hpw Hg Hd. unfold fireWeapon. cbv zeta.
  apply Qleb_gt in Hhp, Hpw. rewrite Hhp, Hpw. cbn [orb].
  change (String.eqb "phaser" "phaser") with true. cbv iota.
  rewrite Hg, Hd. cbn [fst snd events emit withEvents].
  split; [done|].
  match goal with
  | |- context [damageShip tgt ?d ?s] =>
      destruct (events_damageShip tgt d s) as (l & Hev & Hl)
  end.
  exists (WeaponFired Phaser (Some tgt) :: l). rewrite Hev. split; [done|].
  cbn. exact Hl.
Qed.

(** What the hit leaves in the object that was fired at. *)
Lemma npcFireAtPlayer_damage (ship : addr) (st : GameState) (b : addr) :
  0 < getSystemEffectiveness (heap st ship) weapons ->
  distLt (hypotSq (x (heap st (playerShip st)) - x (heap st ship))
                  (y (heap st (playerShip st)) - y (heap st ship))) 400 = true ->
  heap (npcFireAtPlayer ship st) b =
    (if Nat.eqb b (playerShip st)
     then damagedShip (randomCalls st)
            (10 * getSystemEffectiveness (heap st ship) weapons) (heap st (playerShip st))
     else heap st b) /\
  sounds (npcFireAtPlayer ship st) = PlayHullHit :: sounds st.
Proof.
  intros He Hd. unfold npcFireAtPlayer. cbv zeta.
  apply Qleb_gt in He. rewrite He, Hd.
  set (st0 := withPhaserBeams _ st).
  set (damage := 10 * getSystemEffectiveness (heap st ship) weapons).
  cbn [heap sounds play withSounds].
  destruct (untouched_damageShip (playerShip st) damage st0) as (_ & _ & Hs & _).
  change (playerShip st0) with (playerShip st).
  rewrite Hs. split; [|done]. by rewrite damageShip_heap.
Qed.

Lemma fireWeapon_phaser_damage (tgtId : option string) (st : GameState) (tgt b : addr) :
  let w := weapons (subsystems (heap st (playerShip st))) in
  0 < hp w -> 0 < power w ->
  getShip (orString tgtId (currentTarget st)) st = Some tgt ->
  distGt (hypotSq (x (heap st tgt) - x (heap st (playerShip st)))
                  (y (heap st tgt) - y (heap st (playerShip st)))) 500 = false ->
  heap (snd (fireWeapon "phaser" tgtId st)) b =
    if Nat.eqb b tgt
    then damagedShip (randomCalls st) (15 * ((hp w / 100) * (power w / 100))) (heap st tgt)
    else heap st b.
Proof.
  cbv zeta. intros Hhp Hpw Hg Hd. unfold fireWeapon. cbv zeta.
  apply Qleb_gt in Hhp, Hpw. rewrite Hhp, Hpw. cbn [orb].
  change (String.eqb "phaser" "phaser") with true. cbv iota.
  rewrite Hg, Hd. cbn [fst snd heap emit withEvents].
  by rewrite damageShip_heap.
Qed.

(** C10.  An NPC phaser attack on the player happens only at a distance
    under 400 and with a weapons effectiveness above 0 -- otherwise
    [npcFireAtPlayer] changes nothing at all -- and when it happens it
    applies damage 10 x the firing ship's weapons effectiveness to the
    player, once: the player's shields lose what they absorb of it and the
    hull loses the rest (or is set to 0), no other ship object changes, one
    [shipDamaged] with that amount is emitted, one beam is created and the
    hull-hit cue is played.  The player's own phaser applies 15 x the
    player's weapons effectiveness to its target in the same way. *)
Theorem npc_phaser_attack (st : GameState) (ship : addr) :
  (getSystemEffectiveness (heap st ship) weapons <= 0 ->
     npcFireAtPlayer ship st = st) /\
  (distLt (hypotSq (x (heap st (playerShip st)) - x (heap st ship))
                   (y (heap st (playerShip st)) - y (heap st ship))) 400 = false ->
     npcFireAtPlayer ship st = st) /\
  (0 < getSystemEffectiveness (heap st ship) weapons ->
   distLt (hypotSq (x (heap st (playerShip st)) - x (heap st ship))
                   (y (heap st (playerShip st)) - y (heap st ship))) 400 = true ->
     let damage := 10 * getSystemEffectiveness (heap st ship) weapons in
     let player := heap st (playerShip st) in
     let player' := heap (npcFireAtPlayer ship st) (playerShip st) in
     phaserBeams (npcFireAtPlayer ship st) =
       phaserBeams st ++
         [mkBeam (x (heap st ship)) (y (heap st ship))
                 (x (heap st (playerShip st))) (y (heap st (playerShip st))) 15%Z] /\
     player' = damagedShip (randomCalls st) damage player /\
     shieldStrength player' = shieldStrength player - shieldAbsorbOf damage player /\
     hull player' = (if Qleb (hullAfterHit damage player) 0 then 0
                     else hullAfterHit damage player) /\
     (forall b, b <> playerShip st -> heap (npcFireAtPlayer ship st) b = heap st b) /\
     sounds (npcFireAtPlayer ship st) = PlayHullHit :: sounds st /\
     exists l, events (npcFireAtPlayer ship st) = l ++ events st /\
               List.filter isShipDamaged l =
                 [ShipDamaged (playerShip st)
                    (10 * getSystemEffectiveness (heap st ship) weapons)]) /\
  (forall tgtId tgt,
     0 < hp (weapons (subsystems (heap st (playerShip st)))) ->
     0 < power (weapons (subsystems (heap st (playerShip st)))) ->
     getShip (orString tgtId (currentTarget st)) st = Some tgt ->
     distGt (hypotSq (x (heap st tgt) - x (heap st (playerShip st)))
                     (y (heap st tgt) - y (heap st (playerShip st)))) 500 = false ->
     let damage := 15 * getSystemEffectiveness (heap st (playerShip st)) weapons in
     let tgt' := heap (snd (fireWeapon "phaser" tgtId st)) tgt in
     fst (fireWeapon "phaser" tgtId st) = true /\
     tgt' = damagedShip (randomCalls st) damage (heap st tgt) /\
     shieldStrength tgt' = shieldStrength (heap st tgt) - shieldAbsorbOf damage (heap st tgt) /\
     hull tgt' = (if Qleb (hullAfterHit damage (heap st tgt)) 0 then 0
                  else hullAfterHit damage (heap st tgt)) /\
     (forall b, b <> tgt -> heap (snd (fireWeapon "phaser" tgtId st)) b = heap st b) /\
     exists l, events (snd (fireWeapon "phaser" tgtId st)) = l ++ events st /\
               List.filter isShipDamaged l =
                 [ShipDamaged tgt
                    (15 * getSystemEffectiveness (heap st (playerShip st)) weapons)]).
Proof.
  split_and!.
  - intros He. unfold npcFireAtPlayer. cbv zeta.
    apply Qleb_le in He. by rewrite He.
  - intros Hd. unfold npcFireAtPlayer. cbv zeta. rewrite Hd.
    by destruct (Qleb _ 0).
  - intros He Hd. cbv zeta.
    destruct (npcFireAtPlayer_fires ship st He Hd) as [Hb Hev].
    pose proof (fun b => proj1 (npcFireAtPlayer_damage ship st b He Hd)) as Hh.
    pose proof (proj2 (npcFireAtPlayer_damage ship st O He Hd)) as Hs.
    assert (Hp : heap (npcFireAtPlayer ship st) (playerShip st) =
                 damagedShip (randomCalls st)
                   (10 * getSystemEffectiveness (heap st ship) weapons)
                   (heap st (playerShip st))) by (by rewrite Hh, Nat.eqb_refl).
    split; [exact Hb|]. split; [exact Hp|]. rewrite Hp.
    split; [apply damagedShip_fields|]. split; [apply hull_damagedShip|].
    split; [|by split].
    intros b Hne. rewrite Hh. by apply Nat.eqb_neq in Hne as ->.
  - intros tgtId tgt Hhp Hpw Hg Hd. cbv zeta.
    destruct (fireWeapon_phaser_fires tgtId st tgt Hhp Hpw Hg Hd) as [Hf Hev].
    pose proof (fun b => fireWeapon_phaser_damage tgtId st tgt b Hhp Hpw Hg Hd) as Hh.
    cbv zeta in Hh.
    assert (Hp : heap (snd (fireWeapon "phaser" tgtId st)) tgt =
                 damagedShip (randomCalls st)
                   (15 * getSystemEffectiveness (heap st (playerShip st)) weapons)
                   (heap st tgt)) by (by rewrite Hh, Nat.eqb_refl).
    split; [exact Hf|]. split; [exact Hp|]. rewrite Hp.
    split; [apply damagedShip_fields|]. split; [apply hull_damagedShip|].
    split; [|exact Hev].
    intros b Hne. rewrite Hh. by apply Nat.eqb_neq in Hne as ->.
Qed.

(** ** Well-formed worlds are what the program builds *)

Lemma wellFormed_reset : wellFormed reset.
Proof.
  unfold wellFormed. change (shipIds reset) with (@nil string).
  split_and!; [reflexivity|apply not_elem_of_nil|apply NoDup_nil_2].
Qed.

Lemma allocated_reset : allocated reset.
Proof. split; [cbn; lia|constructor]. Qed.

Lemma ships_checkDestruction_cases (ship : addr) (st : GameState) :
  ships (checkDestruction ship st) = ships st \/
  exists i, ships (checkDestruction ship st) = delete i (ships st).
Proof.
  unfold checkDestruction.
  destruct (Qleb _ 0); [|by left].
  case_match; cbv zeta; rewrite ships_addCommsMessage; [|by left].
  unfold removeShip. destruct (findShipIndex _ _) as [[i a]|]; [|by left].
  right. exists i. cbv zeta. by case_decide.
Qed.

Lemma wellFormed_damageShip (ship : addr) (damage : Q) (st : GameState) :
  wellFormed st -> wellFormed (damageShip ship damage st).
Proof.
  intros (Hp & Hnp & Hnd).
  assert (Hids : shipIds (damageShip ship damage st) =
                 (fun a => id (heap st a)) <$> ships (damageShip ship damage st)).
  { unfold shipIds. apply list_fmap_ext. intros ? b _. apply id_damageShip. }
  assert (Hsub : shipIds (damageShip ship damage st) `sublist_of` shipIds st).
  { rewrite Hids. rewrite damageShip_split.
    destruct (damageShipBody_facts ship damage st) as (Hs & _).
    destruct (ships_checkDestruction_cases ship (damageShipBody ship damage st))
      as [->|[i ->]]; rewrite Hs; [done|].
    rewrite list_fmap_delete. apply sublist_delete. }
  unfold wellFormed. rewrite playerShip_damageShip, id_damageShip.
  split_and!; [done| |by eapply sublist_NoDup].
  intros Hin. apply Hnp. by eapply elem_of_sublist.
Qed.

Lemma wellFormed_addShip (config : ShipConfig) (st : GameState) :
  wellFormed st -> allocated st ->
  createdId config st ≠ "player" -> createdId config st ∉ shipIds st ->
  wellFormed (snd (addShip config st)) /\ allocated (snd (addShip config st)).
Proof.
  intros (Hp & Hnp & Hnd) (Hpa & Hsa) Hc1 Hc2.
  unfold addShip, createShip, createdId, randomUUID in *.
  assert (Hold : forall (h : Ship) (n : addr), n = nextAddr st ->
            (fun a => id (if Nat.eqb a n then h else heap st a)) <$> ships st = shipIds st).
  { intros h n ->. unfold shipIds. apply list_fmap_ext. intros ? b Hb.
    rewrite Forall_forall in Hsa.
    assert (b < nextAddr st)%nat as Hlt
      by (apply Hsa; by eapply list_elem_of_lookup_2).
    apply Nat.lt_neq, Nat.eqb_neq in Hlt. by rewrite Hlt. }
  assert (Hpl : Nat.eqb (playerShip st) (nextAddr st) = false)
    by (apply Nat.eqb_neq; lia).
  destruct (orString (cfgId config) None) as [i|];
    cbn [snd fst emit withEvents withUuidCalls uuidCalls nextAddr playerShip ships heap];
    unfold wellFormed, allocated, shipIds;
    cbn [snd fst emit withEvents withUuidCalls uuidCalls nextAddr playerShip ships heap];
    rewrite Hpl, fmap_app, (Hold _ _ eq_refl); cbn [fmap list_fmap];
    rewrite Nat.eqb_refl; cbn [id];
    (split_and!;
     [ done
     | rewrite not_elem_of_app; split; [done|];
       intros H%list_elem_of_singleton; congruence
     | apply NoDup_app; split_and!; [done| |apply NoDup_singleton];
       intros s' Hs' H%list_elem_of_singleton; rewrite H in Hs'; contradiction
     | lia
     | apply Forall_app; split;
       [ eapply Forall_impl; [exact Hsa|]; cbn beta; intros; lia
       | apply Forall_singleton; lia ] ]).
Qed.

(** ** The NPC pass of a tick *)

Lemma sameCore_refl (s : Ship) : sameCore s s.
Proof. by repeat split. Qed.

Lemma sameCore_damagedShip (n : nat) (d : Q) (s : Ship) : sameCore s (damagedShip n d s).
Proof. destruct (damagedShip_shape n d s) as (ss & h & sh & ->). by repeat split. Qed.

Lemma chooseTarget_frame (ship : addr) (e : Q) (st st1 : GameState)
    (tgt : option (Q * Q)) (c : addr) :
  chooseTarget ship e st = Done (st1, tgt) ->
  playerShip st1 = playerShip st /\
  sameCore (heap st c) (heap st1 c) /\
  (c ≠ playerShip st -> hull (heap st1 c) = hull (heap st c)).
Proof.
  unfold chooseTarget. cbv zeta.
  destruct (aiState (heap st ship)).
  - destruct (Nat.ltb 0 _).
    + destruct (_ !! _) as [point|]; [|done]. intros [= <- <-].
      destruct (distLt _ 30); rewrite !heap_modify;
        destruct (Nat.eqb c ship); by repeat split.
    + intros [= <- <-]. rewrite heap_modify. destruct (Nat.eqb c ship); by repeat split.
  - case_decide; intros [= <- <-]; [|by repeat split].
    rewrite heap_modify. destruct (Nat.eqb c ship); by repeat split.
  - case_decide; intros [= <- <-]; [|by repeat split].
    set (st0 := modify ship (fun s => setVelocity (maxVelocity s * e) s) st).
    assert (H0 : sameCore (heap st c) (heap st0 c) /\ hull (heap st0 c) = hull (heap st c)).
    { unfold st0. rewrite heap_modify. destruct (Nat.eqb c ship); by repeat split. }
    destruct H0 as [(H1 & H2 & H3) H4].
    destruct (distLt _ 400); [|by repeat split].
    unfold Math_random. cbv beta iota zeta.
    destruct (Qltb _ 0.02); [|by repeat split].
    rewrite playerShip_npcFireAtPlayer. split; [done|].
    change (randomCalls st0) with (randomCalls st).
    destruct (heap_npcFireAtPlayer ship (withRandomCalls (S (randomCalls st)) st0) c)
      as [->|(Hc & n & d & ->)].
    + by repeat split.
    + destruct (sameCore_damagedShip n d (heap (withRandomCalls (S (randomCalls st)) st0) c))
        as (D1 & D2 & D3).
      change (heap (withRandomCalls (S (randomCalls st)) st0) c) with (heap st0 c) in *.
      split; [unfold sameCore; split_and!; congruence|].
      intros Hne. contradiction.
  - intros [= <- <-]. rewrite heap_modify. destruct (Nat.eqb c ship); by repeat split.
Qed.

Lemma steer_frame (ship : addr) (e tx ty : Q) (st : GameState) (c : addr) :
  playerShip (steer ship e tx ty st) = playerShip st /\
  sameCore (heap st c) (heap (steer ship e tx ty st) c) /\
  hull (heap (steer ship e tx ty st) c) = hull (heap st c).
Proof.
  unfold steer. cbv zeta.
  destruct (Qltb (Math_abs _) _); rewrite !heap_modify;
    destruct (Nat.eqb c ship); by repeat split.
Qed.

Lemma moveNPCShip_frame (ship : addr) (st st' : GameState) (c : addr) :
  moveNPCShip ship st = Done st' ->
  playerShip st' = playerShip st /\
  sameCore (heap st c) (heap st' c) /\
  (c ≠ playerShip st -> hull (heap st' c) = hull (heap st c)).
Proof.
  unfold moveNPCShip. cbv zeta.
  set (e := getSystemEffectiveness (heap st ship) engines).
  destruct (chooseTarget ship e st) as [[st1 tgt]|] eqn:Hc; [|done].
  cbn [bindO]. intros [= <-].
  destruct (chooseTarget_frame ship e st st1 tgt c Hc) as (Hp & (C1 & C2 & C3) & Hh).
  assert (Hsteer : exists st2,
            st2 = match tgt with
                  | Some (tx, ty) => steer ship e tx ty st1
                  | None => st1
                  end /\
            playerShip st2 = playerShip st1 /\ sameCore (heap st1 c) (heap st2 c) /\
            hull (heap st2 c) = hull (heap st1 c)).
  { eexists. split; [reflexivity|].
    destruct tgt as [[tx ty]|]; [apply steer_frame|by repeat split]. }
  destruct Hsteer as (st2 & <- & Hp2 & (S1 & S2 & S3) & Hh2).
  rewrite !heap_modify. cbn [playerShip modify withHeap].
  destruct (Nat.eqb c ship); cbn [faction aiState maxHull hull setX setY];
    unfold sameCore; cbn [faction aiState maxHull hull setX setY];
    (split_and!; [congruence..|intros Hne; rewrite Hh2; by apply Hh]).
Qed.

Lemma updateNPCAI_frame (ship : addr) (st : GameState) (c : addr) :
  playerShip (updateNPCAI ship st) = playerShip st /\
  faction (heap (updateNPCAI ship st) c) = faction (heap st c) /\
  maxHull (heap (updateNPCAI ship st) c) = maxHull (heap st c) /\
  hull (heap (updateNPCAI ship st) c) = hull (heap st c) /\
  (c ≠ ship -> aiState (heap (updateNPCAI ship st) c) = aiState (heap st c)).
Proof.
  unfold updateNPCAI. cbv zeta.
  repeat case_match; rewrite !heap_modify;
    destruct (Nat.eqb_spec c ship); by repeat split.
Qed.

(** After the NPC pass of a tick every listed hostile with
    hull/maxHull < 0.3 is in state [flee], wherever the ships are. *)
Lemma forEachShip_flee (l : list addr) (st st' : GameState) (a : addr) :
  forEachShip l st = Done st' ->
  a ≠ playerShip st ->
  faction (heap st a) = Hostile ->
  ~ maxHull (heap st a) == 0 ->
  hull (heap st a) / maxHull (heap st a) < 0.3 ->
  a ∈ l \/ aiState (heap st a) = Flee ->
  aiState (heap st' a) = Flee.
Proof.
  revert st. induction l as [|b l IH]; intros st Hrun Hnp Hf Hm Hr Hin.
  - cbn in Hrun. injection Hrun as <-.
    destruct Hin as [Hin|Hin]; [by apply elem_of_nil in Hin|done].
  - cbn [forEachShip] in Hrun.
    destruct (moveNPCShip b (updateNPCAI b st)) as [st2|] eqn:Hmove; [|done].
    cbn [bindO] in Hrun.
    destruct (updateNPCAI_frame b st a) as (Up & Uf & Um & Uh & Ua).
    destruct (moveNPCShip_frame b (updateNPCAI b st) st2 a Hmove)
      as (Mp & (M1 & M2 & M3) & Mh).
    apply (IH st2 Hrun).
    + congruence.
    + congruence.
    + rewrite M3, Um. done.
    + rewrite M3, Um, Mh, Uh by congruence. done.
    + destruct (decide (a = b)) as [->|Hab].
      * right. rewrite M2. by apply damaged_hostile_flees_at.
      * destruct Hin as [[->|Hin]%elem_of_cons|Hin]; [done|by left|].
        right. rewrite M2, Ua by done. done.
Qed.

Lemma updateNPCShips_flee (st st' : GameState) (a : addr) :
  updateNPCShips st = Done st' ->
  a ∈ ships st -> a ≠ playerShip st ->
  faction (heap st a) = Hostile ->
  ~ maxHull (heap st a) == 0 ->
  hull (heap st a) / maxHull (heap st a) < 0.3 ->
  aiState (heap st' a) = Flee.
Proof.
  intros Hrun Hin Hnp Hf Hm Hr.
  eapply forEachShip_flee; [exact Hrun|done..|by left].
Qed.

(** C4.  A hostile NPC with hull/maxHull < 0.3 is in state [flee] after the
    AI evaluation, whatever its distance to the player: the statement places
    no condition on the positions of the two ships.  The same holds at the
    end of the NPC pass of a tick, [updateNPCShips], for every listed ship:
    movement and NPC fire do not touch the decision. *)
Theorem damaged_hostile_flees (st : GameState) (ship : addr) :
  faction (heap st ship) = Hostile ->
  ~ maxHull (heap st ship) == 0 ->
  hull (heap st ship) / maxHull (heap st ship) < 0.3 ->
  aiState (heap (updateNPCAI ship st) ship) = Flee /\
  (forall st', updateNPCShips st = Done st' ->
               ship ∈ ships st -> ship ≠ playerShip st ->
               aiState (heap st' ship) = Flee).
Proof.
  intros Hf Hm Hr. split; [by apply damaged_hostile_flees_at|].
  intros st' Hrun Hin Hnp. by eapply updateNPCShips_flee.
Qed.

(** * Further properties of the core *)

(** ** Ship creation and lookup *)

Lemma orNumber_nonzero (a : option Q) (d : Q) : ~ d == 0 -> ~ orNumber a d == 0.
Proof.
  intros Hd. unfold orNumber. destruct a as [v|]; [|done].
  destruct (Qeq_bool v 0) eqn:E; [done|].
  by apply Qeq_bool_neq.
Qed.

Lemma orString_nonempty (a : option string) (s : string) :
  orString a None = Some s -> s ≠ "".
Proof.
  unfold orString. destruct a as [t|]; [|done].
  destruct (String.eqb t "") eqn:E; [done|].
  intros [= <-]. by apply String.eqb_neq.
Qed.

Lemma orNumber_cases (c : option Q) (d : Q) :
  (falsyNumber c -> orNumber c d = d) /\
  (forall v, c = Some v -> ~ v == 0 -> orNumber c d = v).
Proof.
  unfold orNumber, falsyNumber. destruct c as [a|].
  - split.
    + intros Ha. apply Qeq_bool_iff in Ha. by rewrite Ha.
    + intros v [= ->] Hv. destruct (Qeq_bool v 0) eqn:E; [|done].
      by apply Qeq_bool_iff in E.
  - by split.
Qed.

Lemma orString_cases (c : option string) :
  (falsyString c -> orString c None = None) /\
  (forall t, c = Some t -> t <> "" -> orString c None = Some t).
Proof.
  unfold orString, falsyString. split.
  - by intros [->| ->].
  - intros t -> Ht. apply String.eqb_neq in Ht. by rewrite Ht.
Qed.

(** X1.  The defaults of [createShip] are applied with [||], so a
    configured 0 or empty string counts as absent.  A missing or zero hull,
    maxHull, shieldStrength, maxShieldStrength, maxVelocity, turnRate or size
    becomes 100, 100, 100, 100, 5, 3, 20, and any other configured value is
    kept; so no ship leaves the factory with one of them equal to 0.  A
    missing or empty name or type becomes ['Unknown Vessel'] or ['frigate'].
    A missing or empty id is replaced by a freshly drawn UUID; a configured
    id is kept, and then no UUID is drawn. *)
Theorem createShip_replaces_zero (config : ShipConfig) (st : GameState) :
  let ship := fst (createShip config st) in
  (~ hull ship == 0 /\ ~ maxHull ship == 0 /\ ~ shieldStrength ship == 0 /\
   ~ maxShieldStrength ship == 0 /\ ~ maxVelocity ship == 0 /\ ~ turnRate ship == 0 /\
   ~ size ship == 0 /\ name ship ≠ "" /\ type ship ≠ "") /\
  ((falsyNumber (cfgHull config) -> hull ship = 100) /\
   (falsyNumber (cfgMaxHull config) -> maxHull ship = 100) /\
   (falsyNumber (cfgShieldStrength config) -> shieldStrength ship = 100) /\
   (falsyNumber (cfgMaxShieldStrength config) -> maxShieldStrength ship = 100) /\
   (falsyNumber (cfgMaxVelocity config) -> maxVelocity ship = 5) /\
   (falsyNumber (cfgTurnRate config) -> turnRate ship = 3) /\
   (falsyNumber (cfgSize config) -> size ship = 20)) /\
  (forall v, ~ v == 0 ->
     (cfgHull config = Some v -> hull ship = v) /\
     (cfgMaxHull config = Some v -> maxHull ship = v) /\
     (cfgShieldStrength config = Some v -> shieldStrength ship = v) /\
     (cfgMaxShieldStrength config = Some v -> maxShieldStrength ship = v) /\
     (cfgMaxVelocity config = Some v -> maxVelocity ship = v) /\
     (cfgTurnRate config = Some v -> turnRate ship = v) /\
     (cfgSize config = Some v -> size ship = v)) /\
  ((falsyString (cfgName config) -> name ship = "Unknown Vessel") /\
   (falsyString (cfgType config) -> type ship = "frigate") /\
   (forall t, t <> "" ->
      (cfgName config = Some t -> name ship = t) /\
      (cfgType config = Some t -> type ship = t))) /\
  (falsyString (cfgId config) ->
     id ship = uuidStream (uuidCalls st) /\
     snd (createShip config st) = withUuidCalls (S (uuidCalls st)) st) /\
  (forall i, cfgId config = Some i -> i <> "" ->
     id ship = i /\ snd (createShip config st) = st).
Proof.
  cbv zeta. split; [|split; [|split; [|split; [|split]]]].
  - unfold createShip.
    destruct (match orString (cfgId config) None with
              | Some i => (i, st)
              | None => randomUUID st
              end) as [i st1].
    cbn [fst hull maxHull shieldStrength maxShieldStrength maxVelocity turnRate size
         name type].
    split_and!; try (apply orNumber_nonzero; discriminate).
    + destruct (orString (cfgName config) None) eqn:E; cbn; [|done].
      by eapply orString_nonempty.
    + destruct (orString (cfgType config) None) eqn:E; cbn; [|done].
      by eapply orString_nonempty.
  - unfold createShip.
    destruct (match orString (cfgId config) None with
              | Some i => (i, st)
              | None => randomUUID st
              end) as [i st1].
    cbn [fst hull maxHull shieldStrength maxShieldStrength maxVelocity turnRate size].
    split_and!; intros H; by apply (proj1 (orNumber_cases _ _)).
  - intros v Hv. unfold createShip.
    destruct (match orString (cfgId config) None with
              | Some i => (i, st)
              | None => randomUUID st
              end) as [i st1].
    cbn [fst hull maxHull shieldStrength maxShieldStrength maxVelocity turnRate size].
    split_and!; intros H; by apply (proj2 (orNumber_cases _ _)).
  - unfold createShip.
    destruct (match orString (cfgId config) None with
              | Some i => (i, st)
              | None => randomUUID st
              end) as [i st1].
    cbn [fst name type].
    split_and!.
    + intros H. by rewrite (proj1 (orString_cases _) H).
    + intros H. by rewrite (proj1 (orString_cases _) H).
    + intros t Ht. split; intros H; by rewrite (proj2 (orString_cases _) t H Ht).
  - intros H. unfold createShip. rewrite (proj1 (orString_cases _) H).
    unfold randomUUID. by cbn.
  - intros i Hi Hne. unfold createShip. rewrite (proj2 (orString_cases _) i Hi Hne).
    by cbn.
Qed.

(** What [addShip] does to the world. *)
Lemma addShip_effect (config : ShipConfig) (st : GameState) :
  fst (addShip config st) = nextAddr st /\
  ships (snd (addShip config st)) = ships st ++ [nextAddr st] /\
  id (heap (snd (addShip config st)) (nextAddr st)) = createdId config st /\
  (forall b, b ≠ nextAddr st -> heap (snd (addShip config st)) b = heap st b) /\
  playerShip (snd (addShip config st)) = playerShip st /\
  currentTarget (snd (addShip config st)) = currentTarget st /\
  events (snd (addShip config st)) = ShipAdded (nextAddr st) :: events st.
Proof.
  unfold addShip, createShip, createdId, randomUUID.
  destruct (orString (cfgId config) None) as [i|];
    cbn [fst snd emit withEvents withUuidCalls uuidCalls nextAddr playerShip ships heap
         events currentTarget];
    rewrite Nat.eqb_refl; cbn [id];
    (split_and!; try done; intros b Hb; apply Nat.eqb_neq in Hb; by rewrite Hb).
Qed.

(** X2.  Lookup after insertion.  In a well-formed world, a ship added
    under an id that is fresh and not ['player'] is found by [getShip] under
    that id, at the address [addShip] returned; every ship that could be
    looked up before is still found at the same address, and the player
    still is. *)
Theorem getShip_after_addShip (config : ShipConfig) (st : GameState) :
  wellFormed st -> allocated st ->
  createdId config st ≠ "player" -> createdId config st ∉ shipIds st ->
  getShip (Some (createdId config st)) (snd (addShip config st)) =
    Some (fst (addShip config st)) /\
  (forall i a, getShip (Some i) st = Some a ->
               getShip (Some i) (snd (addShip config st)) = Some a) /\
  getShip (Some "player") (snd (addShip config st)) = Some (playerShip st).
Proof.
  intros (Hp & Hnp & Hnd) (Hpa & Hsa) Hc1 Hc2.
  destruct (addShip_effect config st) as (Ha & Hs & Hid & Hheap & Hpl & _).
  rewrite Forall_forall in Hsa.
  assert (Hold : forall b, b ∈ ships st ->
            id (heap (snd (addShip config st)) b) = id (heap st b)).
  { intros b Hb. rewrite Hheap; [done|]. specialize (Hsa b Hb). lia. }
  assert (Hpre : forall i,
            list_find (fun a => Some (id (heap (snd (addShip config st)) a)) = Some i) (ships st)
            = list_find (fun a => Some (id (heap st a)) = Some i) (ships st)).
  { intros i. generalize Hold. generalize (ships st) as l.
    induction l as [|b l IH]; intros Hl; [done|]. cbn.
    rewrite Hl by apply list_elem_of_here.
    case_decide; [done|]. f_equal. apply IH. intros c Hc. apply Hl. by right. }
  split_and!.
  - unfold getShip. rewrite decide_False by congruence.
    unfold findShipIndex. rewrite Hs, Ha.
    rewrite list_find_app_r.
    + cbn. rewrite decide_True by (by rewrite Hid). done.
    + rewrite Hpre. apply list_find_None, Forall_forall.
      intros b Hb [= Heq]. apply Hc2. rewrite <- Heq.
      unfold shipIds. by apply (list_elem_of_fmap_2 (fun a => id (heap st a))).
  - intros i a. unfold getShip. case_decide as Hi.
    + intros [= <-]. by rewrite Hpl.
    + unfold findShipIndex. rewrite Hs.
      destruct (list_find _ (ships st)) as [[k b]|] eqn:E; [|done].
      cbn. intros [= ->].
      rewrite <- Hpre in E. by erewrite list_find_app_l.
  - unfold getShip. rewrite decide_True by done. by rewrite Hpl.
Qed.

(** ** Removal *)

Lemma removeShip_absent (shipId : option string) (st : GameState) :
  findShipIndex shipId st = None -> removeShip shipId st = st.
Proof. intros H. unfold removeShip. by rewrite H. Qed.

Lemma removeShip_found (shipId : option string) (st : GameState) (i : nat) (a : addr) :
  findShipIndex shipId st = Some (i, a) ->
  ships (removeShip shipId st) = delete i (ships st) /\
  heap (removeShip shipId st) = heap st /\
  events (removeShip shipId st) = ShipDestroyed a :: events st /\
  currentTarget (removeShip shipId st) =
    (if decide (currentTarget st = shipId) then None else currentTarget st).
Proof.
  intros H. unfold removeShip. rewrite H. cbv zeta.
  cbn [currentTarget emit withEvents withShips].
  case_decide; by cbn.
Qed.

(** X3.  [removeShip] is idempotent.  In a world whose listed ships carry
    pairwise different ids, removing a ship takes it out of the list, emits
    one [shipDestroyed], and drops the target lock exactly when the lock was
    on that id; the id can no longer be found, and a second [removeShip]
    with the same id changes nothing.  An id that no listed ship carries is
    a no-op from the start. *)
Theorem removeShip_idempotent (shipId : string) (st : GameState) :
  NoDup (shipIds st) ->
  removeShip (Some shipId) (removeShip (Some shipId) st) = removeShip (Some shipId) st /\
  findShipIndex (Some shipId) (removeShip (Some shipId) st) = None /\
  (findShipIndex (Some shipId) st = None -> removeShip (Some shipId) st = st) /\
  (forall i a, findShipIndex (Some shipId) st = Some (i, a) ->
     ships (removeShip (Some shipId) st) = delete i (ships st) /\
     events (removeShip (Some shipId) st) = ShipDestroyed a :: events st /\
     currentTarget (removeShip (Some shipId) st) =
       (if decide (currentTarget st = Some shipId) then None else currentTarget st)).
Proof.
  intros Hnd.
  assert (Hgone : findShipIndex (Some shipId) (removeShip (Some shipId) st) = None).
  { destruct (findShipIndex (Some shipId) st) as [[i a]|] eqn:E.
    - destruct (removeShip_found _ _ _ _ E) as (Hs & Hh & _).
      unfold findShipIndex. rewrite Hs, Hh.
      apply list_find_Some in E as (Hi & [= Hid] & _).
      apply list_find_None, Forall_forall. intros b Hb [= Heq].
      eapply (delete_unique_ids (fun a => id (heap st a))); [exact Hnd|exact Hi|exact Hb|].
      congruence.
    - by rewrite removeShip_absent. }
  split_and!.
  - by apply removeShip_absent.
  - done.
  - apply removeShip_absent.
  - intros i a E. by destruct (removeShip_found _ _ _ _ E) as (? & _ & ? & ?).
Qed.

(** ** The comms log *)

Lemma removelast_take {A : Type} (l : list A) :
  removelast l = take (length l - 1) l.
Proof.
  induction l as [|a l IH]; [done|].
  destruct l as [|b l]; [done|].
  change (removelast (a :: b :: l)) with (a :: removelast (b :: l)).
  rewrite IH. cbn [length]. by rewrite !Nat.sub_succ, !Nat.sub_0_r.
Qed.

(** X4.  The comms log is capped.  [addCommsMessage] puts the new message
    first and, on a log that holds at most 50 entries, keeps the 50 newest
    in order: the log never grows beyond 50 and only the oldest entry is
    dropped. *)
Theorem commsLog_capped (from text : string) (ty : MsgType) (st : GameState) :
  (length (commsLog st) <= 50)%nat ->
  commsLog (addCommsMessage from text ty st) =
    take 50 (mkCommsMsg (uuidStream (uuidCalls st)) from text ty (gameTime st) false
               :: commsLog st) /\
  (length (commsLog (addCommsMessage from text ty st)) <= 50)%nat.
Proof.
  intros Hlen. unfold addCommsMessage, randomUUID. cbv zeta.
  cbn [commsLog withCommsLog withUuidCalls uuidCalls gameTime emit withEvents].
  set (m := mkCommsMsg _ _ _ _ _ _).
  destruct (Nat.ltb_spec 50 (length (m :: commsLog st))) as [Hgt|Hle];
    cbn [commsLog withCommsLog].
  - cbn [length] in Hgt. assert (length (commsLog st) = 50%nat) as Hl by lia.
    rewrite removelast_take. cbn [length]. rewrite Hl.
    split; [done|]. rewrite length_take. cbn [length]. lia.
  - split; [|done]. by rewrite take_ge.
Qed.

(** ** Power and repair *)

Lemma getSubsystem_put_same (n : string) (s s0 : Subsystem) (ss : Subsystems) :
  getSubsystem n ss = Some s0 -> getSubsystem n (putSubsystem n s ss) = Some s.
Proof.
  unfold getSubsystem, putSubsystem.
  destruct (String.eqb n "engines"); [done|].
  destruct (String.eqb n "weapons"); [done|].
  destruct (String.eqb n "shields"); [done|].
  destruct (String.eqb n "sensors"); done.
Qed.

Lemma getSubsystem_put_other (n m : string) (s : Subsystem) (ss : Subsystems) :
  n ≠ m -> getSubsystem m (putSubsystem n s ss) = getSubsystem m ss.
Proof.
  intros Hnm. unfold getSubsystem, putSubsystem.
  destruct (String.eqb_spec n "engines") as [->|];
    [apply not_eq_sym, String.eqb_neq in Hnm; by rewrite Hnm|].
  destruct (String.eqb_spec n "weapons") as [->|];
    [apply not_eq_sym, String.eqb_neq in Hnm; by rewrite Hnm|].
  destruct (String.eqb_spec n "shields") as [->|];
    [apply not_eq_sym, String.eqb_neq in Hnm; by rewrite Hnm|].
  destruct (String.eqb_spec n "sensors") as [->|];
    [apply not_eq_sym, String.eqb_neq in Hnm; by rewrite Hnm|done].
Qed.

Lemma clampPower_range (p : Q) :
  0 <= clampPower p /\ clampPower p <= 100 /\
  (0 <= p -> p <= 100 -> clampPower p == p).
Proof.
  unfold clampPower, Math_max, Math_min.
  destruct (Qleb 100 p) eqn:E1; [apply Qleb_le in E1|apply Qleb_gt in E1];
    qcases; split_and!; intros; lra.
Qed.

(** X5.  [setPower] clamps and touches one field.  For a subsystem that
    exists, the stored power afterwards is the requested value clamped to
    [0, 100] (the value itself when it is in that range); the subsystem's hp
    and maxHp and every other subsystem are as before, and one
    [powerChanged] carrying the clamped value is emitted. *)
Theorem setPower_clamps (systemName : string) (p : Q) (st : GameState) (s : Subsystem) :
  getSubsystem systemName (subsystems (heap st (playerShip st))) = Some s ->
  getSubsystem systemName (subsystems (heap (setPower systemName p st) (playerShip st))) =
    Some (mkSubsystem (hp s) (maxHp s) (clampPower p)) /\
  (0 <= clampPower p /\ clampPower p <= 100 /\
   (0 <= p -> p <= 100 -> clampPower p == p)) /\
  (forall other, other ≠ systemName ->
     getSubsystem other (subsystems (heap (setPower systemName p st) (playerShip st))) =
     getSubsystem other (subsystems (heap st (playerShip st)))) /\
  events (setPower systemName p st) = PowerChanged systemName (clampPower p) :: events st.
Proof.
  intros Hs. unfold setPower. rewrite Hs. cbv zeta.
  cbn [heap events emit withEvents]. rewrite heap_modify_eq.
  cbn [subsystems setSubsystems].
  split; [by erewrite getSubsystem_put_same|].
  split; [apply clampPower_range|].
  split; [|done].
  intros other Ho. by apply getSubsystem_put_other.
Qed.

(** X6.  Repair and its cooldown.  A repair of an existing, damaged
    subsystem with no cooldown running succeeds: hp rises by 25 but not above
    maxHp, a cooldown of 300 ticks starts, and [repairStarted] is emitted.  A
    second request right after it returns [false] and changes nothing: no
    second restoration is granted. *)
Theorem repair_starts_cooldown (systemName : string) (st : GameState) (s : Subsystem) :
  getSubsystem systemName (subsystems (heap st (playerShip st))) = Some s ->
  hp s < maxHp s ->
  (forall c, repairCooldowns st !! systemName = Some c -> (c <= 0)%Z) ->
  exists st1,
    repairSubsystem systemName st = Done (true, st1) /\
    getSubsystem systemName (subsystems (heap st1 (playerShip st1))) =
      Some (mkSubsystem (Math_min (maxHp s) (hp s + 25)) (maxHp s) (power s)) /\
    Math_min (maxHp s) (hp s + 25) <= maxHp s /\
    hp s < Math_min (maxHp s) (hp s + 25) /\
    repairCooldowns st1 !! systemName = Some 300%Z /\
    head (events st1) = Some (RepairStarted systemName) /\
    repairSubsystem systemName st1 = Done (false, st1).
Proof.
  intros Hs Hhp Hc.
  set (repaired := setHp (Math_min (maxHp s) (hp s + 25)) s).
  set (st0 := withRepairCooldowns (<[systemName := 300%Z]> (repairCooldowns st))
                (modify (playerShip st)
                   (fun s0 => setSubsystems (putSubsystem systemName repaired (subsystems s0)) s0)
                   st)).
  set (st1 := addCommsMessage "ENGINEERING" ("Repairing " ++ systemName ++ "...") MsgInfo st0).
  assert (Hrun : repairSubsystem systemName st = Done (true, emit (RepairStarted systemName) st1)).
  { unfold repairSubsystem.
    assert (match repairCooldowns st !! systemName with
            | Some c => Z.ltb 0 c | None => false end = false) as ->.
    { destruct (repairCooldowns st !! systemName) as [c|]; [|done].
      apply Z.ltb_ge. by apply Hc. }
    rewrite Hs. apply Qleb_gt in Hhp as Hhp'. by rewrite Hhp'. }
  destruct (addCommsMessage_effect "ENGINEERING" ("Repairing " ++ systemName ++ "...")
              MsgInfo st0) as (Hh & _ & Hp & _ & _ & _ & _ & _ & Hrc & _).
  fold st1 in Hh, Hp, Hrc.
  assert (Hcd : repairCooldowns st1 !! systemName = Some 300%Z).
  { rewrite Hrc. subst st0. cbn [repairCooldowns withRepairCooldowns]. apply lookup_insert_eq. }
  clearbody st1.
  exists (emit (RepairStarted systemName) st1).
  change (heap (emit ?e ?x)) with (heap x).
  change (playerShip (emit ?e ?x)) with (playerShip x).
  change (repairCooldowns (emit ?e ?x)) with (repairCooldowns x).
  split_and!.
  - exact Hrun.
  - rewrite Hh, Hp. subst st0. cbn [heap playerShip withRepairCooldowns].
    rewrite heap_modify_eq. cbn [subsystems setSubsystems].
    by erewrite getSubsystem_put_same.
  - apply Math_min_le_l.
  - unfold Math_min. qcases; lra.
  - exact Hcd.
  - done.
  - unfold repairSubsystem.
    change (repairCooldowns (emit ?e ?x)) with (repairCooldowns x).
    by rewrite Hcd.
Qed.

Lemma updateRepairCooldowns_loop (st : GameState) :
  updateRepairCooldowns st = map_fold cooldownStep st (repairCooldowns st).
Proof. reflexivity. Qed.

(** The loop of [updateRepairCooldowns], entry by entry. *)
Lemma updateRepairCooldowns_fold (st : GameState) (m : gmap string Z) :
  m ⊆ repairCooldowns st ->
  repairCooldowns (map_fold cooldownStep st m) = (coolDown <$> m) ∪ repairCooldowns st /\
  heap (map_fold cooldownStep st m) = heap st /\
  ships (map_fold cooldownStep st m) = ships st /\
  playerShip (map_fold cooldownStep st m) = playerShip st /\
  projectiles (map_fold cooldownStep st m) = projectiles st /\
  phaserBeams (map_fold cooldownStep st m) = phaserBeams st /\
  events (map_fold cooldownStep st m) = events st /\
  commsLog (map_fold cooldownStep st m) = commsLog st /\
  alertLevel (map_fold cooldownStep st m) = alertLevel st /\
  gameTime (map_fold cooldownStep st m) = gameTime st /\
  exists k, sounds (map_fold cooldownStep st m) = replicate k PlayRepairComplete ++ sounds st.
Proof.
  revert m.
  apply (map_fold_weak_ind
    (fun r m => m ⊆ repairCooldowns st ->
       repairCooldowns r = (coolDown <$> m) ∪ repairCooldowns st /\
       heap r = heap st /\ ships r = ships st /\ playerShip r = playerShip st /\
       projectiles r = projectiles st /\ phaserBeams r = phaserBeams st /\
       events r = events st /\ commsLog r = commsLog st /\
       alertLevel r = alertLevel st /\ gameTime r = gameTime st /\
       exists k, sounds r = replicate k PlayRepairComplete ++ sounds st)).
  - intros _. rewrite fmap_empty, (left_id_L ∅ (∪)).
    split_and!; try done. by exists O.
  - intros i c m r Hi IH Hsub.
    assert (Hm : m ⊆ repairCooldowns st).
    { etrans; [|exact Hsub]. by apply insert_subseteq. }
    assert (Hic : repairCooldowns st !! i = Some c).
    { eapply lookup_weaken; [|exact Hsub]. apply lookup_insert_eq. }
    destruct (IH Hm) as (Hrc & Hh & Hs & Hp & Hpr & Hb & He & Hcl & Hal & Hg & k & Hk).
    rewrite fmap_insert. unfold coolDown at 1. unfold cooldownStep.
    destruct (Z.ltb 0 c) eqn:Ec.
    + assert (Hrc' : <[i:=(c - 1)%Z]> (repairCooldowns r) =
                     <[i:=(c - 1)%Z]> (coolDown <$> m) ∪ repairCooldowns st).
      { rewrite Hrc. by rewrite insert_union_l. }
      destruct (Z.eqb (c - 1) 0);
        cbn [repairCooldowns heap ships playerShip projectiles phaserBeams events commsLog
             alertLevel gameTime sounds play withSounds withRepairCooldowns];
        (split_and!; try done).
      * exists (S k). by rewrite Hk.
      * by exists k.
    + split_and!; try done; [|by exists k].
      rewrite Hrc. apply map_eq. intros j.
      destruct (decide (i = j)) as [<-|Hij].
      * rewrite !lookup_union, lookup_insert_eq, lookup_fmap, Hi, Hic. done.
      * rewrite !lookup_union, lookup_insert_ne by done. done.
Qed.

(** X7.  Cooldowns tick down and stop at 0.  One [updateRepairCooldowns]
    lowers every positive cooldown by 1 and leaves the others alone, touching
    nothing else in the world but the sound log; so a cooldown of [c] ticks is
    at 0 after [c] ticks, stays there, and a cooldown that is not positive
    never blocks a repair. *)
Theorem cooldowns_tick_down (st : GameState) :
  repairCooldowns (updateRepairCooldowns st) = coolDown <$> repairCooldowns st /\
  heap (updateRepairCooldowns st) = heap st /\
  ships (updateRepairCooldowns st) = ships st /\
  events (updateRepairCooldowns st) = events st /\
  (forall systemName c n,
     repairCooldowns st !! systemName = Some c -> (0 <= c <= Z.of_nat n)%Z ->
     repairCooldowns (Nat.iter n updateRepairCooldowns st) !! systemName = Some 0%Z).
Proof.
  assert (Hone : forall s, repairCooldowns (updateRepairCooldowns s) =
                           coolDown <$> repairCooldowns s).
  { intros s. destruct (updateRepairCooldowns_fold s (repairCooldowns s)) as (H & _); [done|].
    rewrite updateRepairCooldowns_loop, H.
    apply map_eq. intros j. rewrite lookup_union, lookup_fmap.
    by destruct (repairCooldowns s !! j). }
  destruct (updateRepairCooldowns_fold st (repairCooldowns st))
    as (_ & Hh & Hs & _ & _ & _ & He & _); [done|].
  rewrite <- updateRepairCooldowns_loop in Hh, Hs, He.
  split_and!; [apply Hone|exact Hh|exact Hs|exact He|].
  clear Hh Hs He.
  intros systemName c n. revert st c.
  induction n as [|n IH]; intros st c Hc Hb.
  - cbn. rewrite Hc. f_equal. lia.
  - rewrite Nat.iter_succ_r.
    apply (IH (updateRepairCooldowns st) (coolDown c)).
    + by rewrite Hone, lookup_fmap, Hc.
    + unfold coolDown. destruct (Z.ltb_spec 0 c); lia.
Qed.

(** ** More on the damage pipeline *)

(** X8.  What a hit takes.  [damageShip] leaves in the damaged object the
    shield strength it had minus the absorption
    min(shieldStrength, damage x shield power/100 x 0.8), and the hull it had
    minus the rest of the damage, damage - absorption -- or exactly 0 when
    that difference is 0 or below.  The absorption never exceeds the shield
    strength nor 0.8 x shield power/100 of the damage. *)
Theorem hit_taken_by_shields_then_hull (st : GameState) (ship : addr) (damage : Q) :
  let s := heap st ship in
  let s' := heap (damageShip ship damage st) ship in
  let absorb := Math_min (shieldStrength s)
                  (damage * (power (shields (subsystems s)) / 100) * 0.8) in
  shieldStrength s' = shieldStrength s - absorb /\
  (hull s - (damage - absorb) <= 0 -> hull s' = 0) /\
  (0 < hull s - (damage - absorb) -> hull s' = hull s - (damage - absorb)) /\
  absorb <= shieldStrength s /\
  absorb <= damage * (power (shields (subsystems s)) / 100) * 0.8.
Proof.
  cbv zeta. rewrite damageShip_heap, Nat.eqb_refl, hull_damagedShip.
  destruct (damagedShip_fields (randomCalls st) damage (heap st ship)) as [-> _].
  unfold hullAfterHit, shieldAbsorbOf.
  set (a := Math_min _ _).
  split; [done|]. split; [|split; [|split]].
  - intros H. apply Qleb_le in H. by rewrite H.
  - intros H. apply Qleb_gt in H. by rewrite H.
  - subst a. unfold Math_min. qcases; lra.
  - subst a. unfold Math_min. qcases; lra.
Qed.

Lemma systemAt_known (k : Z) (ss : Subsystems) : is_Some (getSubsystem (systemAt k) ss).
Proof.
  unfold systemAt. repeat case_match; by eexists.
Qed.

(** X9.  Subsystem damage is bounded.  [damageShip] never changes the
    power or maxHp of a subsystem; the hp of a subsystem either stays or
    drops to max(0, hp - hullDamage/2), so it never rises and never goes
    below 0 from a non-negative value; and a hit whose hull damage is at most
    5 leaves every subsystem as it was. *)
Theorem subsystem_damage_bounded (st : GameState) (ship : addr) (damage : Q)
    (systemName : string) (sys : Subsystem) :
  getSubsystem systemName (subsystems (heap st ship)) = Some sys ->
  (exists sys',
     getSubsystem systemName (subsystems (heap (damageShip ship damage st) ship)) = Some sys' /\
     power sys' = power sys /\ maxHp sys' = maxHp sys /\
     (0 <= hp sys -> 0 <= hp sys' /\ hp sys' <= hp sys)) /\
  (damage - shieldAbsorbOf damage (heap st ship) <= 5 ->
   subsystems (heap (damageShip ship damage st) ship) = subsystems (heap st ship)).
Proof.
  intros Hs. rewrite damageShip_heap, Nat.eqb_refl.
  destruct (damagedShip_fields (randomCalls st) damage (heap st ship)) as [_ ->].
  set (hd := damage - shieldAbsorbOf damage (heap st ship)).
  unfold subsystemHit.
  destruct (Qltb 5 hd) eqn:E5; [apply Qltb_lt in E5|apply Qltb_ge in E5].
  - split; [|intros; lra].
    destruct (Qltb _ 0.3).
    + unfold damageSubsystem.
      set (hit := systemAt _).
      destruct (systemAt_known (Math_floor (randomValue (S (randomCalls st)) * 4))
                  (subsystems (heap st ship))) as [sys0 Hsys0].
      fold hit in Hsys0. rewrite Hsys0. cbn [subsystems setSubsystems].
      destruct (decide (hit = systemName)) as [Heq|Hne].
      * rewrite Heq in *. erewrite getSubsystem_put_same by done.
        assert (sys0 = sys) as -> by congruence.
        eexists. split; [reflexivity|]. cbn [power maxHp hp setHp].
        split_and!; [done|done|]. intros Hhp. unfold Math_max. qcases; lra.
      * rewrite getSubsystem_put_other by done.
        exists sys. split_and!; [done..|]. intros; lra.
    + exists sys. split_and!; [done..|]. intros; lra.
  - split; [|done]. exists sys. split_and!; [done..|]. intros; lra.
Qed.

Lemma currentTarget_randomSubsystemDamage (ship : addr) (hullDamage : Q) (st : GameState) :
  currentTarget (randomSubsystemDamage ship hullDamage st) = currentTarget st.
Proof.
  unfold randomSubsystemDamage, Math_random.
  repeat case_match; try done.
  match goal with
  | |- context [addCommsMessage ?a ?b ?c ?s0] =>
      by destruct (addCommsMessage_effect a b c s0) as (_ & _ & _ & _ & _ & -> & _)
  end.
Qed.

Lemma getShip_null (st : GameState) : getShip None st = None.
Proof.
  unfold getShip. rewrite decide_False by done.
  assert (findShipIndex None st = None) as ->; [|done].
  apply list_find_None, Forall_forall. by intros b _.
Qed.

(** X10.  Destroying the locked target releases the lock.  When
    [damageShip] takes a listed ship to 0 hull and the target lock was on that
    ship's id, the lock is [null] afterwards, and a phaser command that
    names no target then fails; a lock on any other id is kept. *)
Theorem destroyed_target_unlocked (st : GameState) (ship : addr) (damage : Q) (i : nat) :
  wellFormed st ->
  ships st !! i = Some ship ->
  hull (heap (damageShip ship damage st) ship) == 0 ->
  currentTarget (damageShip ship damage st) =
    (if decide (currentTarget st = Some (id (heap st ship)))
     then None else currentTarget st) /\
  (currentTarget st = Some (id (heap st ship)) ->
   fst (fireWeapon "phaser" None (damageShip ship damage st)) = false).
Proof.
  intros (Hp & Hnp & Hnd) Hi Hzero%hull_zero_after_hit.
  destruct (damageShipBody_facts ship damage st)
    as (Hships & Hplayer & Hids & Hhull & l & Hev & _).
  assert (Hct : currentTarget (damageShipBody ship damage st) = currentTarget st).
  { unfold damageShipBody, absorbDamage. cbn [currentTarget emit withEvents].
    by rewrite currentTarget_randomSubsystemDamage. }
  assert (Hidship : id (heap st ship) ≠ "player").
  { intros Heq. apply Hnp. unfold shipIds. rewrite <- Heq.
    apply (list_elem_of_fmap_2 (fun a => id (heap st a))).
    by eapply list_elem_of_lookup_2. }
  assert (Hres : currentTarget (damageShip ship damage st) =
                 (if decide (currentTarget st = Some (id (heap st ship)))
                  then None else currentTarget st)).
  { rewrite damageShip_split.
    set (st1 := damageShipBody ship damage st) in *.
    unfold checkDestruction. rewrite <- Hhull in Hzero.
    apply Qleb_le in Hzero. rewrite Hzero.
    rewrite heap_modify_eq. cbn [id setHull]. rewrite Hids.
    apply String.eqb_neq in Hidship. rewrite Hidship. cbn [negb]. cbv zeta.
    match goal with
    | |- context [addCommsMessage ?a ?b ?c ?s0] =>
        destruct (addCommsMessage_effect a b c s0) as (_ & _ & _ & _ & _ & -> & _)
    end.
    assert (Hfind : findShipIndex (Some (id (heap st ship))) (modify ship (setHull 0) st1)
                    = Some (i, ship)).
    { rewrite (findShipIndex_ext st (modify ship (setHull 0) st1)).
      - by apply findShipIndex_unique.
      - done.
      - intros b. rewrite heap_modify.
        destruct (Nat.eqb_spec b ship) as [->|]; cbn [id setHull]; apply Hids. }
    destruct (removeShip_found _ _ _ _ Hfind) as (_ & _ & _ & ->).
    cbn [currentTarget modify withHeap]. by rewrite Hct. }
  split; [exact Hres|].
  intros Hlock. rewrite decide_True in Hres by done.
  unfold fireWeapon. cbv zeta.
  destruct (Qleb _ 0 || Qleb _ 0); [done|].
  change (String.eqb "phaser" "phaser") with true. cbv iota.
  rewrite Hres. cbn [orString]. by rewrite getShip_null.
Qed.

(** ** Torpedoes *)

Lemma stepProjectile_hit_eq (st : GameState) (i : nat) (proj0 : Projectile) (tgt : addr) :
  projectiles st !! i = Some proj0 ->
  firstCollision st (moveProjectile proj0) tgt ->
  stepProjectile i st =
  withProjectiles (delete i (projectiles st))
    (play PlayExplosion
       (damageShip tgt (projDamage (moveProjectile proj0))
          (withProjectiles (<[i := moveProjectile proj0]> (projectiles st)) st))).
Proof.
  intros Hi Hc%collision_find. unfold stepProjectile. rewrite Hi. cbv zeta.
  change (find _ _) with
    (find (collides st (moveProjectile proj0)) (projectileTargets st (moveProjectile proj0))).
  rewrite Hc. cbn [orb].
  set (st0 := withProjectiles _ st).
  destruct (untouched_damageShip tgt (projDamage (moveProjectile proj0)) st0) as (Hp & _).
  cbn [projectiles play withSounds]. rewrite Hp.
  unfold st0 at 1. cbn [projectiles withProjectiles].
  f_equal. apply list_eq. intros j. rewrite !list_lookup_delete.
  case_decide; rewrite list_lookup_insert_ne; auto; lia.
Qed.

Lemma wellFormed_player_not_listed (st : GameState) :
  wellFormed st -> playerShip st ∉ ships st.
Proof.
  intros (Hp & Hnp & _) Hin. apply Hnp. rewrite <- Hp.
  by apply (list_elem_of_fmap_2 (fun a => id (heap st a))).
Qed.

(** One iteration of the projectile loop on a world whose projectiles are
    all the player's. *)
Lemma stepProjectile_own (st : GameState) (i : nat) (proj0 : Projectile) :
  wellFormed st ->
  Forall (fun p => sourceId p = "player") (projectiles st) ->
  projectiles st !! i = Some proj0 ->
  wellFormed (stepProjectile i st) /\
  Forall (fun p => sourceId p = "player") (projectiles (stepProjectile i st)) /\
  playerShip (stepProjectile i st) = playerShip st /\
  heap (stepProjectile i st) (playerShip st) = heap st (playerShip st).
Proof.
  intros Hwf Hall Hi.
  assert (Hsrc : sourceId proj0 = "player").
  { rewrite Forall_forall in Hall. apply Hall. by eapply list_elem_of_lookup_2. }
  assert (Hdel : Forall (fun p => sourceId p = "player") (delete i (projectiles st))).
  { rewrite Forall_forall in *. intros p Hp. apply Hall.
    by eapply list_elem_of_delete_inv. }
  destruct (collision_cases st (moveProjectile proj0)) as [[tgt Hc]|Hc].
  - rewrite (stepProjectile_hit_eq st i proj0 tgt Hi Hc).
    set (st0 := withProjectiles (<[i := moveProjectile proj0]> (projectiles st)) st).
    assert (Hwf0 : wellFormed st0) by exact Hwf.
    assert (Htgt : tgt ≠ playerShip st).
    { destruct Hc as (l1 & l2 & Ht & _).
      unfold opposingSet in Ht. cbn [sourceId moveProjectile] in Ht.
      rewrite decide_True in Ht by exact Hsrc. intros ->.
      apply (wellFormed_player_not_listed st Hwf). rewrite Ht.
      apply elem_of_app. right. apply list_elem_of_here. }
    split_and!.
    + apply (wellFormed_damageShip tgt (projDamage (moveProjectile proj0)) st0 Hwf0).
    + exact Hdel.
    + cbn [playerShip withProjectiles play withSounds]. by rewrite playerShip_damageShip.
    + cbn [heap withProjectiles play withSounds]. rewrite damageShip_heap.
      apply not_eq_sym, Nat.eqb_neq in Htgt. by rewrite Htgt.
  - rewrite (stepProjectile_miss st i proj0 Hi Hc).
    split_and!; [exact Hwf| |done|done].
    cbn [projectiles withProjectiles]. destruct (Z.leb _ 0); [exact Hdel|].
    rewrite Forall_forall in *. intros p [j Hj]%list_elem_of_lookup_1.
    apply list_lookup_insert_Some in Hj as [(_ & <- & _)|(_ & Hj)].
    + cbn [sourceId moveProjectile]. exact Hsrc.
    + apply Hall. by eapply list_elem_of_lookup_2.
Qed.

Lemma projectileLoop_own (k : nat) (st : GameState) :
  (k <= length (projectiles st))%nat ->
  wellFormed st ->
  Forall (fun p => sourceId p = "player") (projectiles st) ->
  wellFormed (projectileLoop k st) /\
  Forall (fun p => sourceId p = "player") (projectiles (projectileLoop k st)) /\
  playerShip (projectileLoop k st) = playerShip st /\
  heap (projectileLoop k st) (playerShip st) = heap st (playerShip st).
Proof.
  revert st. induction k as [|i IH]; intros st Hk Hwf Hall; [done|].
  destruct (lookup_lt_is_Some_2 (projectiles st) i) as [proj0 Hi]; [lia|].
  destruct (stepProjectile_own st i proj0 Hwf Hall Hi) as (Hwf1 & Hall1 & Hp1 & Hh1).
  destruct (stepProjectile_shape st i proj0 Hi) as (_ & keep & _ & Hshape & _).
  cbn [projectileLoop].
  destruct (IH (stepProjectile i st)) as (Hwf2 & Hall2 & Hp2 & Hh2); [|done|done|].
  { rewrite Hshape, length_app, length_take. lia. }
  split_and!; [done|done|congruence|]. rewrite <- Hh1, <- Hp1. exact Hh2.
Qed.

(** X11.  The player's torpedoes are never turned on the player.  With
    weapons online a torpedo launch always succeeds, needs no target, adds
    exactly one projectile (damage 30 x weapons effectiveness, lifetime 300,
    source ['player']) and damages nothing; and while every projectile in
    flight is the player's, a projectile update leaves the player object
    untouched and the world well-formed. *)
Theorem own_torpedoes_spare_player (tgtId : option string) (st : GameState) :
  wellFormed st ->
  Forall (fun p => sourceId p = "player") (projectiles st) ->
  (0 < hp (weapons (subsystems (heap st (playerShip st)))) ->
   0 < power (weapons (subsystems (heap st (playerShip st)))) ->
   fst (fireWeapon "torpedo" tgtId st) = true /\
   heap (snd (fireWeapon "torpedo" tgtId st)) = heap st /\
   ships (snd (fireWeapon "torpedo" tgtId st)) = ships st /\
   exists p,
     projectiles (snd (fireWeapon "torpedo" tgtId st)) = projectiles st ++ [p] /\
     sourceId p = "player" /\ lifetime p = 300%Z /\
     projDamage p = 30 * getSystemEffectiveness (heap st (playerShip st)) weapons) /\
  heap (updateProjectiles st) (playerShip st) = heap st (playerShip st) /\
  Forall (fun p => sourceId p = "player") (projectiles (updateProjectiles st)) /\
  wellFormed (updateProjectiles st).
Proof.
  intros Hwf Hall. split.
  - intros Hhp Hpw. unfold fireWeapon. cbv zeta.
    apply Qleb_gt in Hhp, Hpw. rewrite Hhp, Hpw. cbn [orb].
    change (String.eqb "torpedo" "phaser") with false.
    change (String.eqb "torpedo" "torpedo") with true. cbv iota.
    unfold createProjectile, randomUUID. cbv beta iota zeta.
    cbn [fst snd heap ships projectiles emit withEvents withProjectiles withUuidCalls].
    split_and!; [done..|]. eexists. split; [reflexivity|]. by cbn.
  - destruct (projectileLoop_own (length (projectiles st)) st) as (H1 & H2 & _ & H4);
      [done..|].
    by split_and!.
Qed.

(** ** Evolution of the world through a tick *)

Lemma evolves_refl (st : GameState) : evolves st st.
Proof. by repeat split. Qed.

Lemma evolves_trans (st1 st2 st3 : GameState) :
  evolves st1 st2 -> evolves st2 st3 -> evolves st1 st3.
Proof.
  intros (P1 & S1 & H1) (P2 & S2 & H2). split_and!; [congruence|by etrans|].
  intros a. destruct (H1 a) as (I1 & R1 & V1), (H2 a) as (I2 & R2 & V2).
  split_and!; [congruence|congruence|auto].
Qed.

Lemma validPatrol_inert (f : Ship -> Ship) (s : Ship) :
  inert f -> validPatrol s -> validPatrol (f s).
Proof.
  intros Hf. destruct (Hf s) as (_ & Hr & Hi). unfold validPatrol. by rewrite Hr, Hi.
Qed.

Lemma evolves_modify (a : addr) (f : Ship -> Ship) (st : GameState) :
  inert f -> evolves st (modify a f st).
Proof.
  intros Hf. split_and!; [done|done|]. intros b. rewrite heap_modify.
  destruct (Nat.eqb b a); [|by repeat split].
  destruct (Hf (heap st b)) as (? & ? & ?).
  split_and!; [done|done|by apply validPatrol_inert].
Qed.

(** A step that leaves the object store, the ship list and the player
    address alone. *)
Lemma evolves_same (st st' : GameState) :
  heap st' = heap st -> ships st' = ships st -> playerShip st' = playerShip st ->
  evolves st st'.
Proof. intros Hh Hs Hp. unfold evolves. rewrite Hh, Hs, Hp. by repeat split. Qed.

Lemma evolves_addCommsMessage (from text : string) (ty : MsgType) (st : GameState) :
  evolves st (addCommsMessage from text ty st).
Proof.
  destruct (addCommsMessage_effect from text ty st) as (Hh & Hs & Hp & _).
  by apply evolves_same.
Qed.

Lemma inert_setters :
  (forall v, inert (setX v)) /\ (forall v, inert (setY v)) /\
  (forall v, inert (setHeadingField v)) /\ (forall v, inert (setVelocity v)) /\
  (forall v, inert (setHull v)) /\ (forall v, inert (setShieldStrength v)) /\
  (forall v, inert (setSubsystems v)) /\ (forall v, inert (setAiState v)) /\
  (forall v, inert (setShipTarget v)).
Proof. by repeat split. Qed.

Lemma inert_damagedShip (n : nat) (d : Q) : inert (damagedShip n d).
Proof.
  intros s. destruct (damagedShip_shape n d s) as (ss & h & sh & ->). by repeat split.
Qed.

Lemma evolves_heap_update (st st' : GameState) (a : addr) (f : Ship -> Ship) :
  inert f ->
  playerShip st' = playerShip st -> ships st' `sublist_of` ships st ->
  (forall b, heap st' b = if Nat.eqb b a then f (heap st a) else heap st b) ->
  evolves st st'.
Proof.
  intros Hf Hp Hs Hh. split_and!; [done|done|]. intros b. rewrite Hh.
  destruct (Nat.eqb_spec b a) as [->|]; [|by repeat split].
  destruct (Hf (heap st a)) as (? & ? & ?).
  split_and!; [done|done|by apply validPatrol_inert].
Qed.

Lemma evolves_damageShip (ship : addr) (damage : Q) (st : GameState) :
  evolves st (damageShip ship damage st).
Proof.
  apply (evolves_heap_update st _ ship (damagedShip (randomCalls st) damage)).
  - apply inert_damagedShip.
  - apply playerShip_damageShip.
  - rewrite damageShip_split.
    destruct (damageShipBody_facts ship damage st) as (Hs & _).
    destruct (ships_checkDestruction_cases ship (damageShipBody ship damage st))
      as [->|[i ->]]; rewrite Hs; [done|apply sublist_delete].
  - intros b. apply damageShip_heap.
Qed.

Lemma evolves_wellFormed (st st' : GameState) :
  evolves st st' -> wellFormed st -> wellFormed st'.
Proof.
  intros (Hp & Hs & Hh) (Hid & Hnp & Hnd).
  assert (Hsub : shipIds st' `sublist_of` shipIds st).
  { unfold shipIds.
    rewrite (list_fmap_ext (fun a => id (heap st' a)) (fun a => id (heap st a)) (ships st'))
      by (intros ? b _; apply Hh).
    by apply fmap_sublist. }
  unfold wellFormed. rewrite Hp. destruct (Hh (playerShip st)) as (-> & _).
  split_and!; [done| |by eapply sublist_NoDup].
  intros Hin. apply Hnp. by eapply elem_of_sublist.
Qed.

Lemma evolves_validPatrol (st st' : GameState) :
  evolves st st' -> (forall a, validPatrol (heap st a)) -> forall a, validPatrol (heap st' a).
Proof. intros (_ & _ & Hh) Hv a. by apply Hh. Qed.

Lemma evolves_updateNPCAI (ship : addr) (st : GameState) : evolves st (updateNPCAI ship st).
Proof.
  unfold updateNPCAI. cbv zeta.
  repeat case_match;
    repeat (eapply evolves_trans; [|apply evolves_modify; by intros ?]);
    apply evolves_refl.
Qed.

Lemma evolves_play (snd : Sound) (st : GameState) : evolves st (play snd st).
Proof. by apply evolves_same. Qed.

Lemma evolves_emit (e : Event) (st : GameState) : evolves st (emit e st).
Proof. by apply evolves_same. Qed.

Lemma evolves_withProjectiles (l : list Projectile) (st : GameState) :
  evolves st (withProjectiles l st).
Proof. by apply evolves_same. Qed.

Lemma evolves_withPhaserBeams (l : list Beam) (st : GameState) :
  evolves st (withPhaserBeams l st).
Proof. by apply evolves_same. Qed.

Lemma evolves_withRandomCalls (n : nat) (st : GameState) :
  evolves st (withRandomCalls n st).
Proof. by apply evolves_same. Qed.

Lemma evolves_npcFireAtPlayer (ship : addr) (st : GameState) :
  evolves st (npcFireAtPlayer ship st).
Proof.
  unfold npcFireAtPlayer. cbv zeta.
  destruct (Qleb _ 0); [apply evolves_refl|].
  destruct (distLt _ 400); [|apply evolves_refl].
  match goal with
  | |- evolves _ (play _ (damageShip ?p ?d ?s)) =>
      apply (evolves_trans _ s); [apply evolves_withPhaserBeams|];
      apply (evolves_trans _ (damageShip p d s)); [apply evolves_damageShip|]
  end.
  apply evolves_play.
Qed.

Lemma evolves_advancePatrol (ship : addr) (st : GameState) :
  (0 < length (patrolPoints (heap st ship)))%nat ->
  evolves st
    (modify ship
       (fun s => setPatrolIndex ((patrolIndex s + 1) mod length (patrolPoints s))%nat s) st).
Proof.
  intros Hlen. split_and!; [done|done|]. intros b. rewrite heap_modify.
  destruct (Nat.eqb_spec b ship) as [->|]; [|by repeat split].
  cbn [id patrolPoints setPatrolIndex]. split_and!; [done|done|].
  intros _. right. cbn [patrolIndex patrolPoints setPatrolIndex].
  apply Nat.mod_upper_bound. lia.
Qed.

Lemma evolves_chooseTarget (ship : addr) (e : Q) (st st1 : GameState) (tgt : option (Q * Q)) :
  chooseTarget ship e st = Done (st1, tgt) -> evolves st st1.
Proof.
  unfold chooseTarget. cbv zeta.
  destruct (aiState (heap st ship)).
  - destruct (Nat.ltb_spec 0 (length (patrolPoints (heap st ship)))) as [Hlen|Hlen].
    + destruct (_ !! _) as [point|]; [|done]. intros [= <- <-].
      eapply evolves_trans; [|apply evolves_modify; by intros ?].
      destruct (distLt _ 30); [by apply evolves_advancePatrol|apply evolves_refl].
    + intros [= <- <-]. apply evolves_modify. by intros ?.
  - case_decide; intros [= <- <-]; [|apply evolves_refl].
    apply evolves_modify. by intros ?.
  - case_decide; intros [= <- <-]; [|apply evolves_refl].
    set (st1 := modify ship _ st).
    apply (evolves_trans _ st1); [apply evolves_modify; by intros ?|].
    clearbody st1.
    destruct (distLt _ 400); [|apply evolves_refl].
    unfold Math_random. cbv beta iota zeta.
    destruct (Qltb _ 0.02); [|apply evolves_withRandomCalls].
    eapply evolves_trans; [apply evolves_withRandomCalls|apply evolves_npcFireAtPlayer].
  - intros [= <- <-]. apply evolves_modify. by intros ?.
Qed.

Lemma evolves_steer (ship : addr) (e tx ty : Q) (st : GameState) :
  evolves st (steer ship e tx ty st).
Proof.
  unfold steer. cbv zeta.
  repeat (eapply evolves_trans; [|apply evolves_modify; by intros ?]).
  destruct (Qltb (Math_abs _) _); apply evolves_modify; by intros ?.
Qed.

Lemma evolves_moveNPCShip (ship : addr) (st st' : GameState) :
  moveNPCShip ship st = Done st' -> evolves st st'.
Proof.
  unfold moveNPCShip. cbv zeta.
  destruct (chooseTarget ship _ st) as [[st1 tgt]|] eqn:Hc; [|done].
  cbn [bindO]. intros [= <-].
  repeat (eapply evolves_trans; [|apply evolves_modify; by intros ?]).
  eapply evolves_trans; [by eapply evolves_chooseTarget|].
  destruct tgt as [[tx ty]|]; [apply evolves_steer|apply evolves_refl].
Qed.

(** [moveNPCShip] raises exactly on a patrolling ship whose index lies
    outside its non-empty route. *)
Lemma moveNPCShip_raises (ship : addr) (st : GameState) :
  moveNPCShip ship st = TypeError <->
  aiState (heap st ship) = Patrol /\ ~ validPatrol (heap st ship).
Proof.
  split.
  - intros Hraise. destruct (decide (aiState (heap st ship) = Patrol)) as [Hp|Hp].
    + split; [done|]. intros Hv.
      destruct (moveNPCShip_returns ship st Hv) as [st' Hst']. congruence.
    + exfalso. revert Hraise. unfold moveNPCShip, chooseTarget. cbv zeta.
      destruct (aiState (heap st ship)); [done|..]; repeat case_match; done.
  - intros [Hp Hv]. unfold moveNPCShip, chooseTarget. cbv zeta. rewrite Hp.
    destruct (Nat.ltb_spec 0 (length (patrolPoints (heap st ship)))) as [Hlen|Hlen].
    + destruct (_ !! _) as [point|] eqn:E; [|done].
      destruct Hv. right. by eapply lookup_lt_Some.
    + destruct Hv. left. destruct (patrolPoints (heap st ship)); [done|cbn in Hlen; lia].
Qed.

Lemma forEachShip_returns (l : list addr) (st : GameState) :
  (forall a, validPatrol (heap st a)) ->
  exists st', forEachShip l st = Done st' /\ evolves st st'.
Proof.
  revert st. induction l as [|b l IH]; intros st Hv.
  - exists st. split; [done|apply evolves_refl].
  - cbn [forEachShip].
    pose proof (evolves_updateNPCAI b st) as Hai.
    destruct (moveNPCShip_returns b (updateNPCAI b st)) as [st1 Hm].
    { by apply (evolves_validPatrol st). }
    rewrite Hm. cbn [bindO].
    pose proof (evolves_moveNPCShip _ _ _ Hm) as Hmv.
    destruct (IH st1) as (st' & Hrun & Hev).
    { apply (evolves_validPatrol st); [|done]. by eapply evolves_trans. }
    exists st'. split; [done|].
    eapply evolves_trans; [exact Hai|]. by eapply evolves_trans.
Qed.

(** X12.  Patrol indices stay inside the route, so the NPC pass never
    raises.  [moveNPCShip] raises a TypeError exactly for a patrolling ship
    whose index is outside its non-empty route; when a patrolling ship
    advances, the index wraps around inside the route; and in a world whose
    ships all have a valid index, [updateNPCShips] returns and leaves every
    index valid, every id and route as before, and the ship list intact or
    shortened. *)
Theorem patrol_index_kept_valid (st : GameState) :
  (forall ship, moveNPCShip ship st = TypeError <->
                aiState (heap st ship) = Patrol /\ ~ validPatrol (heap st ship)) /\
  (forall ship st', moveNPCShip ship st = Done st' ->
                    validPatrol (heap st ship) -> validPatrol (heap st' ship)) /\
  ((forall a, validPatrol (heap st a)) ->
   exists st', updateNPCShips st = Done st' /\ evolves st st' /\
               forall a, validPatrol (heap st' a)).
Proof.
  split_and!.
  - intros ship. apply moveNPCShip_raises.
  - intros ship st' Hm Hv.
    destruct (evolves_moveNPCShip ship st st' Hm) as (_ & _ & H). by apply H.
  - intros Hv. destruct (forEachShip_returns (ships st) st Hv) as (st' & Hrun & Hev).
    exists st'. split_and!; [done|done|]. by apply (evolves_validPatrol st).
Qed.

(** ** Beams *)

Lemma withPhaserBeams_same (st : GameState) : withPhaserBeams (phaserBeams st) st = st.
Proof. by destruct st. Qed.

Lemma agedBeams_app (l k : list Beam) : agedBeams (l ++ k) = agedBeams l ++ agedBeams k.
Proof. unfold agedBeams. by rewrite List.map_app, List.filter_app. Qed.

Lemma stepBeam_eq (st : GameState) (i : nat) (b : Beam) :
  phaserBeams st !! i = Some b ->
  stepBeam i st =
  withPhaserBeams (take i (phaserBeams st) ++ agedBeams [b] ++ drop (S i) (phaserBeams st)) st.
Proof.
  intros Hi. unfold stepBeam. rewrite Hi. cbv zeta.
  unfold agedBeams. cbn [List.map List.filter ageBeam beamLifetime].
  destruct (Z.leb_spec (beamLifetime b - 1) 0) as [Hle|Hgt].
  - rewrite (proj2 (Z.ltb_ge 0 _) Hle). cbn [app]. by rewrite delete_take_drop.
  - rewrite (proj2 (Z.ltb_lt 0 _) Hgt). cbn [app].
    rewrite insert_take_drop; [done|]. by eapply lookup_lt_Some.
Qed.

Lemma beamLoop_eq (k : nat) (st : GameState) :
  (k <= length (phaserBeams st))%nat ->
  beamLoop k st =
  withPhaserBeams (agedBeams (take k (phaserBeams st)) ++ drop k (phaserBeams st)) st.
Proof.
  revert st. induction k as [|i IH]; intros st Hk.
  - change (st = withPhaserBeams (phaserBeams st) st). by rewrite withPhaserBeams_same.
  - destruct (lookup_lt_is_Some_2 (phaserBeams st) i) as [b Hi]; [lia|].
    cbn [beamLoop]. rewrite (stepBeam_eq st i b Hi).
    assert (Htake : length (take i (phaserBeams st)) = i) by (rewrite length_take; lia).
    rewrite IH; cbn [phaserBeams withPhaserBeams].
    + rewrite take_app_length', drop_app_length' by done.
      rewrite (take_S_r _ _ _ Hi), agedBeams_app.
      unfold withPhaserBeams. cbn. by rewrite <- !app_assoc.
    + rewrite length_app. lia.
Qed.

Lemma agedBeams_lifetime (l : list Beam) (L : Z) :
  Forall (fun b => (beamLifetime b <= L)%Z) l ->
  Forall (fun b => (0 < beamLifetime b <= L - 1)%Z) (agedBeams l).
Proof.
  intros Hl. apply Forall_forall. intros b Hb.
  apply list_elem_of_In, List.filter_In in Hb as [Hin Hpos].
  apply List.in_map_iff in Hin as (b0 & <- & Hb0).
  rewrite Forall_forall in Hl. apply list_elem_of_In, Hl in Hb0.
  apply Z.ltb_lt in Hpos. cbn in *. lia.
Qed.

(** X13.  Beams age and vanish.  One [updatePhaserBeams] is exactly
    "age every beam by one tick and keep those with lifetime above 0", in
    order, and changes nothing else in the world; beams whose lifetime is at
    most [n + 1] are all gone after [n + 1] updates -- a phaser beam, created
    with lifetime 15, after 15. *)
Theorem beams_age_and_vanish (st : GameState) :
  updatePhaserBeams st = withPhaserBeams (agedBeams (phaserBeams st)) st /\
  (forall n, Forall (fun b => (beamLifetime b <= Z.of_nat (S n))%Z) (phaserBeams st) ->
             phaserBeams (Nat.iter (S n) updatePhaserBeams st) = []).
Proof.
  assert (Hone : forall s, updatePhaserBeams s = withPhaserBeams (agedBeams (phaserBeams s)) s).
  { intros s. unfold updatePhaserBeams. rewrite beamLoop_eq by done.
    by rewrite firstn_all, drop_all, app_nil_r. }
  split; [apply Hone|].
  intros n Hl.
  assert (Hiter : forall k s L,
            Forall (fun b => (beamLifetime b <= L)%Z) (phaserBeams s) ->
            Forall (fun b => (0 < beamLifetime b <= L - Z.of_nat (S k))%Z)
                   (phaserBeams (Nat.iter (S k) updatePhaserBeams s))).
  { intros k s L HL. induction k as [|k IH].
    - cbn [Nat.iter]. rewrite Hone. cbn [phaserBeams withPhaserBeams].
      change (Z.of_nat 1) with 1%Z. by apply agedBeams_lifetime.
    - change (Nat.iter (S (S k)) updatePhaserBeams s)
        with (updatePhaserBeams (Nat.iter (S k) updatePhaserBeams s)).
      rewrite Hone. cbn [phaserBeams withPhaserBeams].
      eapply Forall_impl.
      + apply (agedBeams_lifetime _ (L - Z.of_nat (S k))).
        eapply Forall_impl; [exact IH|]. cbn beta. intros; lia.
      + cbn beta. intros; lia. }
  specialize (Hiter n st _ Hl).
  destruct (phaserBeams (Nat.iter (S n) updatePhaserBeams st)) as [|b bs]; [done|].
  apply Forall_cons in Hiter as [Hb _]. lia.
Qed.

(** ** The whole tick *)

Lemma evolves_updatePlayerShip (st : GameState) : evolves st (updatePlayerShip st).
Proof.
  unfold updatePlayerShip. cbv zeta.
  set (st1 := modify _ _ (modify _ _ st)).
  assert (H1 : evolves st st1).
  { subst st1. eapply evolves_trans; apply evolves_modify; intros s; by repeat split. }
  destruct (waypoint st1); [|done].
  destruct (Qltb 0 _); [|done].
  destruct (distLt _ _); [|done].
  eapply evolves_trans; [exact H1|].
  eapply evolves_trans; [apply evolves_addCommsMessage|].
  by apply evolves_same.
Qed.

Lemma evolves_stepProjectile (i : nat) (st : GameState) : evolves st (stepProjectile i st).
Proof.
  unfold stepProjectile. destruct (projectiles st !! i) as [proj0|]; [|apply evolves_refl].
  cbv zeta.
  set (st1 := withProjectiles _ st).
  assert (H1 : evolves st st1) by by apply evolves_same.
  destruct (find _ _) as [tgt|]; cbv beta iota zeta.
  - cbn [orb]. eapply evolves_trans; [exact H1|].
    match goal with
    | |- evolves _ (withProjectiles _ (play _ (damageShip ?p ?d ?s))) =>
        apply (evolves_trans _ (damageShip p d s)); [apply evolves_damageShip|]
    end.
    by apply evolves_same.
  - cbn [orb]. destruct (Z.leb _ 0); [|done].
    eapply evolves_trans; [exact H1|]. by apply evolves_same.
Qed.

Lemma evolves_updateProjectiles (st : GameState) : evolves st (updateProjectiles st).
Proof.
  unfold updateProjectiles. generalize (length (projectiles st)). intros n.
  revert st. induction n as [|n IH]; intros st; [apply evolves_refl|].
  cbn [projectileLoop]. eapply evolves_trans; [apply evolves_stepProjectile|apply IH].
Qed.

Lemma evolves_updatePhaserBeams (st : GameState) : evolves st (updatePhaserBeams st).
Proof.
  unfold updatePhaserBeams. rewrite beamLoop_eq by done. by apply evolves_same.
Qed.

Lemma evolves_updateRepairCooldowns (st : GameState) :
  evolves st (updateRepairCooldowns st).
Proof.
  rewrite updateRepairCooldowns_loop.
  destruct (updateRepairCooldowns_fold st (repairCooldowns st)) as (_ & Hh & Hs & Hp & _);
    [done|].
  by apply evolves_same.
Qed.

Lemma evolves_setAlertLevel (level : AlertLevel) (st : GameState) :
  evolves st (setAlertLevel level st).
Proof.
  unfold setAlertLevel. destruct (decide _); [apply evolves_refl|]. cbv zeta.
  eapply evolves_trans; [|apply evolves_addCommsMessage]. by apply evolves_same.
Qed.

Lemma evolves_checkAlertLevel (st : GameState) : evolves st (checkAlertLevel st).
Proof.
  unfold checkAlertLevel. cbv zeta.
  repeat (first [destruct (nearestLt _ _) | destruct (decide _) | destruct (_ && _)]);
    try apply evolves_refl; try apply evolves_setAlertLevel;
    (eapply evolves_trans; [apply evolves_setAlertLevel|by apply evolves_same]).
Qed.

Lemma inert_regenerateShield : inert regenerateShield.
Proof.
  intros s. unfold regenerateShield. cbv zeta. by destruct (_ && _).
Qed.

Lemma evolves_regenerateShields (st : GameState) : evolves st (regenerateShields st).
Proof.
  unfold regenerateShields. generalize (ships st ++ [playerShip st]). intros l.
  revert st. induction l as [|a l IH]; intros st; [apply evolves_refl|].
  cbn [fold_left]. eapply evolves_trans; [|apply IH].
  apply evolves_modify, inert_regenerateShield.
Qed.

(** What the phases after the NPC pass do to the clock. *)
Lemma gameTime_modify (a : addr) (f : Ship -> Ship) (st : GameState) :
  gameTime (modify a f st) = gameTime st.
Proof. done. Qed.

(** ** The clock *)

Lemma clock_modify (a : addr) (f : Ship -> Ship) (st : GameState) :
  clock (modify a f st) = clock st.
Proof. done. Qed.

Lemma clock_play (snd : Sound) (st : GameState) : clock (play snd st) = clock st.
Proof. done. Qed.

Lemma clock_withProjectiles (l : list Projectile) (st : GameState) :
  clock (withProjectiles l st) = clock st.
Proof. done. Qed.

Lemma clock_withPhaserBeams (l : list Beam) (st : GameState) :
  clock (withPhaserBeams l st) = clock st.
Proof. done. Qed.

Lemma clock_addCommsMessage (from text : string) (ty : MsgType) (st : GameState) :
  clock (addCommsMessage from text ty st) = clock st.
Proof.
  unfold addCommsMessage, randomUUID. cbv beta iota zeta. by destruct (Nat.ltb 50 _).
Qed.

Lemma clock_removeShip (shipId : option string) (st : GameState) :
  clock (removeShip shipId st) = clock st.
Proof.
  unfold removeShip. destruct (findShipIndex _ _) as [[index ship]|]; [|done].
  cbv zeta. by destruct (decide _).
Qed.

Lemma clock_damageShip (ship : addr) (damage : Q) (st : GameState) :
  clock (damageShip ship damage st) = clock st.
Proof.
  unfold damageShip, absorbDamage. cbv beta iota zeta.
  set (st1 := modify ship _ (modify ship _ st)).
  assert (H1 : clock st1 = clock st) by done. rewrite <- H1. clearbody st1.
  set (st2 := randomSubsystemDamage ship _ st1).
  assert (H2 : clock st2 = clock st1).
  { subst st2. unfold randomSubsystemDamage. destruct (Qltb 5 _); [|done].
    unfold Math_random. cbv beta iota zeta. destruct (Qltb _ 0.3); [|done].
    destruct (String.eqb _ "player"); [|done]. by rewrite clock_addCommsMessage. }
  rewrite <- H2. clearbody st2.
  unfold checkDestruction. destruct (Qleb _ 0); [|done]. cbv zeta.
  destruct (negb _); rewrite clock_addCommsMessage; [|done].
  by rewrite clock_removeShip.
Qed.

Lemma clock_updatePlayerShip (st : GameState) : clock (updatePlayerShip st) = clock st.
Proof.
  unfold updatePlayerShip. cbv zeta.
  set (st1 := modify _ _ (modify _ _ st)).
  assert (H1 : clock st1 = clock st) by done. rewrite <- H1.
  destruct (waypoint st1); [|done].
  destruct (Qltb 0 _); [|done].
  destruct (distLt _ _); [|done].
  unfold clearWaypoint. etrans; [|apply clock_addCommsMessage]. done.
Qed.

Lemma clock_npcFireAtPlayer (ship : addr) (st : GameState) :
  clock (npcFireAtPlayer ship st) = clock st.
Proof.
  unfold npcFireAtPlayer. cbv zeta.
  destruct (Qleb _ 0); [done|]. destruct (distLt _ 400); [|done].
  by rewrite clock_play, clock_damageShip, clock_withPhaserBeams.
Qed.

Lemma clock_chooseTarget (ship : addr) (e : Q) (st st1 : GameState) (tgt : option (Q * Q)) :
  chooseTarget ship e st = Done (st1, tgt) -> clock st1 = clock st.
Proof.
  unfold chooseTarget. cbv zeta.
  destruct (aiState (heap st ship)).
  - destruct (Nat.ltb 0 _).
    + destruct (_ !! _) as [point|]; [|done]. intros [= <- <-].
      rewrite clock_modify. by destruct (distLt _ 30).
    + by intros [= <- <-].
  - by case_decide; intros [= <- <-].
  - case_decide; intros [= <- <-]; [|done].
    destruct (distLt _ 400); [|done].
    unfold Math_random. cbv beta iota zeta.
    destruct (Qltb _ 0.02); [|done].
    by rewrite clock_npcFireAtPlayer.
  - by intros [= <- <-].
Qed.

Lemma clock_steer (ship : addr) (e tx ty : Q) (st : GameState) :
  clock (steer ship e tx ty st) = clock st.
Proof. unfold steer. cbv zeta. rewrite !clock_modify. by destruct (Qltb (Math_abs _) _). Qed.

Lemma clock_moveNPCShip (ship : addr) (st st' : GameState) :
  moveNPCShip ship st = Done st' -> clock st' = clock st.
Proof.
  unfold moveNPCShip. cbv zeta.
  destruct (chooseTarget ship _ st) as [[st1 tgt]|] eqn:Hc; [|done].
  cbn [bindO]. intros [= <-]. rewrite !clock_modify.
  apply clock_chooseTarget in Hc. rewrite <- Hc.
  destruct tgt as [[tx ty]|]; [apply clock_steer|done].
Qed.

Lemma clock_updateNPCAI (ship : addr) (st : GameState) :
  clock (updateNPCAI ship st) = clock st.
Proof.
  unfold updateNPCAI. cbv zeta.
  destruct (faction _); [destruct (distGt _ _); done|done|].
  destruct (ratioLt _ _ _); [done|].
  destruct (distLt _ 800); [done|]. by destruct (distLt _ 1500).
Qed.

Lemma clock_forEachShip (l : list addr) (st st' : GameState) :
  forEachShip l st = Done st' -> clock st' = clock st.
Proof.
  revert st. induction l as [|a l IH]; intros st; cbn [forEachShip].
  - by intros [= <-].
  - destruct (moveNPCShip a _) as [st1|] eqn:Hm; [|done]. cbn [bindO].
    intros Hl. rewrite (IH _ Hl), (clock_moveNPCShip _ _ _ Hm). apply clock_updateNPCAI.
Qed.

Lemma clock_updateProjectiles (st : GameState) : clock (updateProjectiles st) = clock st.
Proof.
  unfold updateProjectiles. generalize (length (projectiles st)). intros n.
  revert st. induction n as [|n IH]; intros st; [done|].
  cbn [projectileLoop]. rewrite IH.
  unfold stepProjectile. destruct (projectiles st !! n) as [proj0|]; [|done].
  cbv zeta. destruct (find _ _) as [tgt|]; cbv beta iota zeta; cbn [orb].
  - by rewrite clock_withProjectiles, clock_play, clock_damageShip, clock_withProjectiles.
  - by destruct (Z.leb _ 0).
Qed.

Lemma clock_updateRepairCooldowns (st : GameState) :
  clock (updateRepairCooldowns st) = clock st.
Proof.
  rewrite updateRepairCooldowns_loop.
  apply (map_fold_weak_ind (fun r (_ : gmap string Z) => clock r = clock st)); [done|].
  intros i c m r _ IH. rewrite <- IH. unfold cooldownStep.
  destruct (Z.ltb 0 c); [|done]. cbv zeta. by destruct (Z.eqb _ 0).
Qed.

Lemma clock_setAlertLevel (level : AlertLevel) (st : GameState) :
  clock (setAlertLevel level st) = clock st.
Proof.
  unfold setAlertLevel. destruct (decide _); [done|]. cbv zeta.
  by rewrite clock_addCommsMessage.
Qed.

Lemma clock_checkAlertLevel (st : GameState) : clock (checkAlertLevel st) = clock st.
Proof.
  unfold checkAlertLevel. cbv zeta.
  repeat (first [destruct (nearestLt _ _) | destruct (decide _) | destruct (_ && _)]);
    try done; try apply clock_setAlertLevel;
    (etrans; [|apply clock_setAlertLevel]; done).
Qed.

Lemma clock_regenerateShields (st : GameState) : clock (regenerateShields st) = clock st.
Proof.
  unfold regenerateShields. generalize (ships st ++ [playerShip st]). intros l.
  revert st. induction l as [|a l IH]; intros st; [done|].
  cbn [fold_left]. by rewrite IH.
Qed.

(** One tick, from a world with valid patrol indices. *)
Lemma update_returns (st : GameState) :
  (forall a, validPatrol (heap st a)) ->
  exists st',
    update st = Done st' /\
    gameTime st' = (gameTime st + 1)%Z /\ isPaused st' = isPaused st /\
    evolves st st' /\
    (wellFormed st -> wellFormed st') /\
    (forall a, validPatrol (heap st' a)).
Proof.
  intros Hv. unfold update. cbv zeta.
  set (st0 := mkGameState _ _ _ _ _ _ _ _ _ _ (gameTime st + 1)%Z _ _ _ _ _ _).
  assert (E0 : evolves st st0) by by apply evolves_same.
  assert (C0 : clock st0 = ((gameTime st + 1)%Z, isPaused st)) by done.
  clearbody st0.
  pose proof (evolves_updatePlayerShip st0) as E1.
  pose proof (clock_updatePlayerShip st0) as C1.
  set (st1 := updatePlayerShip st0) in *. clearbody st1.
  assert (E01 : evolves st st1) by by eapply evolves_trans.
  destruct (forEachShip_returns (ships st1) st1) as (st2 & H2 & E2).
  { by eapply evolves_validPatrol. }
  unfold updateNPCShips. rewrite H2. cbn [bindO].
  pose proof (clock_forEachShip _ _ _ H2) as C2.
  eexists. split; [reflexivity|].
  assert (E : evolves st (regenerateShields (checkAlertLevel (updateRepairCooldowns
                (updatePhaserBeams (updateProjectiles st2)))))).
  { eapply evolves_trans; [exact E01|]. eapply evolves_trans; [exact E2|].
    eapply evolves_trans; [apply evolves_updateProjectiles|].
    eapply evolves_trans; [apply evolves_updatePhaserBeams|].
    eapply evolves_trans; [apply evolves_updateRepairCooldowns|].
    eapply evolves_trans; [apply evolves_checkAlertLevel|].
    apply evolves_regenerateShields. }
  assert (C : clock (regenerateShields (checkAlertLevel (updateRepairCooldowns
                (updatePhaserBeams (updateProjectiles st2))))) =
              ((gameTime st + 1)%Z, isPaused st)).
  { rewrite clock_regenerateShields, clock_checkAlertLevel, clock_updateRepairCooldowns.
    unfold updatePhaserBeams at 1. rewrite beamLoop_eq by done.
    by rewrite clock_withPhaserBeams, clock_updateProjectiles, C2, C1. }
  injection C as Hg Hp.
  split_and!; [done|done|done| |].
  - intros Hwf. by apply (evolves_wellFormed st).
  - by apply (evolves_validPatrol st).
Qed.

(** X14.  A tick runs to its end and keeps the world well formed.  When
    every patrol index points into its route (or the route is empty),
    [update] returns; the tick counter has advanced by exactly one and the
    pause flag is as it was; the player object is the same, no ship was
    added to the list, no ship id or route changed; the ids of the listed
    ships are still pairwise different and none is ['player']; and the
    patrol indices are valid again, so the next tick returns too. *)
Theorem tick_returns_and_keeps_world (st : GameState) :
  (forall a, validPatrol (heap st a)) ->
  exists st',
    update st = Done st' /\
    gameTime st' = (gameTime st + 1)%Z /\ isPaused st' = isPaused st /\
    evolves st st' /\
    (wellFormed st -> wellFormed st') /\
    (forall a, validPatrol (heap st' a)).
Proof. apply update_returns. Qed.

(** ** The frame loop *)

Lemma runTicks_spec (n : nat) (lastTick : Q) (st : GameState) :
  (forall a, validPatrol (heap st a)) ->
  exists lastTick' st',
    runTicks n lastTick st = Done (lastTick', st') /\
    lastTick' == lastTick + tickLength * inject_Z (Z.of_nat n) /\
    gameTime st' = (gameTime st + if isPaused st then 0 else Z.of_nat n)%Z /\
    isPaused st' = isPaused st /\
    (isPaused st = true -> st' = st) /\
    evolves st st' /\
    (forall a, validPatrol (heap st' a)).
Proof.
  revert lastTick st. induction n as [|n IH]; intros lastTick st Hv.
  - exists lastTick, st. cbn [runTicks].
    split; [done|]. split; [change (inject_Z (Z.of_nat 0)) with 0; unfold tickLength; lra|].
    split; [destruct (isPaused st); lia|].
    split; [done|]. split; [done|]. split; [apply evolves_refl|done].
  - cbn [runTicks]. cbv zeta.
    assert (Hq : forall l' : Q,
               l' == lastTick + tickLength + tickLength * inject_Z (Z.of_nat n) ->
               l' == lastTick + tickLength * inject_Z (Z.of_nat (S n))).
    { intros l' ->. rewrite Nat2Z.inj_succ, <- Z.add_1_r, inject_Z_plus.
      change (inject_Z 1) with 1. unfold tickLength. lra. }
    destruct (isPaused st) eqn:Hpause; cbn [negb bindO].
    + destruct (IH (lastTick + tickLength) st Hv)
        as (l' & st' & Hr & Hl & Hg & Hp & Hsame & He & Hv').
      exists l', st'. rewrite Hpause in *. split_and!; try done. by apply Hq.
    + destruct (update_returns st Hv) as (st1 & Hu & Hg1 & Hp1 & He1 & _ & Hv1).
      rewrite Hu. cbn [bindO].
      destruct (IH (lastTick + tickLength) st1 Hv1)
        as (l' & st' & Hr & Hl & Hg & Hp & _ & He & Hv').
      exists l', st'. rewrite Hp1, Hpause in *.
      split_and!; try done; [by apply Hq|lia|by eapply evolves_trans].
Qed.

(** X15.  The frame loop catches up in fixed steps, five at most.  On a
    world with valid patrol indices a running [loop(timestamp)] returns
    after [k = max(0, min(floor(elapsed / 50), 5))] iterations: [lastTick]
    has advanced by [50 k], also while the game is paused; the tick counter
    has advanced by [k], or, paused, the world is exactly as it was.
    [lastTick] never overtakes a timestamp that was not behind it, and when
    less than 300 ms had elapsed the remaining lag is below one tick length.
    A loop that is not running changes nothing. *)
Theorem frame_loop_bounded (timestamp lastTick : Q) (st : GameState) :
  (forall a, validPatrol (heap st a)) ->
  loop false timestamp lastTick st = Done (lastTick, st) /\
  exists (k : nat) lastTick' st',
    loop true timestamp lastTick st = Done (lastTick', st') /\
    k = Z.to_nat (Z.min (Math_floor ((timestamp - lastTick) / tickLength)) 5) /\
    (k <= 5)%nat /\
    lastTick' == lastTick + tickLength * inject_Z (Z.of_nat k) /\
    gameTime st' = (gameTime st + if isPaused st then 0 else Z.of_nat k)%Z /\
    (isPaused st = true -> st' = st) /\
    evolves st st' /\
    (forall a, validPatrol (heap st' a)) /\
    (lastTick <= timestamp -> lastTick' <= timestamp) /\
    (lastTick <= timestamp -> timestamp - lastTick < 300 -> timestamp - lastTick' < tickLength).
Proof.
  intros Hv. split; [done|].
  unfold loop. cbn [negb]. cbv zeta.
  set (f := Math_floor ((timestamp - lastTick) / tickLength)).
  set (k := Z.to_nat (Z.min f 5)).
  destruct (runTicks_spec k lastTick st Hv) as (l' & st' & Hr & Hl & Hg & Hp & Hsame & He & Hv').
  exists k, l', st'.
  assert (Hlo : inject_Z f <= (timestamp - lastTick) / tickLength) by apply Qfloor_le.
  assert (Hhi : (timestamp - lastTick) / tickLength < inject_Z (f + 1)) by apply Qlt_floor.
  rewrite inject_Z_plus in Hhi. change (inject_Z 1) with 1 in Hhi.
  unfold tickLength in *.
  assert (Hdiv : (timestamp - lastTick) / 50 == (timestamp - lastTick) * (1 # 50))
    by (unfold Qdiv; reflexivity).
  rewrite Hdiv in Hlo, Hhi.
  split_and!; try done.
  - subst k. lia.
  - intros Hle.
    assert (Hf : (0 <= f)%Z).
    { apply Z.lt_succ_r. rewrite Zlt_Qlt. unfold Z.succ. rewrite inject_Z_plus.
      change (inject_Z 1) with 1. change (inject_Z 0) with 0. lra. }
    assert (Hk : inject_Z (Z.of_nat k) <= inject_Z f).
    { rewrite <- Zle_Qle. subst k. lia. }
    rewrite Hl. lra.
  - intros Hle Hlt.
    assert (Hf : (0 <= f)%Z).
    { apply Z.lt_succ_r. rewrite Zlt_Qlt. unfold Z.succ. rewrite inject_Z_plus.
      change (inject_Z 1) with 1. change (inject_Z 0) with 0. lra. }
    assert (Hf5 : (f <= 5)%Z).
    { apply Z.lt_succ_r. rewrite Zlt_Qlt. unfold Z.succ.
      change (inject_Z (5 + 1)) with 6. lra. }
    assert (Hk : Z.of_nat k = f) by (subst k; lia).
    rewrite Hl, Hk. lra.
Qed.

(** ** Shield regeneration *)

Lemma regenerated_refl (s : Ship) : regenerated s s.
Proof.
  split_and!; [by destruct s|lra|apply Math_max_ge_l].
Qed.

Lemma regenerated_trans (s1 s2 s3 : Ship) :
  regenerated s1 s2 -> regenerated s2 s3 -> regenerated s1 s3.
Proof.
  intros (E1 & L1 & U1) (E2 & L2 & U2).
  assert (HM : maxShieldStrength s2 = maxShieldStrength s1) by (by rewrite E1).
  rewrite HM in U2. split_and!.
  - rewrite E2 at 1. by rewrite E1.
  - lra.
  - revert U1 U2. unfold Math_max. qcases; lra.
Qed.

Lemma regenerated_regenerateShield (s : Ship) : regenerated s (regenerateShield s).
Proof.
  unfold regenerateShield. cbv zeta.
  destruct (Qltb 0 (power (shields (subsystems s)) / 100)) eqn:Ep; cbn [andb];
    [|apply regenerated_refl].
  destruct (Qltb 0 (hp (shields (subsystems s)) / 100)) eqn:Eh; cbn [andb];
    [|apply regenerated_refl].
  destruct (Qltb (shieldStrength s) (maxShieldStrength s)) eqn:Es;
    [|apply regenerated_refl].
  apply Qltb_lt in Ep, Eh, Es.
  assert (Hinc : 0 < 0.1 * (power (shields (subsystems s)) / 100)
                     * (hp (shields (subsystems s)) / 100)).
  { apply Qmult_lt_0_compat; [|done]. apply Qmult_lt_0_compat; [reflexivity|done]. }
  split_and!; [done|..]; cbn [shieldStrength setShieldStrength maxShieldStrength];
    unfold Math_min, Math_max; qcases; lra.
Qed.

Lemma regenerateLoop_spec (l : list addr) (st : GameState) :
  let st' := fold_left (fun st ship => modify ship regenerateShield st) l st in
  st' = withHeap (heap st') st /\
  (forall a, regenerated (heap st a) (heap st' a)) /\
  (forall a, a ∉ l -> heap st' a = heap st a) /\
  (NoDup l -> forall a, a ∈ l -> heap st' a = regenerateShield (heap st a)).
Proof.
  revert st. induction l as [|b l IH]; intros st; cbn [fold_left].
  - split_and!; [by destruct st|intros; apply regenerated_refl|done|].
    intros _ a Ha. by apply elem_of_nil in Ha.
  - destruct (IH (modify b regenerateShield st)) as (Hw & Hr & Hout & Hin).
    cbv zeta in *. set (st' := fold_left _ l _) in *.
    split_and!.
    + rewrite Hw at 1. done.
    + intros a. eapply regenerated_trans; [|apply Hr]. rewrite heap_modify.
      destruct (Nat.eqb a b); [apply regenerated_regenerateShield|apply regenerated_refl].
    + intros a Ha. apply not_elem_of_cons in Ha as [Hab Hal].
      rewrite (Hout a Hal), heap_modify. by apply Nat.eqb_neq in Hab as ->.
    + intros Hnd a Ha. apply NoDup_cons in Hnd as [Hbl Hnd].
      apply elem_of_cons in Ha as [->|Hal].
      * rewrite (Hout b Hbl), heap_modify. by rewrite Nat.eqb_refl.
      * rewrite (Hin Hnd a Hal), heap_modify.
        assert (a <> b) as Hab by (intros ->; done).
        by apply Nat.eqb_neq in Hab as ->.
Qed.

(** Ship objects with different ids are different objects. *)
Lemma wellFormed_NoDup_objects (st : GameState) :
  wellFormed st -> NoDup (ships st ++ [playerShip st]).
Proof.
  intros (Hp & Hnp & Hnd).
  apply NoDup_app. split_and!.
  - by eapply NoDup_fmap_1.
  - intros a Ha Hin. apply list_elem_of_singleton in Hin as ->.
    apply Hnp. rewrite <- Hp. unfold shipIds.
    by apply (list_elem_of_fmap_2 (fun a => id (heap st a))).
  - apply NoDup_singleton.
Qed.

(** X16.  Shields regenerate within bounds.  [regenerateShields] changes
    nothing in the world but shield strengths; no shield falls, and none
    ends above its maximum unless it was above it before; objects that are
    neither listed nor the player are not touched; and in a well-formed
    world every listed ship and the player regenerate exactly once. *)
Theorem shields_regenerate_within_bounds (st : GameState) :
  regenerateShields st = withHeap (heap (regenerateShields st)) st /\
  (forall a, regenerated (heap st a) (heap (regenerateShields st) a)) /\
  (forall a, a ∉ ships st -> a <> playerShip st ->
             heap (regenerateShields st) a = heap st a) /\
  (wellFormed st ->
   forall a, a ∈ ships st \/ a = playerShip st ->
             heap (regenerateShields st) a = regenerateShield (heap st a)).
Proof.
  destruct (regenerateLoop_spec (ships st ++ [playerShip st]) st) as (Hw & Hr & Hout & Hin).
  cbv zeta in *. fold (regenerateShields st) in *.
  split_and!; [done|done| |].
  - intros a Ha Hp. apply Hout. rewrite elem_of_app, list_elem_of_singleton.
    by intros [?|?].
  - intros Hwf a Ha. apply Hin; [by apply wellFormed_NoDup_objects|].
    rewrite elem_of_app, list_elem_of_singleton. exact Ha.
Qed.

(** ** Ships that do not attack *)

Lemma onlyShip_refl (ship : addr) (st : GameState) : onlyShip ship st st.
Proof. by repeat split. Qed.

Lemma onlyShip_trans (ship : addr) (st1 st2 st3 : GameState) :
  onlyShip ship st1 st2 -> onlyShip ship st2 st3 -> onlyShip ship st1 st3.
Proof.
  intros (A1 & A2 & A3 & A4 & A5 & A6 & A7 & A8 & A9)
         (B1 & B2 & B3 & B4 & B5 & B6 & B7 & B8 & B9).
  split_and!; try congruence. intros b Hb. by rewrite B9, A9.
Qed.

Lemma onlyShip_modify (ship : addr) (f : Ship -> Ship) (st : GameState) :
  onlyShip ship st (modify ship f st).
Proof.
  split_and!; try done. intros b Hb. rewrite heap_modify.
  by apply Nat.eqb_neq in Hb as ->.
Qed.

Lemma onlyShip_updateNPCAI (ship : addr) (st : GameState) :
  onlyShip ship st (updateNPCAI ship st).
Proof.
  unfold updateNPCAI. cbv zeta.
  repeat first [destruct (faction _) | destruct (distGt _ _) | destruct (ratioLt _ _ _)
               | destruct (distLt _ _)];
    repeat first [apply onlyShip_modify
                 | eapply onlyShip_trans; [|apply onlyShip_modify]].
Qed.

(** The state the AI decision leaves in the ship object. *)
Lemma aiState_updateNPCAI (ship : addr) (st : GameState) :
  aiState (heap (updateNPCAI ship st) ship) = Attack -> attacks st ship.
Proof.
  unfold updateNPCAI, attacks. cbv zeta.
  destruct (faction (heap st ship)).
  - destruct (distGt _ _); rewrite ?heap_modify_eq; cbn; done.
  - rewrite heap_modify_eq. cbn. done.
  - destruct (ratioLt _ _ _); [rewrite heap_modify_eq; cbn; done|].
    destruct (distLt _ 800) eqn:E8; [done|].
    destruct (distLt _ 1500); rewrite ?heap_modify_eq; cbn; done.
Qed.

Lemma onlyShip_steer (ship : addr) (e tx ty : Q) (st : GameState) :
  onlyShip ship st (steer ship e tx ty st).
Proof.
  unfold steer. cbv zeta.
  repeat (eapply onlyShip_trans; [|apply onlyShip_modify]).
  destruct (Qltb (Math_abs _) _); apply onlyShip_modify.
Qed.

Lemma onlyShip_chooseTarget (ship : addr) (e : Q) (st st1 : GameState)
    (tgt : option (Q * Q)) :
  aiState (heap st ship) <> Attack ->
  chooseTarget ship e st = Done (st1, tgt) -> onlyShip ship st st1.
Proof.
  intros Hna. unfold chooseTarget. cbv zeta.
  destruct (aiState (heap st ship)); [| |done|].
  - destruct (Nat.ltb 0 _).
    + destruct (_ !! _) as [point|]; [|done]. intros [= <- <-].
      eapply onlyShip_trans; [|apply onlyShip_modify].
      destruct (distLt _ 30); [apply onlyShip_modify|apply onlyShip_refl].
    + intros [= <- <-]. apply onlyShip_modify.
  - case_decide; intros [= <- <-]; [apply onlyShip_modify|apply onlyShip_refl].
  - intros [= <- <-]. apply onlyShip_modify.
Qed.

Lemma onlyShip_moveNPCShip (ship : addr) (st st' : GameState) :
  aiState (heap st ship) <> Attack ->
  moveNPCShip ship st = Done st' -> onlyShip ship st st'.
Proof.
  intros Hna. unfold moveNPCShip. cbv zeta.
  destruct (chooseTarget ship _ st) as [[st1 tgt]|] eqn:Hc; [|done].
  cbn [bindO]. intros [= <-].
  repeat (eapply onlyShip_trans; [|apply onlyShip_modify]).
  eapply onlyShip_trans; [by eapply onlyShip_chooseTarget|].
  destruct tgt as [[tx ty]|]; [apply onlyShip_steer|apply onlyShip_refl].
Qed.

(** X17.  A ship that does not attack disturbs nothing.  Unless the ship
    is hostile, at 30% hull or more and closer than 800 to the player, its
    turn in the NPC pass -- AI decision and movement -- changes at most its
    own object: no beam, projectile, event, sound or comms message appears,
    no random number is drawn, the ship list and every other object,
    the player included, are as before. *)
Theorem quiet_unless_attacking (ship : addr) (st st' : GameState) :
  ~ attacks st ship ->
  moveNPCShip ship (updateNPCAI ship st) = Done st' ->
  onlyShip ship st st'.
Proof.
  intros Hna Hm.
  eapply onlyShip_trans; [apply onlyShip_updateNPCAI|].
  eapply onlyShip_moveNPCShip; [|exact Hm].
  intros Ha. by apply Hna, aiState_updateNPCAI.
Qed.

(** ** The opening scenario *)

Lemma mapO_Done {A B} (f : A -> B) (o : Outcome A) (a : A) (b : B) :
  o = Done a -> mapO f o = Done b -> f a = b.
Proof. intros ->. cbn. by intros [= ->]. Qed.

(** X18.  The opening scenario is a world the simulation can run.
    [initializeScenario] returns; it has drawn 33 random numbers and 10
    UUIDs; the ship list holds nine ships in the order two friendly, three
    neutral, four hostile, all at rest and on patrol at index 0 of a route
    of 4, 3, 4, 4, 4, 3, 3, 3, 3 points; the flagship has hull 150 of 150 and
    the other warships 100 of 100; one hail is in the comms log and the
    alert level is normal.  Every patrol index is valid, so the first tick
    returns; and when the nine UUIDs drawn for the ships are pairwise
    different and none is ['player'], the world is well formed. *)
Theorem scenario_ready :
  exists st,
    initializeScenario = Done st /\
    randomCalls st = 33%nat /\ uuidCalls st = 10%nat /\
    ships st = seq 1 9 /\
    (fun a => faction (heap st a)) <$> ships st =
      [Friendly; Friendly; Neutral; Neutral; Neutral; Hostile; Hostile; Hostile; Hostile] /\
    (fun a => name (heap st a)) <$> ships st =
      ["USS Valor"; "USS Horizon"; "SS Aurora"; "SS Merchant Star"; "SS Free Spirit";
       "IKS Vengeance"; "IKS Bloodwing"; "IKS Ravager"; "IKS Death Strike"] /\
    (fun a => (aiState (heap st a), patrolIndex (heap st a),
               length (patrolPoints (heap st a)))) <$> ships st =
      [(Patrol, 0, 4); (Patrol, 0, 3); (Patrol, 0, 4); (Patrol, 0, 4); (Patrol, 0, 4);
       (Patrol, 0, 3); (Patrol, 0, 3); (Patrol, 0, 3); (Patrol, 0, 3)]%nat /\
    (fun a => (velocity (heap st a), hull (heap st a), maxHull (heap st a)))
      <$> ships st =
      [(0, 100, 100); (0, 100, 100); (0, 100, 100); (0, 100, 100); (0, 100, 100);
       (0, 150, 150); (0, 100, 100); (0, 100, 100); (0, 100, 100)] /\
    shipIds st = uuidStream <$> seq 0 9 /\
    sender <$> commsLog st = ["STARFLEET COMMAND"] /\
    alertLevel st = AlertNormal /\
    (forall a, validPatrol (heap st a)) /\
    (exists st', update st = Done st') /\
    (NoDup (uuidStream <$> seq 0 9) -> "player" ∉ uuidStream <$> seq 0 9 -> wellFormed st).
Proof.
  assert (F1 : mapO randomCalls initializeScenario = Done 33%nat) by (lazy; reflexivity).
  assert (F2 : mapO uuidCalls initializeScenario = Done 10%nat) by (lazy; reflexivity).
  assert (F3 : mapO ships initializeScenario = Done (seq 1 9)) by (lazy; reflexivity).
  assert (F4 : mapO (fun st => (fun a => faction (heap st a)) <$> ships st) initializeScenario
               = Done [Friendly; Friendly; Neutral; Neutral; Neutral;
                       Hostile; Hostile; Hostile; Hostile]) by (lazy; reflexivity).
  assert (F5 : mapO (fun st => (fun a => name (heap st a)) <$> ships st) initializeScenario
               = Done ["USS Valor"; "USS Horizon"; "SS Aurora"; "SS Merchant Star";
                       "SS Free Spirit"; "IKS Vengeance"; "IKS Bloodwing"; "IKS Ravager";
                       "IKS Death Strike"]) by (lazy; reflexivity).
  assert (F6 : mapO (fun st => (fun a => (aiState (heap st a), patrolIndex (heap st a),
                                          length (patrolPoints (heap st a)))) <$> ships st)
                 initializeScenario
               = Done [(Patrol, 0, 4); (Patrol, 0, 3); (Patrol, 0, 4); (Patrol, 0, 4);
                       (Patrol, 0, 4); (Patrol, 0, 3); (Patrol, 0, 3); (Patrol, 0, 3);
                       (Patrol, 0, 3)]%nat) by (lazy; reflexivity).
  assert (F7 : mapO (fun st => (fun a => (velocity (heap st a), hull (heap st a),
                                          maxHull (heap st a))) <$> ships st)
                 initializeScenario
               = Done [(0, 100, 100); (0, 100, 100); (0, 100, 100); (0, 100, 100);
                       (0, 100, 100); (0, 150, 150); (0, 100, 100); (0, 100, 100);
                       (0, 100, 100)]) by (lazy; reflexivity).
  assert (F8 : mapO shipIds initializeScenario = Done (uuidStream <$> seq 0 9))
    by (lazy; reflexivity).
  assert (F9 : mapO (fun st => sender <$> commsLog st) initializeScenario
               = Done ["STARFLEET COMMAND"]) by (lazy; reflexivity).
  assert (F10 : mapO alertLevel initializeScenario = Done AlertNormal) by (lazy; reflexivity).
  assert (F11 : mapO (fun st => id (heap st (playerShip st))) initializeScenario
                = Done "player") by (lazy; reflexivity).
  assert (F12 : forall a,
             mapO (fun st => Nat.ltb (patrolIndex (heap st a)) (length (patrolPoints (heap st a)))
                             || Nat.eqb (length (patrolPoints (heap st a))) 0)
               initializeScenario = Done true).
  { intros a. do 10 (destruct a as [|a]; [lazy; reflexivity|]). lazy. reflexivity. }
  destruct initializeScenario as [st|] eqn:E; [|discriminate F1].
  assert (Hv : forall a, validPatrol (heap st a)).
  { intros a. specialize (F12 a). cbn in F12. injection F12 as F12.
    apply orb_true_iff in F12 as [H|H].
    - right. by apply Nat.ltb_lt.
    - left. apply Nat.eqb_eq in H. by destruct (patrolPoints (heap st a)). }
  cbn in F1, F2, F3, F4, F5, F6, F7, F8, F9, F10, F11.
  injection F1 as F1. injection F2 as F2. injection F3 as F3. injection F4 as F4.
  injection F5 as F5. injection F6 as F6. injection F7 as F7. injection F8 as F8.
  injection F9 as F9. injection F10 as F10. injection F11 as F11.
  exists st. split; [done|].
  split; [done|]. split; [done|]. split; [done|]. split; [done|]. split; [done|].
  split; [done|]. split; [done|]. split; [done|]. split; [done|]. split; [done|].
  split; [done|]. split.
  - destruct (update_returns st Hv) as (st' & Hu & _). by exists st'.
  - intros Hnd Hnp. unfold wellFormed. rewrite F8. by split_and!.
Qed.

(** ** The weapons station *)

(** What a fire command adds to the world: one beam for a phaser that
    fired, one projectile for a torpedo that was launched, nothing else. *)
Lemma fireWeapon_counts (kind : string) (tgtId : option string) (st : GameState) :
  let r := fireWeapon kind tgtId st in
  length (phaserBeams (snd r)) =
    (length (phaserBeams st) + if fst r && String.eqb kind "phaser" then 1 else 0)%nat /\
  length (projectiles (snd r)) =
    (length (projectiles st) +
     if fst r && negb (String.eqb kind "phaser") then 1 else 0)%nat.
Proof.
  cbv zeta. unfold fireWeapon. cbv zeta.
  destruct (Qleb _ 0 || Qleb _ 0).
  { cbn [fst snd andb].
    destruct (addCommsMessage_effect "SYSTEM" "Weapons offline!" MsgAlert st)
      as (_ & _ & _ & -> & -> & _). lia. }
  destruct (String.eqb kind "phaser") eqn:Ek.
  - destruct (getShip _ st) as [tgt|].
    + destruct (distGt _ 500).
      * cbn [fst snd andb].
        destruct (addCommsMessage_effect "SYSTEM" "Target out of phaser range!" MsgAlert st)
          as (_ & _ & _ & -> & -> & _). lia.
      * cbn [fst snd andb].
        change (phaserBeams (emit ?e ?s)) with (phaserBeams s).
        change (projectiles (emit ?e ?s)) with (projectiles s).
        match goal with
        | |- context [damageShip ?a ?d ?s] =>
            destruct (untouched_damageShip a d s) as (-> & -> & _)
        end.
        cbn [phaserBeams projectiles withPhaserBeams]. rewrite length_app. cbn. lia.
    + cbn [fst snd andb].
      destruct (addCommsMessage_effect "SYSTEM" "No target locked!" MsgAlert st)
        as (_ & _ & _ & -> & -> & _). lia.
  - destruct (String.eqb kind "torpedo").
    + unfold createProjectile, randomUUID. cbv beta iota zeta. cbn [fst snd andb negb].
      cbn [phaserBeams projectiles emit withEvents withProjectiles withUuidCalls].
      rewrite length_app. cbn. lia.
    + cbn. lia.
Qed.

(** X19.  Ammunition is accounted for.  The station's charge stays within
    0..100 and its torpedo count and cooldowns never go negative, whatever
    is fired and however often it is updated (for a weapons subsystem with
    non-negative hp and power).  A torpedo command adds to the world exactly
    as many projectiles as it takes from the torpedo count, none or one; a
    phaser command adds one beam exactly when it takes 20 from the charge
    and starts the cooldown of 30; neither command creates what the other
    one fires. *)
Theorem ammunition_accounted (ws : WeaponsStation) (st : GameState) :
  stationOk ws ->
  (let r := fireTorpedo ws st in
   stationOk (fst r) /\
   (torpedoCount (fst r) = torpedoCount ws \/
    torpedoCount (fst r) = torpedoCount ws - 1)%Z /\
   length (projectiles (snd r)) =
     (length (projectiles st) + Z.to_nat (torpedoCount ws - torpedoCount (fst r)))%nat /\
   phaserBeams (snd r) = phaserBeams st /\
   phaserCharge (fst r) = phaserCharge ws) /\
  (let r := firePhaser ws st in
   stationOk (fst r) /\
   (phaserCharge (fst r) = phaserCharge ws /\ phaserCooldown (fst r) = phaserCooldown ws /\
    length (phaserBeams (snd r)) = length (phaserBeams st)
    \/
    phaserCharge (fst r) = phaserCharge ws - 20 /\ phaserCooldown (fst r) = 30%Z /\
    length (phaserBeams (snd r)) = S (length (phaserBeams st))) /\
   length (projectiles (snd r)) = length (projectiles st) /\
   torpedoCount (fst r) = torpedoCount ws) /\
  (0 <= hp (weapons (subsystems (heap st (playerShip st)))) ->
   0 <= power (weapons (subsystems (heap st (playerShip st)))) ->
   stationOk (weaponsUpdate ws st)).
Proof.
  intros (Hc0 & Hc1 & Ht & Hpc & Htc). split_and!.
  - cbv zeta. unfold fireTorpedo.
    destruct (Z.ltb_spec 0 (torpedoCooldown ws)) as [Hcd|Hcd]; cbn [orb fst snd].
    { split_and!; [by repeat split|by left| |done|done].
      cbn [weaponsPlay torpedoCount]. rewrite Z.sub_diag. cbn. lia. }
    destruct (Z.leb_spec (torpedoCount ws) 0) as [Hn|Hn]; cbn [fst snd].
    { split_and!; [by repeat split|by left| |done|done].
      cbn [weaponsPlay torpedoCount]. rewrite Z.sub_diag. cbn. lia. }
    pose proof (fireWeapon_counts "torpedo" (currentTarget st) st) as [Hb Hp].
    cbv zeta in Hb, Hp. change (String.eqb "torpedo" "phaser") with false in Hb, Hp.
    rewrite andb_false_r in Hb. cbn [negb] in Hp. rewrite andb_true_r in Hp.
    assert (Hbeams : phaserBeams (snd (fireWeapon "torpedo" (currentTarget st) st))
                     = phaserBeams st).
    { unfold fireWeapon. cbv zeta. destruct (Qleb _ 0 || Qleb _ 0).
      - cbn [snd]. by destruct (addCommsMessage_effect "SYSTEM" "Weapons offline!"
                                  MsgAlert st) as (_ & _ & _ & _ & -> & _).
      - change (String.eqb "torpedo" "phaser") with false.
        change (String.eqb "torpedo" "torpedo") with true. cbv iota.
        unfold createProjectile, randomUUID. by cbv beta iota zeta. }
    destruct (fireWeapon "torpedo" (currentTarget st) st) as [fired st'].
    cbn [fst snd] in *. destruct fired; cbn [fst snd weaponsPlay torpedoCount phaserCharge].
    + split_and!; [repeat split; cbn; first [done|lia]|by right| |done|done].
      rewrite Hp. replace (torpedoCount ws - (torpedoCount ws - 1))%Z with 1%Z by lia. done.
    + split_and!; [by repeat split|by left| |done|done].
      rewrite Hp, Z.sub_diag. cbn. lia.
  - cbv zeta. unfold firePhaser.
    destruct (Z.ltb_spec 0 (phaserCooldown ws)) as [Hcd|Hcd]; cbn [orb fst snd].
    { split_and!; [by repeat split|by left|done|done]. }
    destruct (Qltb (phaserCharge ws) 20) eqn:Ech; cbn [fst snd].
    { split_and!; [by repeat split|by left|done|done]. }
    apply Qltb_ge in Ech.
    destruct (orString (currentTarget st) None) as [t|].
    2:{ cbn [fst snd].
        destruct (addCommsMessage_effect "WEAPONS" "No target locked!" MsgAlert st)
          as (_ & _ & _ & Hp & Hb & _).
        split_and!; [by repeat split|left; by rewrite Hb|by rewrite Hp|done]. }
    pose proof (fireWeapon_counts "phaser" (currentTarget st) st) as [Hb Hp].
    cbv zeta in Hb, Hp. change (String.eqb "phaser" "phaser") with true in Hb, Hp.
    rewrite andb_true_r in Hb. cbn [negb] in Hp. rewrite andb_false_r in Hp.
    destruct (fireWeapon "phaser" (currentTarget st) st) as [fired st'].
    cbn [fst snd] in *. destruct fired; cbn [fst snd weaponsPlay torpedoCount phaserCharge
                                               phaserCooldown].
    + split_and!; [|right; split_and!; [done|done|lia]|lia|done].
      repeat split; cbn [phaserCharge torpedoCount phaserCooldown torpedoCooldown];
        first [lra|lia|done].
    + split_and!; [by repeat split|left; split_and!; [done|done|lia]|lia|done].
  - intros Hhp Hpw. unfold weaponsUpdate. cbv zeta.
    set (w := weapons (subsystems (heap st (playerShip st)))) in *.
    assert (Hrate : 0 <= hp w / 100 * (power w / 100) * 0.5).
    { apply Qmult_le_0_compat; [|done].
      apply Qmult_le_0_compat; apply Qle_shift_div_l; first [reflexivity|lra]. }
    repeat split; cbn [phaserCharge torpedoCount phaserCooldown torpedoCooldown].
    + unfold Math_min. qcases; lra.
    + unfold Math_min. qcases; lra.
    + done.
    + destruct (Z.ltb_spec 0 (phaserCooldown ws)); lia.
    + destruct (Z.ltb_spec 0 (torpedoCooldown ws)); lia.
Qed.

(** X20.  Rearming takes its time.  After [n] station updates a cooldown
    of [c] stands at [max(0, c - n)], whatever the world does meanwhile; so
    a phaser that has just fired is refused -- the station only sounds the
    error cue and leaves the world alone -- on each of the next 29 frames,
    and a torpedo tube on each of the next 59. *)
Theorem rearming_takes_its_time (ws : WeaponsStation) (worlds : nat -> GameState) (n : nat) :
  stationOk ws ->
  phaserCooldown (weaponsFrames ws worlds n) = Z.max 0 (phaserCooldown ws - Z.of_nat n) /\
  torpedoCooldown (weaponsFrames ws worlds n) = Z.max 0 (torpedoCooldown ws - Z.of_nat n) /\
  torpedoCount (weaponsFrames ws worlds n) = torpedoCount ws /\
  (forall st, (Z.of_nat n < phaserCooldown ws)%Z ->
              firePhaser (weaponsFrames ws worlds n) st =
                (weaponsPlay playError (weaponsFrames ws worlds n), st)) /\
  (forall st, (Z.of_nat n < torpedoCooldown ws)%Z ->
              fireTorpedo (weaponsFrames ws worlds n) st =
                (weaponsPlay playError (weaponsFrames ws worlds n), st)).
Proof.
  intros (_ & _ & _ & Hpc & Htc).
  assert (H : phaserCooldown (weaponsFrames ws worlds n)
                = Z.max 0 (phaserCooldown ws - Z.of_nat n) /\
              torpedoCooldown (weaponsFrames ws worlds n)
                = Z.max 0 (torpedoCooldown ws - Z.of_nat n) /\
              torpedoCount (weaponsFrames ws worlds n) = torpedoCount ws).
  { induction n as [|n (IH1 & IH2 & IH3)]; [cbn; split_and!; lia|].
    cbn [weaponsFrames]. unfold weaponsUpdate. cbv zeta.
    cbn [phaserCooldown torpedoCooldown torpedoCount].
    rewrite IH1, IH2, IH3. split_and!; [| |done].
    - destruct (Z.ltb_spec 0 (Z.max 0 (phaserCooldown ws - Z.of_nat n))); lia.
    - destruct (Z.ltb_spec 0 (Z.max 0 (torpedoCooldown ws - Z.of_nat n))); lia. }
  destruct H as (H1 & H2 & H3). split_and!; [done|done|done| |].
  - intros st Hlt. unfold firePhaser. rewrite H1.
    by rewrite (proj2 (Z.ltb_lt 0 _)) by lia.
  - intros st Hlt. unfold fireTorpedo. rewrite H2.
    by rewrite (proj2 (Z.ltb_lt 0 _)) by lia.
Qed.

(** ** The coordinate transforms *)

(** X21.  The coordinate transforms keep the centre and the orientation.
    For a positive scale, [worldToScreen] draws the view centre in the
    middle of the canvas and [screenToWorld] takes the middle of the canvas
    to the view centre; both are monotone in each coordinate, so what lies
    right of (below) the view centre is drawn in the right (lower) half of
    the canvas, and a pointer in the right (lower) half points at the world
    right of (below) the view centre. *)
Theorem renderer_keeps_orientation (r : Renderer) (a a' b b' centerX centerY scale : Q) :
  0 < scale ->
  (px (worldToScreen r centerX centerY centerX centerY scale) == width r / 2 /\
   py (worldToScreen r centerX centerY centerX centerY scale) == height r / 2 /\
   px (screenToWorld r (width r / 2) (height r / 2) centerX centerY scale) == centerX /\
   py (screenToWorld r (width r / 2) (height r / 2) centerX centerY scale) == centerY) /\
  (a <= a' ->
   px (worldToScreen r a b centerX centerY scale) <=
     px (worldToScreen r a' b' centerX centerY scale) /\
   px (screenToWorld r a b centerX centerY scale) <=
     px (screenToWorld r a' b' centerX centerY scale)) /\
  (b <= b' ->
   py (worldToScreen r a b centerX centerY scale) <=
     py (worldToScreen r a' b' centerX centerY scale) /\
   py (screenToWorld r a b centerX centerY scale) <=
     py (screenToWorld r a' b' centerX centerY scale)) /\
  (centerX <= a -> width r / 2 <= px (worldToScreen r a b centerX centerY scale)) /\
  (centerY <= b -> height r / 2 <= py (worldToScreen r a b centerX centerY scale)) /\
  (width r / 2 <= a -> centerX <= px (screenToWorld r a b centerX centerY scale)) /\
  (height r / 2 <= b -> centerY <= py (screenToWorld r a b centerX centerY scale)).
Proof.
  intros Hs. unfold worldToScreen, screenToWorld. cbn [px py].
  assert (Hinv : 0 <= / scale) by (apply Qinv_le_0_compat; lra).
  assert (Hdiv : forall u v, u <= v -> u / scale <= v / scale).
  { intros u v Huv. unfold Qdiv. by apply Qmult_le_compat_r. }
  assert (Hmul : forall u v, u <= v -> u * scale <= v * scale).
  { intros u v Huv. apply Qmult_le_compat_r; lra. }
  assert (Hz : forall u, 0 <= u -> 0 <= u / scale).
  { intros u Hu. unfold Qdiv. by apply Qmult_le_0_compat. }
  assert (Hm : forall u, 0 <= u -> 0 <= u * scale).
  { intros u Hu. apply Qmult_le_0_compat; lra. }
  split; [split_and!; field; lra|].
  split; [intros H; split;
          [pose proof (Hdiv (a - centerX) (a' - centerX) ltac:(lra)); lra
          |pose proof (Hmul (a - width r / 2) (a' - width r / 2) ltac:(lra)); lra]|].
  split; [intros H; split;
          [pose proof (Hdiv (b - centerY) (b' - centerY) ltac:(lra)); lra
          |pose proof (Hmul (b - height r / 2) (b' - height r / 2) ltac:(lra)); lra]|].
  split; [intros H; pose proof (Hz (a - centerX) ltac:(lra)); lra|].
  split; [intros H; pose proof (Hz (b - centerY) ltac:(lra)); lra|].
  split; [intros H; pose proof (Hm (a - width r / 2) ltac:(lra)); lra|].
  intros H. pose proof (Hm (b - height r / 2) ltac:(lra)). lra.
Qed.

(** ** The navigation station *)




(** ** The helm *)

Lemma keydown_throttle_up (st : GameState) :
  let p := heap st (playerShip st) in
  let st' := keydown false "w" st in
  playerShip st' = playerShip st /\
  heap st' (playerShip st) =
    setVelocity (Math_min 100 (velocity p / maxVelocity p * 100 + 10) / 100
                 * maxVelocity p * engineEffectivenessOf p) p.
Proof.
  cbv zeta. unfold keydown. cbn [String.eqb Ascii.eqb Bool.eqb orb].
  unfold setThrottle. cbv zeta. split; [done|]. by rewrite heap_modify_eq.
Qed.

Lemma throttle_step_bound (e t M u v : Q) :
  0 <= e -> e <= 1 -> 10 * (1 - e) * v <= e * M ->
  u * M == v -> t <= u * 100 + 10 -> 0 <= M * e ->
  10 * (1 - e) * (t / 100 * M * e) <= e * M.
Proof.
  intros He0 He1 IHv Hu Ht Hk.
  assert (H1 : t * (M * e) <= (u * 100 + 10) * (M * e)) by (by apply Qmult_le_compat_r).
  assert (H2 : 0 <= (1 - e) * ((u * 100 + 10) * (M * e) - t * (M * e)))
    by (apply Qmult_le_0_compat; lra).
  assert (H3 : 0 <= e * (e * M - 10 * (1 - e) * v)) by (apply Qmult_le_0_compat; lra).
  assert (H4 : u * M * e == v * e) by (by rewrite Hu).
  assert (H5 : u * M * e * e == v * e * e) by (by rewrite Hu).
  assert (A : (1 - e) * (t * (M * e)) <= 10 * (M * e)).
  { assert (B : (1 - e) * (t * (M * e)) <= (1 - e) * ((u * 100 + 10) * (M * e))) by lra.
    assert (C : (1 - e) * ((u * 100 + 10) * (M * e)) ==
                100 * (v * e) - 100 * (v * e * e) + 10 * (M * e) - 10 * (M * e * e)).
    { rewrite <- H5, <- H4. ring. }
    assert (D : e * (e * M - 10 * (1 - e) * v) ==
                M * e * e - 10 * (v * e) + 10 * (v * e * e)) by ring.
    rewrite D in H3. rewrite C in B. lra. }
  assert (Hg : 10 * (1 - e) * (t / 100 * M * e) == (1 - e) * (t * (M * e)) * (1 # 10))
    by field.
  rewrite Hg. lra.
Qed.

(** X23.  The throttle key stalls below full speed on weak engines.  Each
    press of [w] asks for the current throttle plus 10, where the current
    throttle is read back from the velocity, which engine effectiveness [e]
    has already scaled down.  So with [0 <= e <= 1] a velocity within
    [e M / (10 (1 - e))] stays within it however often the key is pressed;
    for [0 < e < 0.9], as with the engine power of 50 a new ship has, that
    is strictly below the velocity [M e] that [setThrottle(100)] gives. *)
Theorem throttle_key_stalls (st : GameState) (n : nat) :
  let p := heap st (playerShip st) in
  let e := engineEffectivenessOf p in
  let p' := heap (Nat.iter n (keydown false "w") st) (playerShip st) in
  0 < maxVelocity p -> 0 <= e -> e <= 1 ->
  10 * (1 - e) * velocity p <= e * maxVelocity p ->
  10 * (1 - e) * velocity p' <= e * maxVelocity p /\
  velocity (heap (setThrottle 100 st) (playerShip st)) == maxVelocity p * e /\
  (0 < e -> e < 0.9 -> velocity p' < maxVelocity p * e).
Proof.
  cbv zeta. intros HM He0 He1 Hv.
  set (M := maxVelocity (heap st (playerShip st))) in *.
  set (e := engineEffectivenessOf (heap st (playerShip st))) in *.
  assert (Hinv : let s := Nat.iter n (keydown false "w") st in
                 playerShip s = playerShip st /\
                 maxVelocity (heap s (playerShip st)) = M /\
                 engineEffectivenessOf (heap s (playerShip st)) = e /\
                 10 * (1 - e) * velocity (heap s (playerShip st)) <= e * M).
  { induction n as [|n (IHp & IHM & IHe & IHv)]; [by cbv zeta|].
    cbv zeta. rewrite Nat.iter_succ. set (s := Nat.iter n (keydown false "w") st) in *.
    destruct (keydown_throttle_up s) as [Hp Hh]. cbv zeta in Hp, Hh.
    rewrite IHp in Hh. rewrite Hp, Hh, IHM, IHe.
    split_and!; [done|by rewrite <- IHM|by rewrite <- IHe|].
    cbn [velocity setVelocity].
    set (v := velocity (heap s (playerShip st))) in *.
    assert (Hu : v / M * M == v) by (field; lra).
    set (u := v / M) in *.
    set (t := Math_min 100 (u * 100 + 10)).
    assert (Ht : t <= u * 100 + 10) by (unfold t, Math_min; qcases; lra).
    assert (Hk : 0 <= M * e) by (apply Qmult_le_0_compat; lra).
    apply (throttle_step_bound e t M u v); done. }
  cbv zeta in Hinv. destruct Hinv as (_ & _ & _ & Hfin).
  split_and!; [done| |].
  - unfold setThrottle. cbv zeta. rewrite heap_modify_eq. cbn [velocity setVelocity].
    fold (engineEffectivenessOf (heap st (playerShip st))). fold e. fold M. field.
  - intros Hpos Hlt.
    set (v' := velocity (heap (Nat.iter n (keydown false "w") st) (playerShip st))) in *.
    assert (H1 : 0 < M * e) by (apply Qmult_lt_0_compat; lra).
    assert (H2 : 0 <= (9 - 10 * e) * (M * e)) by (apply Qmult_le_0_compat; lra).
    destruct (Qlt_le_dec v' (M * e)) as [Hlt'|Hge]; [done|exfalso].
    assert (H3 : 0 <= (10 * (1 - e)) * (v' - M * e)) by (apply Qmult_le_0_compat; lra).
    assert (H4 : 0 < (9 - 10 * e) * (M * e)) by (apply Qmult_lt_0_compat; lra).
    lra.
Qed.

Lemma calculateHeadingFromVector_range (dx dy : Q) :
  0 < Math_PI -> (forall a b, - Math_PI <= Math_atan2 a b <= Math_PI) ->
  0 <= calculateHeadingFromVector dx dy /\ calculateHeadingFromVector dx dy <= 360.
Proof.
  intros Hpi Hat. unfold calculateHeadingFromVector. cbv zeta.
  destruct (Hat dy dx) as [Hlo Hhi].
  set (t := Math_atan2 dy dx) in *.
  assert (Hd : t * 180 / Math_PI * Math_PI == t * 180) by (field; lra).
  set (h := t * 180 / Math_PI) in *.
  assert (H1 : h <= 180).
  { destruct (Qlt_le_dec 180 h) as [Hgt|]; [exfalso|done].
    assert (0 < (h - 180) * Math_PI) by (apply Qmult_lt_0_compat; lra). lra. }
  assert (H2 : -180 <= h).
  { destruct (Qlt_le_dec h (-180)) as [Hgt|]; [exfalso|done].
    assert (0 < (-180 - h) * Math_PI) by (apply Qmult_lt_0_compat; lra). lra. }
  qcases; lra.
Qed.

(** X24.  Steering by a direction.  With [Math.PI] positive and
    [Math.atan2] within [-PI, PI], the bearing that
    [calculateHeadingFromVector] computes lies in the closed range 0..360.
    Dragging the compass and steering by the map pass the bearing through
    [setHeading], so the player ship gets the bearing normalised by [% 360],
    which lies in [0, 360); a pointer within 0.001 of the ship is ignored.
    Auto-navigation stores the bearing to the waypoint as computed, in
    0..360, sets the velocity to [maxVelocity] x 0.75 x engine
    effectiveness, and keeps the waypoint; without a waypoint it does
    nothing. *)
Theorem steering_stores_bearing (r : Renderer) (a b c d : Q) (st : GameState) :
  0 < Math_PI -> (forall u v, - Math_PI <= Math_atan2 u v <= Math_PI) ->
  let p := heap st (playerShip st) in
  (0 <= calculateHeadingFromVector a b /\ calculateHeadingFromVector a b <= 360) /\
  (let st' := handleCompassPointer a b c d st in
   heading (heap st' (playerShip st)) = normalizeHeading (calculateHeadingFromPoint a b c d) /\
   0 <= heading (heap st' (playerShip st)) /\ heading (heap st' (playerShip st)) < 360) /\
  (let w := screenToWorld r a b (x p) (y p) helmScale in
   let st' := handleMapSteer r a b st in
   (Math_abs (px w - x p) + Math_abs (py w - y p) < 0.001 -> st' = st) /\
   (0.001 <= Math_abs (px w - x p) + Math_abs (py w - y p) ->
    heading (heap st' (playerShip st)) =
      normalizeHeading (calculateHeadingFromVector (px w - x p) (py w - y p)) /\
    0 <= heading (heap st' (playerShip st)) /\ heading (heap st' (playerShip st)) < 360)) /\
  (waypoint st = None -> autoNavigateToWaypoint st = st) /\
  (forall wp, waypoint st = Some wp ->
     let st' := autoNavigateToWaypoint st in
     let e := engines (subsystems p) in
     heading (heap st' (playerShip st)) =
       calculateHeadingFromVector (px wp - x p) (py wp - y p) /\
     0 <= heading (heap st' (playerShip st)) /\ heading (heap st' (playerShip st)) <= 360 /\
     velocity (heap st' (playerShip st)) =
       maxVelocity p * 0.75 * ((hp e / 100) * (power e / 100)) /\
     playerShip st' = playerShip st /\
     waypoint st' = Some wp).
Proof.
  intros Hpi Hat. cbv zeta.
  pose proof (fun u v => calculateHeadingFromVector_range u v Hpi Hat) as Hrange.
  split; [apply Hrange|]. split; [|split; [|split]].
  - unfold handleCompassPointer, setHeading. rewrite heap_modify_eq.
    cbn [heading setHeadingField]. split; [done|]. apply normalizeHeading_range.
  - split.
    + unfold handleMapSteer. cbv zeta. intros Hnear.
      by rewrite (proj2 (Qltb_lt _ _) Hnear).
    + unfold handleMapSteer. cbv zeta. intros Hfar.
      rewrite (proj2 (Qltb_ge _ _) Hfar). unfold setHeading. rewrite heap_modify_eq.
      cbn [heading setHeadingField]. split; [done|]. apply normalizeHeading_range.
  - unfold autoNavigateToWaypoint. by intros ->.
  - intros wp Hwp. unfold autoNavigateToWaypoint. rewrite Hwp. cbv zeta.
    match goal with
    | |- context [addCommsMessage ?a ?b ?c ?s0] =>
        destruct (addCommsMessage_effect a b c s0)
          as (Hh & _ & Hp & _ & _ & _ & _ & Hw & _)
    end.
    rewrite Hh, Hw, Hp. cbn [playerShip modify withHeap waypoint].
    rewrite !heap_modify_eq.
    cbn [heading velocity setVelocity setHeadingField maxVelocity subsystems].
    split; [done|]. split; [apply Hrange|]. split; [apply Hrange|]. done.
Qed.

(** ** Power presets *)

Lemma setPower_player (systemName : string) (p : Q) (st : GameState) :
  playerShip (setPower systemName p st) = playerShip st /\
  heap (setPower systemName p st) (playerShip st) =
    poweredShip systemName p (heap st (playerShip st)) /\
  events (setPower systemName p st) =
    match getSubsystem systemName (subsystems (heap st (playerShip st))) with
    | Some _ => PowerChanged systemName (clampPower p) :: events st
    | None => events st
    end.
Proof.
  unfold setPower, poweredShip.
  destruct (getSubsystem _ _) as [system|]; [|done]. cbv zeta.
  cbn [playerShip heap events emit withEvents]. by rewrite heap_modify_eq.
Qed.

Lemma applyPreset_known (st : GameState) (n1 n2 n3 n4 : string) (v1 v2 v3 v4 : Q) :
  let st' := fold_left (fun st '(system, value) => setPower system value st)
               [(n1, v1); (n2, v2); (n3, v3); (n4, v4)] st in
  let s1 := poweredShip n1 v1 (heap st (playerShip st)) in
  let s2 := poweredShip n2 v2 s1 in
  let s3 := poweredShip n3 v3 s2 in
  playerShip st' = playerShip st /\
  heap st' (playerShip st) = poweredShip n4 v4 s3.
Proof.
  cbv zeta. cbn [fold_left].
  destruct (setPower_player n1 v1 st) as (P1 & H1 & _).
  set (st1 := setPower n1 v1 st) in *.
  destruct (setPower_player n2 v2 st1) as (P2 & H2 & _).
  set (st2 := setPower n2 v2 st1) in *.
  destruct (setPower_player n3 v3 st2) as (P3 & H3 & _).
  set (st3 := setPower n3 v3 st2) in *.
  destruct (setPower_player n4 v4 st3) as (P4 & H4 & _).
  rewrite P4, P3, P2, P1. split; [done|].
  rewrite P3, P2, P1 in H4. rewrite P2, P1 in H3. rewrite P1 in H2.
  by rewrite H4, H3, H2, H1.
Qed.

(** X25.  Every preset hands out 200 points of power.  After
    [applyPreset] with one of the four preset names the four subsystems of
    the player carry the preset's values, which add up to exactly 200, the
    limit above which the display turns red; hp and maxHp are untouched.
    Any other name is ignored. *)
Theorem presets_hand_out_200 (preset : string) (st : GameState) :
  (preset ∈ ["balanced"; "combat"; "defensive"; "speed"] ->
   let ss := subsystems (heap st (playerShip st)) in
   let ss' := subsystems (heap (applyPreset preset st) (playerShip st)) in
   getTotalPower (applyPreset preset st) == 200 /\
   playerShip (applyPreset preset st) = playerShip st /\
   (exists config,
      presets preset = Some config /\
      [power (engines ss'); power (weapons ss'); power (shields ss'); power (sensors ss')]
        = config.*2) /\
   (hp (engines ss'), hp (weapons ss'), hp (shields ss'), hp (sensors ss')) =
     (hp (engines ss), hp (weapons ss), hp (shields ss), hp (sensors ss)) /\
   (maxHp (engines ss'), maxHp (weapons ss'), maxHp (shields ss'), maxHp (sensors ss')) =
     (maxHp (engines ss), maxHp (weapons ss), maxHp (shields ss), maxHp (sensors ss))) /\
  (preset ∉ ["balanced"; "combat"; "defensive"; "speed"] -> applyPreset preset st = st).
Proof.
  split.
  - intros Hin. cbv zeta. unfold getTotalPower, applyPreset.
    repeat (apply elem_of_cons in Hin as [->|Hin]); [..|by apply elem_of_nil in Hin];
      cbn [presets String.eqb Ascii.eqb Bool.eqb];
      match goal with
      | |- context [fold_left _ [(?n1, ?v1); (?n2, ?v2); (?n3, ?v3); (?n4, ?v4)] st] =>
          destruct (applyPreset_known st n1 n2 n3 n4 v1 v2 v3 v4) as [HP HH]
      end;
      cbv zeta in HP, HH; rewrite HP, HH;
      (split; [vm_compute; reflexivity|]);
      (split; [done|]);
      (split; [eexists; split; [reflexivity|vm_compute; reflexivity]|]);
      split; reflexivity.
  - intros Hnot. unfold applyPreset, presets.
    rewrite !not_elem_of_cons in Hnot. destruct Hnot as (H1 & H2 & H3 & H4 & _).
    apply String.eqb_neq in H1, H2, H3, H4. by rewrite H1, H2, H3, H4.
Qed.

(** ** Picking a target on the map *)

Lemma distLt_trans (d d' r : Q) : d < d' -> distLt d' r = true -> distLt d r = true.
Proof.
  unfold distLt. intros Hlt. rewrite !andb_true_iff, !Qltb_lt. intros [H0 H1].
  split; [done|lra].
Qed.

Lemma closestTo_fold (tolerance wx wy : Q) (st : GameState) (l : list addr) :
  closestAmong tolerance wx wy st l
    (fold_left
       (fun best ship =>
          let dist := hypotSq (x (heap st ship) - wx) (y (heap st ship) - wy) in
          match best with
          | None => if distLt dist tolerance then Some (ship, dist) else None
          | Some (_, closestDist) =>
              if Qltb dist closestDist then Some (ship, dist) else best
          end) l None).
Proof.
  induction l as [|c l IH] using rev_ind.
  - cbn. intros b Hb. by apply elem_of_nil in Hb.
  - rewrite fold_left_app. cbn [fold_left]. cbv zeta.
    destruct (fold_left _ l None) as [[a d]|]; unfold closestAmong in *; cbv zeta in *.
    + destruct IH as (Hd & Htol & Hmin & i & Hi & Hfirst).
      destruct (Qltb _ d) eqn:E; [apply Qltb_lt in E|apply Qltb_ge in E].
      * split_and!; [done|by eapply distLt_trans| |].
        -- intros b Hb. apply elem_of_app in Hb as [Hb|Hb].
           ++ specialize (Hmin b Hb). lra.
           ++ apply list_elem_of_singleton in Hb as ->. lra.
        -- exists (length l). split; [by rewrite lookup_app_r, Nat.sub_diag by lia|].
           intros j b Hj Hb. rewrite lookup_app_l in Hb by done.
           assert (d <= hypotSq (x (heap st b) - wx) (y (heap st b) - wy)).
           { apply Hmin. by eapply list_elem_of_lookup_2. }
           lra.
      * split_and!; [done|done| |].
        -- intros b Hb. apply elem_of_app in Hb as [Hb|Hb]; [by apply Hmin|].
           by apply list_elem_of_singleton in Hb as ->.
        -- exists i. split; [by apply lookup_app_l_Some|].
           intros j b Hj Hb. apply (Hfirst j b Hj).
           rewrite lookup_app_l in Hb; [done|].
           apply lookup_lt_Some in Hi. lia.
    + destruct (distLt _ tolerance) eqn:E.
      * split_and!; [done|done| |].
        -- intros b Hb. apply elem_of_app in Hb as [Hb|Hb].
           ++ specialize (IH b Hb). destruct (Qlt_le_dec
                (hypotSq (x (heap st b) - wx) (y (heap st b) - wy))
                (hypotSq (x (heap st c) - wx) (y (heap st c) - wy))) as [Hlt|Hle]; [|done].
              by rewrite (distLt_trans _ _ _ Hlt E) in IH.
           ++ apply list_elem_of_singleton in Hb as ->. lra.
        -- exists (length l). split; [by rewrite lookup_app_r, Nat.sub_diag by lia|].
           intros j b Hj Hb. rewrite lookup_app_l in Hb by done.
           assert (Hbl : b ∈ l) by (by eapply list_elem_of_lookup_2).
           specialize (IH b Hbl).
           destruct (Qlt_le_dec
                (hypotSq (x (heap st c) - wx) (y (heap st c) - wy))
                (hypotSq (x (heap st b) - wx) (y (heap st b) - wy))) as [Hlt|Hle]; [done|].
           exfalso. revert IH E. unfold distLt.
           rewrite andb_false_iff, andb_true_iff, !Qltb_lt, !Qltb_ge. intros [?|?] [? ?]; lra.
      * intros b Hb. apply elem_of_app in Hb as [Hb|Hb]; [by apply IH|].
        by apply list_elem_of_singleton in Hb as ->.
Qed.

Lemma closestTo_spec (tolerance wx wy : Q) (st : GameState) :
  closestAmong tolerance wx wy st (ships st) (closestTo tolerance wx wy st).
Proof. apply closestTo_fold. Qed.

(** X26.  A click locks the closest ship in reach.  [handleCanvasClick]
    of the weapons station looks for the listed ship closest to the clicked
    world point within 60 units (40 times the scale 1.5).  If no ship is
    that close, station and world stay exactly as they were.  Otherwise the
    target lock goes to a listed ship within reach than which no listed ship
    is closer, the first such ship in list order; one target-changed event
    is emitted and the lock cue is played. *)
Theorem click_locks_closest (r : Renderer) (screenX screenY : Q)
    (ws : WeaponsStation) (st : GameState) :
  let p := heap st (playerShip st) in
  let w := screenToWorld r screenX screenY (x p) (y p) weaponsScale in
  let dsq := fun a => hypotSq (x (heap st a) - px w) (y (heap st a) - py w) in
  let r' := weaponsHandleCanvasClick r screenX screenY ws st in
  ((forall b, b ∈ ships st -> distLt (dsq b) 60 = false) /\ r' = (ws, st))
  \/
  (exists i a,
     ships st !! i = Some a /\
     distLt (dsq a) 60 = true /\
     (forall b, b ∈ ships st -> dsq a <= dsq b) /\
     (forall j b, (j < i)%nat -> ships st !! j = Some b -> dsq a < dsq b) /\
     snd r' = setTarget (Some (id (heap st a))) st /\
     currentTarget (snd r') = Some (id (heap st a)) /\
     fst r' = weaponsPlay playTargetLock ws).
Proof.
  cbv zeta. unfold weaponsHandleCanvasClick. cbv zeta.
  set (w := screenToWorld r screenX screenY _ _ weaponsScale).
  pose proof (closestTo_spec (40 * weaponsScale) (px w) (py w) st) as H.
  assert (Htol : forall d, distLt d (40 * weaponsScale) = distLt d 60).
  { intros d. unfold distLt, Qltb, weaponsScale.
    assert (E : 40 * 1.5 == 60) by reflexivity. by rewrite E. }
  destruct (closestTo _ _ _ st) as [[a d]|]; unfold closestAmong in H;
    cbv beta iota zeta in H.
  - right. destruct H as (-> & Hd & Hmin & i & Hi & Hfirst).
    exists i, a. rewrite Htol in Hd. by split_and!.
  - left. split; [|done]. intros b Hb. rewrite <- Htol. by apply H.
Qed.

(** ** Hailing *)

Lemma randomValue_range (n : nat) : 0 <= randomValue n /\ randomValue n < 1.
Proof.
  unfold randomValue.
  pose proof (Z.mod_pos_bound (entropy n) (2 ^ 53) ltac:(done)) as [H0 H1].
  set (z := (entropy n mod 2 ^ 53)%Z) in *.
  assert (Hd : 0 < inject_Z (2 ^ 53)) by (change 0 with (inject_Z 0); by rewrite <- Zlt_Qlt).
  split.
  - apply Qle_shift_div_l; [done|]. rewrite Qmult_0_l.
    change 0 with (inject_Z 0). by rewrite <- Zle_Qle.
  - apply Qlt_shift_div_r; [done|]. rewrite Qmult_1_l. by rewrite <- Zlt_Qlt.
Qed.

(** X27.  A hail is answered in character.  Hailing an id that no ship
    carries changes nothing and arms no timer.  Hailing a ship logs one
    hail from COMMS and leaves ships and objects alone.  The answer, when
    the timer fires, draws one random number and logs one hail, signed with
    the ship's name in upper case, whose text is one of the three lines of
    the ship's faction -- the random index never leaves the table. *)
Theorem hail_answered_in_character (shipId : option string) (st : GameState) :
  (getShip shipId st = None -> hailShip shipId st = (None, st)) /\
  (forall ship, getShip shipId st = Some ship ->
     fst (hailShip shipId st) = Some ship /\
     heap (snd (hailShip shipId st)) = heap st /\
     ships (snd (hailShip shipId st)) = ships st /\
     exists m, head (commsLog (snd (hailShip shipId st))) = Some m /\
               sender m = "COMMS" /\ msgType m = MsgHail /\
               message m = ("Hailing " ++ name (heap st ship) ++ "...")%string) /\
  (forall ship,
     let st' := hailResponse ship st in
     randomCalls st' = S (randomCalls st) /\
     heap st' = heap st /\ ships st' = ships st /\
     exists m, head (commsLog st') = Some m /\
               sender m = toUpperCase (name (heap st ship)) /\ msgType m = MsgHail /\
               message m ∈ responses (name (heap st ship)) (faction (heap st ship))).
Proof.
  split_and!.
  - intros Hn. unfold hailShip. by rewrite Hn.
  - intros ship Hs. unfold hailShip. rewrite Hs. cbn [fst snd].
    match goal with
    | |- context [addCommsMessage ?a ?b ?c ?s0] =>
        destruct (addCommsMessage_effect a b c s0)
          as (Hh & Hsh & _ & _ & _ & _ & _ & _ & _ & _ & _ & _ & Hlog)
    end.
    split_and!; [done|done|done|]. eexists. split; [exact Hlog|]. by split_and!.
  - intros ship. cbv zeta. unfold hailResponse, Math_random. cbv beta iota zeta.
    set (st1 := withRandomCalls _ st).
    match goal with
    | |- context [addCommsMessage ?a ?b ?c ?s0] =>
        destruct (addCommsMessage_effect a b c s0)
          as (Hh & Hsh & _ & _ & _ & _ & _ & _ & _ & _ & Hr & _ & Hlog)
    end.
    split_and!; [by rewrite Hr|by rewrite Hh|by rewrite Hsh|].
    eexists. split; [exact Hlog|]. cbn [sender msgType message].
    split_and!; [done|done|].
    destruct (randomValue_range (randomCalls st)) as [R0 R1].
    set (rv := randomValue (randomCalls st)) in *.
    assert (Hlen : length (responses (name (heap st ship)) (faction (heap st ship))) = 3%nat)
      by (by destruct (faction (heap st ship))).
    cbn [heap withRandomCalls] . rewrite Hlen.
    destruct (floor_bounds (rv * inject_Z (Z.of_nat 3))) as [F0 F1].
    change (inject_Z (Z.of_nat 3)) with 3 in *.
    set (k := Math_floor (rv * 3)) in *. unfold Math_floor in k. fold k in F0, F1.
    assert (Hk : (0 <= k < 3)%Z).
    { split.
      - apply Z.lt_succ_r. rewrite Zlt_Qlt. unfold Z.succ. rewrite inject_Z_plus.
        change (inject_Z 1) with 1. change (inject_Z 0) with 0. lra.
      - rewrite Zlt_Qlt. change (inject_Z 3) with 3. lra. }
    assert (Hi : (Z.to_nat k < 3)%nat) by lia.
    destruct (lookup_lt_is_Some_2 (responses (name (heap st ship)) (faction (heap st ship)))
                (Z.to_nat k)) as [line Hline]; [by rewrite Hlen|].
    rewrite Hline. cbn [default]. by eapply list_elem_of_lookup_2.
Qed.

(** ** Scanning *)

Lemma scanTicks_succ (n : nat) (ts : TacticalStation) (st : GameState) :
  scanTicks (S n) ts st =
  bindO (scanTicks n ts st) (fun '(ts, st, running) =>
    if running then scanTick ts st else Done (ts, st, false)).
Proof. reflexivity. Qed.

Lemma scanTicks_running (n : nat) (ts : TacticalStation) (st : GameState) :
  scanRadius ts + 50 * inject_Z (Z.of_nat n) <= 500 ->
  exists r,
    scanTicks n ts st =
      Done (mkTacticalStation (tacticalScale ts) (radarAngle ts) r (scanning ts)
              (selectedShip ts) (tacticalAudio ts), st, true) /\
    r == scanRadius ts + 50 * inject_Z (Z.of_nat n).
Proof.
  induction n as [|n IH]; intros Hn.
  - exists (scanRadius ts). split; [by destruct ts|].
    change (inject_Z (Z.of_nat 0)) with 0. lra.
  - rewrite Nat2Z.inj_succ in Hn. unfold Z.succ in Hn. rewrite inject_Z_plus in Hn.
    change (inject_Z 1) with 1 in Hn.
    destruct IH as (r & Hr & Er).
    { assert (0 <= inject_Z (Z.of_nat n))
        by (change 0 with (inject_Z 0); rewrite <- Zle_Qle; lia). lra. }
    cbn [scanTicks]. rewrite Hr. cbn [bindO]. unfold scanTick. cbv zeta.
    cbn [scanRadius tacticalScale radarAngle scanning selectedShip tacticalAudio].
    rewrite (proj2 (Qltb_ge 500 (r + 50))) by lra.
    eexists. split; [reflexivity|].
    rewrite Nat2Z.inj_succ. unfold Z.succ. rewrite inject_Z_plus.
    change (inject_Z 1) with 1. lra.
Qed.

(** X28.  A scan takes eleven timer ticks and marks the ship selected at
    the end.  [performScan] does nothing without a selection or while a
    scan is running.  Once started, ten firings of the timer only widen the
    scan ring, up to 500, and leave the world alone; the eleventh ends the
    scan, resets the ring, stops the timer, marks the selected ship --
    listed or not -- as scanned without touching any other object, and logs
    one message from SENSORS.  Without a selection at that moment the
    callback raises. *)
Theorem scan_takes_eleven_ticks (ts : TacticalStation) (st : GameState) :
  (selectedShip ts = None \/ scanning ts = true -> performScan ts = (ts, false)) /\
  (forall ship, selectedShip ts = Some ship -> scanning ts = false ->
     let ts0 := fst (performScan ts) in
     snd (performScan ts) = true /\
     scanning ts0 = true /\ scanRadius ts0 = 0 /\ selectedShip ts0 = Some ship /\
     performScan ts0 = (ts0, false) /\
     (forall n, (n <= 10)%nat ->
        exists ts', scanTicks n ts0 st = Done (ts', st, true) /\
                    scanning ts' = true /\ selectedShip ts' = Some ship /\
                    scanRadius ts' == 50 * inject_Z (Z.of_nat n)) /\
     (exists ts' st',
        scanTicks 11 ts0 st = Done (ts', st', false) /\
        scanning ts' = false /\ scanRadius ts' = 0 /\
        heap st' ship = setScanned true (heap st ship) /\
        (forall b, b <> ship -> heap st' b = heap st b) /\
        ships st' = ships st /\
        exists m, head (commsLog st') = Some m /\
                  sender m = "SENSORS" /\
                  message m = ("Scan complete: " ++ name (heap st ship))%string)) /\
  (selectedShip ts = None -> 450 < scanRadius ts -> scanTick ts st = TypeError).
Proof.
  split; [|split].
  - intros [Hn|Hs]; unfold performScan.
    + by rewrite Hn.
    + rewrite Hs. by destruct (selectedShip ts).
  - intros ship Hsel Hscan. cbv zeta.
    set (ts0 := mkTacticalStation (tacticalScale ts) (radarAngle ts) 0 true (Some ship)
                  (tacticalAudio ts)).
    assert (Hstart : performScan ts = (ts0, true)).
    { unfold performScan. by rewrite Hsel, Hscan. }
    rewrite Hstart. cbn [fst snd].
    assert (Hrun : forall n, (n <= 10)%nat ->
              exists r, scanTicks n ts0 st =
                Done (mkTacticalStation (tacticalScale ts0) (radarAngle ts0) r true
                        (Some ship) (tacticalAudio ts0), st, true) /\
                r == 50 * inject_Z (Z.of_nat n)).
    { intros n Hn.
      destruct (scanTicks_running n ts0 st) as (r & Hr & Er).
      { cbn [scanRadius ts0].
        assert (inject_Z (Z.of_nat n) <= 10)
          by (change 10 with (inject_Z 10); rewrite <- Zle_Qle; lia). lra. }
      exists r. split; [exact Hr|cbn [scanRadius ts0] in Er; lra]. }
    split_and!; [done|done|done|done| | |].
    + done.
    + intros n Hn. destruct (Hrun n Hn) as (r & Hr & Er).
      eexists. split; [exact Hr|]. by split_and!.
    + destruct (Hrun 10%nat ltac:(lia)) as (r & Hr & Er).
      change (inject_Z (Z.of_nat 10)) with 10 in Er.
      rewrite (scanTicks_succ 10), Hr. cbn [bindO]. unfold scanTick. cbv zeta.
      cbn [scanRadius tacticalScale radarAngle scanning selectedShip tacticalAudio].
      rewrite (proj2 (Qltb_lt 500 (r + 50))) by lra.
      eexists _, _. split; [reflexivity|].
      assert (Hname : name (heap (modify ship (setScanned true) st) ship)
                      = name (heap st ship)) by (by rewrite heap_modify_eq).
      rewrite Hname.
      set (txt := ("Scan complete: " ++ name (heap st ship))%string).
      set (st1 := modify ship (setScanned true) st).
      destruct (addCommsMessage_effect "SENSORS" txt MsgInfo st1)
        as (Hh & Hsh & _ & _ & _ & _ & _ & _ & _ & _ & _ & _ & Hlog).
      split; [done|]. split; [done|]. split; [|split; [|split]].
      * rewrite Hh. subst st1. by rewrite heap_modify_eq.
      * intros b Hb. rewrite Hh. subst st1. rewrite heap_modify.
        by apply Nat.eqb_neq in Hb as ->.
      * by rewrite Hsh.
      * eexists. split; [exact Hlog|]. by split.
  - intros Hn Hr. unfold scanTick. cbv zeta.
    rewrite (proj2 (Qltb_lt 500 _)) by lra. by rewrite Hn.
Qed.

End Engine.

(** * A worked session

    A concrete numeric library and concrete sources of fresh values, and a
    small world: the player at the origin and one damaged hostile warbird 30
    units away. *)

Definition sampleCos : Q -> Q := fun _ => 1.
Definition sampleSin : Q -> Q := fun _ => 0.
Definition sampleAtan2 : Q -> Q -> Q := fun _ _ => 0.
Definition samplePI : Q := 355 # 113.
Definition sampleEntropy : nat -> Z := fun _ => 0%Z.
Definition sampleUuid : nat -> string :=
  fun n => String (Ascii.ascii_of_nat (65 + n)) "".

Definition warbird : ShipConfig :=
  mkShipConfig None (Some "IKS Vengeance") (Some "warbird") (Some Hostile)
    (Some 30) (Some 0) (Some 180) None (Some 7) (Some 2) None (Some 20) (Some 100)
    None None None None None None (Some 22) None.

Definition skirmish : GameState :=
  snd (addShip sampleUuid warbird (reset sampleUuid)).

(** The same world after a torpedo launch. *)
Definition torpedoAway : GameState :=
  snd (fireWeapon sampleEntropy sampleUuid "torpedo" None skirmish).

Definition torpedo : Projectile :=
  mkProjectile "B" Torpedo 0 0 0 12 (30 * ((100 / 100) * (50 / 100))) "player" None 300 8.


Lemma skirmish_wellFormed : wellFormed skirmish.
Proof.
  unfold wellFormed. change (shipIds skirmish) with ["A"]. split_and!.
  - reflexivity.
  - intros H. apply list_elem_of_singleton in H. discriminate H.
  - apply NoDup_singleton.
Defined.

(** C2 at a concrete input: 1000 points of damage on the warbird. *)
Lemma damageShip_destruction_witness :
  wellFormed skirmish /\
  hull (heap (damageShip sampleEntropy sampleUuid 1%nat 1000 skirmish) 1%nat) == 0 /\
  ships (damageShip sampleEntropy sampleUuid 1%nat 1000 skirmish) = [] /\
  getShip (Some "A") (damageShip sampleEntropy sampleUuid 1%nat 1000 skirmish) = None.
Proof.
  assert (Hz : hull (heap (damageShip sampleEntropy sampleUuid 1%nat 1000 skirmish) 1%nat) == 0)
    by reflexivity.
  destruct (damageShip_destruction sampleEntropy sampleUuid skirmish 1%nat 1000
              skirmish_wellFormed Hz) as [Hnpc _].
  destruct (Hnpc O eq_refl) as (Hs & _ & Hg & _).
  split_and!; [exact skirmish_wellFormed|exact Hz|exact Hs|exact Hg].
Defined.

(** C3 at a concrete input: the torpedo reaches the warbird on its first
    tick, takes its hull from 20 to 11 and its shields from 100 to 94, and
    is gone. *)
Lemma projectile_removed_exactly_once_witness :
  projectiles torpedoAway !! O = Some torpedo /\
  projectiles (stepProjectile sampleCos sampleSin samplePI sampleEntropy sampleUuid
                 O torpedoAway) = [] /\
  hull (heap (stepProjectile sampleCos sampleSin samplePI sampleEntropy sampleUuid
                O torpedoAway) 1%nat) == 11 /\
  shieldStrength (heap (stepProjectile sampleCos sampleSin samplePI sampleEntropy sampleUuid
                          O torpedoAway) 1%nat) == 94.
Proof.
  assert (Hi : projectiles torpedoAway !! O = Some torpedo) by reflexivity.
  split; [exact Hi|].
  destruct (projectile_removed_exactly_once sampleCos sampleSin samplePI
              sampleEntropy sampleUuid torpedoAway O torpedo Hi) as [Hhit _].
  destruct (Hhit 1%nat) as (Hp & _ & _ & Hh & _).
  - exists [], []. split_and!; [reflexivity|constructor|split; reflexivity].
  - split; [exact Hp|]. rewrite Hh. split; reflexivity.
Defined.

(** C4 at a concrete input: the warbird, at 20 of 100 hull, flees although
    it is within attack distance. *)
Lemma damaged_hostile_flees_witness :
  faction (heap skirmish 1%nat) = Hostile /\
  hull (heap skirmish 1%nat) / maxHull (heap skirmish 1%nat) < 0.3 /\
  aiState (heap (updateNPCAI 1%nat skirmish) 1%nat) = Flee.
Proof.
  assert (Hr : hull (heap skirmish 1%nat) / maxHull (heap skirmish 1%nat) < 0.3)
    by reflexivity.
  assert (Hm : ~ maxHull (heap skirmish 1%nat) == 0) by discriminate.
  split_and!; [reflexivity|exact Hr|].
  exact (proj1 (damaged_hostile_flees sampleCos sampleSin sampleAtan2 samplePI
                  sampleEntropy sampleUuid skirmish 1%nat eq_refl Hm Hr)).
Defined.





Lemma skirmish_hostile_near : someHostileWithin skirmish 500.
Proof.
  exists 1%nat. split_and!; [|reflexivity|reflexivity].
  change (ships skirmish) with [1%nat]. apply list_elem_of_here.
Defined.

(** C5 at a concrete input: the warbird 30 units away raises the alert
    from normal to red. *)
Lemma alert_automation_witness :
  someHostileWithin skirmish 500 /\
  alertLevel skirmish = AlertNormal /\
  alertLevel (checkAlertLevel sampleUuid skirmish) = AlertRed.
Proof.
  destruct (alert_automation sampleUuid skirmish) as [Hred _].
  split_and!; [exact skirmish_hostile_near|reflexivity|exact (Hred skirmish_hostile_near)].
Defined.

(** C6 at a concrete input: a negative heading beyond two full turns. *)
Lemma heading_normalized_witness :
  0 <= heading (heap (setHeading (-725) skirmish) (playerShip skirmish)) /\
  heading (heap (setHeading (-725) skirmish) (playerShip skirmish)) < 360 /\
  heading (heap (setHeading (-725) skirmish) (playerShip skirmish)) == 355.
Proof.
  destruct (heading_normalized sampleCos sampleSin sampleAtan2 samplePI
              sampleEntropy sampleUuid skirmish) as [Hset _].
  destruct (Hset (-725)) as [H0 H360].
  split_and!; [exact H0|exact H360|reflexivity].
Defined.


(** C10 at a concrete input: the warbird, weapons at effectiveness 0.5,
    fires on the player 30 units away: damage 5, of which the shields absorb
    2 and the hull takes 3. *)
Lemma npc_phaser_attack_witness :
  10 * getSystemEffectiveness (heap skirmish 1%nat) weapons == 5 /\
  shieldStrength (heap (npcFireAtPlayer sampleEntropy sampleUuid 1%nat skirmish) O) == 98 /\
  hull (heap (npcFireAtPlayer sampleEntropy sampleUuid 1%nat skirmish) O) == 97 /\
  exists l,
    events (npcFireAtPlayer sampleEntropy sampleUuid 1%nat skirmish) = l ++ events skirmish /\
    List.filter isShipDamaged l =
      [ShipDamaged O (10 * getSystemEffectiveness (heap skirmish 1%nat) weapons)].
Proof.
  destruct (npc_phaser_attack sampleEntropy sampleUuid skirmish 1%nat)
    as (_ & _ & Hfire & _).
  destruct Hfire as (_ & _ & Hsh & Hhull & _ & _ & H); [reflexivity|reflexivity|].
  cbv zeta in Hsh, Hhull. change (playerShip skirmish) with O in Hsh, Hhull.
  split; [reflexivity|]. split; [rewrite Hsh; reflexivity|].
  split; [rewrite Hhull; reflexivity|exact H].
Defined.


(** ** The further properties at concrete inputs *)

Lemma skirmish_validPatrol : forall a, validPatrol (heap skirmish a).
Proof. intros a. left. destruct a as [|[|a]]; reflexivity. Defined.

(** The skirmish after a hit of 40 on the player's engines. *)
Definition engineHit : GameState := modify O (damageSubsystem "engines" 40) skirmish.

(** The skirmish with one fresh phaser beam. *)
Definition beamWorld : GameState := withPhaserBeams [mkBeam 0 0 30 0 15] skirmish.

(** A weapons station that has just fired its phaser. *)
Definition firedStation : WeaponsStation := mkWeaponsStation 80 10 30 0 [playPhaser].

Definition canvas : Renderer := mkRenderer 800 600.

(** A tactical station with the warbird selected. *)
Definition warbirdSelected : TacticalStation := mkTacticalStation 3 0 0 false (Some 1%nat) [].

(** A configuration with an empty id and a hull of 0. *)
Definition hulk : ShipConfig :=
  mkShipConfig (Some "") None None None None None None None None None None
    (Some 0) None None None None None None None None None.

(** X1 at a concrete input: the hulk gets a drawn id and the default hull. *)
Lemma createShip_replaces_zero_witness :
  falsyNumber (cfgHull hulk) /\ falsyString (cfgId hulk) /\
  hull (fst (createShip sampleUuid hulk skirmish)) = 100 /\
  id (fst (createShip sampleUuid hulk skirmish)) = sampleUuid (uuidCalls skirmish).
Proof.
  assert (H1 : falsyNumber (cfgHull hulk)) by reflexivity.
  assert (H2 : falsyString (cfgId hulk)) by (by right).
  split; [exact H1|]. split; [exact H2|].
  destruct (createShip_replaces_zero sampleUuid hulk skirmish)
    as (_ & (Hh & _) & _ & _ & Hi & _).
  split; [exact (Hh H1)|exact (proj1 (Hi H2))].
Defined.

(** X2 at a concrete input: the warbird added to the fresh world. *)
Lemma getShip_after_addShip_witness :
  getShip (Some "A") skirmish = Some 1%nat.
Proof.
  assert (H1 : createdId sampleUuid warbird (reset sampleUuid) <> "player") by discriminate.
  assert (H2 : createdId sampleUuid warbird (reset sampleUuid) ∉ shipIds (reset sampleUuid))
    by apply not_elem_of_nil.
  exact (proj1 (getShip_after_addShip sampleUuid warbird (reset sampleUuid)
                  (wellFormed_reset sampleUuid) (allocated_reset sampleUuid) H1 H2)).
Defined.

(** X3 at a concrete input. *)
Lemma removeShip_idempotent_witness :
  NoDup (shipIds skirmish) /\
  removeShip (Some "A") (removeShip (Some "A") skirmish) = removeShip (Some "A") skirmish.
Proof.
  assert (H : NoDup (shipIds skirmish)) by apply skirmish_wellFormed.
  split; [exact H|]. exact (proj1 (removeShip_idempotent "A" skirmish H)).
Defined.

(** X4 at a concrete input. *)
Lemma commsLog_capped_witness :
  (length (commsLog skirmish) <= 50)%nat /\
  (length (commsLog (addCommsMessage sampleUuid "BRIDGE" "All hands." MsgInfo skirmish))
   <= 50)%nat.
Proof.
  assert (H : (length (commsLog skirmish) <= 50)%nat) by (vm_compute; lia).
  split; [exact H|].
  exact (proj2 (commsLog_capped sampleUuid "BRIDGE" "All hands." MsgInfo skirmish H)).
Defined.

(** X5 at a concrete input: a request for 150% engine power. *)
Lemma setPower_clamps_witness :
  getSubsystem "engines" (subsystems (heap (setPower "engines" 150 skirmish) O)) =
    Some (mkSubsystem 100 100 (clampPower 150)) /\
  clampPower 150 <= 100.
Proof.
  destruct (setPower_clamps "engines" 150 skirmish (mkSubsystem 100 100 50) eq_refl)
    as (H1 & (_ & H2 & _) & _).
  split; [exact H1|exact H2].
Defined.

(** X6 at a concrete input: repairing the engines after a hit. *)
Lemma repair_starts_cooldown_witness :
  hp (engines (subsystems (heap engineHit O))) == 60 /\
  exists st1, repairSubsystem sampleUuid "engines" engineHit = Done (true, st1) /\
              repairCooldowns st1 !! "engines" = Some 300%Z.
Proof.
  split; [reflexivity|].
  assert (Hc : forall c, repairCooldowns engineHit !! "engines" = Some c -> (c <= 0)%Z).
  { intros c H. change (repairCooldowns engineHit) with (∅ : gmap string Z) in H.
    rewrite lookup_empty in H. discriminate H. }
  destruct (repair_starts_cooldown sampleUuid "engines" engineHit
              (engines (subsystems (heap engineHit O))) eq_refl eq_refl Hc)
    as (st1 & Hr & _ & _ & _ & Hcd & _).
  exists st1. split; [exact Hr|exact Hcd].
Defined.

(** X7 at a concrete input: a cooldown of 2 is over after two ticks. *)
Lemma cooldowns_tick_down_witness :
  repairCooldowns
    (Nat.iter 2 updateRepairCooldowns
       (withRepairCooldowns {["engines" := 2%Z]} skirmish)) !! "engines" = Some 0%Z.
Proof.
  destruct (cooldowns_tick_down (withRepairCooldowns {["engines" := 2%Z]} skirmish))
    as (_ & _ & _ & _ & H).
  apply (H "engines" 2%Z 2%nat); [apply lookup_singleton_eq|lia].
Defined.

(** X8 at a concrete input: a hit of 10 on the warbird, whose shields run at
    a power of 50, is absorbed at 10 x 0.5 x 0.8 = 4 and costs the hull 6. *)
Lemma hit_taken_by_shields_then_hull_witness :
  shieldStrength (heap (damageShip sampleEntropy sampleUuid 1%nat 10 skirmish) 1%nat) == 96 /\
  hull (heap (damageShip sampleEntropy sampleUuid 1%nat 10 skirmish) 1%nat) == 14.
Proof.
  destruct (hit_taken_by_shields_then_hull sampleEntropy sampleUuid skirmish 1%nat 10)
    as (Hs & _ & Hh & _).
  rewrite Hs, Hh; [split; reflexivity|reflexivity].
Defined.

(** X9 at a concrete input. *)
Lemma subsystem_damage_bounded_witness :
  exists sys',
    getSubsystem "engines"
      (subsystems (heap (damageShip sampleEntropy sampleUuid 1%nat 10 skirmish) 1%nat))
      = Some sys' /\ power sys' = 50.
Proof.
  destruct (subsystem_damage_bounded sampleEntropy sampleUuid skirmish 1%nat 10 "engines"
              (mkSubsystem 100 100 50) eq_refl) as ((sys' & H1 & H2 & _) & _).
  exists sys'. split; [exact H1|exact H2].
Defined.

(** X10 at a concrete input: the warbird is destroyed while locked. *)
Lemma destroyed_target_unlocked_witness :
  currentTarget (damageShip sampleEntropy sampleUuid 1%nat 1000
                   (setTarget (Some "A") skirmish)) = None.
Proof.
  assert (Hw : wellFormed (setTarget (Some "A") skirmish)) by exact skirmish_wellFormed.
  assert (Hz : hull (heap (damageShip sampleEntropy sampleUuid 1%nat 1000
                             (setTarget (Some "A") skirmish)) 1%nat) == 0) by reflexivity.
  exact (proj1 (destroyed_target_unlocked sampleEntropy sampleUuid
                  (setTarget (Some "A") skirmish) 1%nat 1000 O Hw eq_refl Hz)).
Defined.

(** X11 at a concrete input. *)
Lemma own_torpedoes_spare_player_witness :
  wellFormed skirmish /\
  heap (updateProjectiles sampleCos sampleSin samplePI sampleEntropy sampleUuid skirmish) O
    = heap skirmish O.
Proof.
  split; [exact skirmish_wellFormed|].
  destruct (own_torpedoes_spare_player sampleCos sampleSin samplePI sampleEntropy sampleUuid
              None skirmish skirmish_wellFormed (Forall_nil_2 _)) as (_ & H & _).
  exact H.
Defined.

(** X12 at a concrete input. *)
Lemma patrol_index_kept_valid_witness :
  exists st',
    updateNPCShips sampleCos sampleSin sampleAtan2 samplePI sampleEntropy sampleUuid skirmish
    = Done st'.
Proof.
  destruct (patrol_index_kept_valid sampleCos sampleSin sampleAtan2 samplePI sampleEntropy
              sampleUuid skirmish) as (_ & _ & H).
  destruct (H skirmish_validPatrol) as (st' & Hr & _). by exists st'.
Defined.

(** X13 at a concrete input: a fresh beam is gone after 15 updates. *)
Lemma beams_age_and_vanish_witness :
  phaserBeams beamWorld = [mkBeam 0 0 30 0 15] /\
  phaserBeams (Nat.iter 15 updatePhaserBeams beamWorld) = [].
Proof.
  split; [reflexivity|].
  apply (proj2 (beams_age_and_vanish beamWorld) 14%nat).
  constructor; [|constructor]. cbn. lia.
Defined.

(** X14 at a concrete input. *)
Lemma tick_returns_and_keeps_world_witness :
  exists st',
    update sampleCos sampleSin sampleAtan2 samplePI sampleEntropy sampleUuid skirmish
    = Done st' /\ gameTime st' = 1%Z.
Proof.
  destruct (tick_returns_and_keeps_world sampleCos sampleSin sampleAtan2 samplePI
              sampleEntropy sampleUuid skirmish skirmish_validPatrol)
    as (st' & Hr & Hg & _).
  exists st'. split; [exact Hr|exact Hg].
Defined.

(** X15 at a concrete input: 120 ms elapsed give two ticks. *)
Lemma frame_loop_bounded_witness :
  exists lastTick' st',
    loop sampleCos sampleSin sampleAtan2 samplePI sampleEntropy sampleUuid
      true 120 0 skirmish = Done (lastTick', st') /\
    lastTick' == 100 /\ gameTime st' = 2%Z.
Proof.
  destruct (frame_loop_bounded sampleCos sampleSin sampleAtan2 samplePI sampleEntropy
              sampleUuid 120 0 skirmish skirmish_validPatrol)
    as (_ & k & l' & st' & Hr & Hk & _ & Hl & Hg & _).
  exists l', st'. vm_compute in Hk. subst k.
  split; [exact Hr|]. split; [rewrite Hl; reflexivity|exact Hg].
Defined.

(** X16 at a concrete input. *)
Lemma shields_regenerate_within_bounds_witness :
  heap (regenerateShields skirmish) 1%nat = regenerateShield (heap skirmish 1%nat).
Proof.
  destruct (shields_regenerate_within_bounds skirmish) as (_ & _ & _ & H).
  apply (H skirmish_wellFormed). left. apply list_elem_of_here.
Defined.

(** X17 at a concrete input: the fleeing warbird. *)
Lemma quiet_unless_attacking_witness :
  ~ attacks skirmish 1%nat /\
  exists st',
    moveNPCShip sampleCos sampleSin sampleAtan2 samplePI sampleEntropy sampleUuid 1%nat
      (updateNPCAI 1%nat skirmish) = Done st' /\
    onlyShip 1%nat skirmish st'.
Proof.
  assert (Hq : ~ attacks skirmish 1%nat).
  { intros (_ & H & _). vm_compute in H. discriminate H. }
  split; [exact Hq|].
  destruct (moveNPCShip_returns sampleCos sampleSin sampleAtan2 samplePI sampleEntropy
              sampleUuid 1%nat (updateNPCAI 1%nat skirmish)) as [st' H].
  { left. reflexivity. }
  exists st'. split; [exact H|].
  exact (quiet_unless_attacking sampleCos sampleSin sampleAtan2 samplePI sampleEntropy
           sampleUuid 1%nat skirmish st' Hq H).
Defined.

(** X18 at a concrete input: the UUIDs "A" to "I". *)
Lemma scenario_ready_witness :
  exists st,
    initializeScenario sampleCos sampleSin samplePI sampleEntropy sampleUuid = Done st /\
    wellFormed st.
Proof.
  destruct (scenario_ready sampleCos sampleSin sampleAtan2 samplePI sampleEntropy sampleUuid)
    as (st & Hr & _ & _ & _ & _ & _ & _ & _ & _ & _ & _ & _ & _ & Hw).
  exists st. split; [exact Hr|]. apply Hw.
  - apply (bool_decide_unpack _). vm_compute. exact I.
  - apply (bool_decide_unpack _). vm_compute. exact I.
Defined.

(** X19 at a concrete input: a new station launches a torpedo. *)
Lemma ammunition_accounted_witness :
  stationOk newWeaponsStation /\
  stationOk (fst (fireTorpedo sampleEntropy sampleUuid newWeaponsStation skirmish)).
Proof.
  assert (H : stationOk newWeaponsStation).
  { unfold stationOk. cbn. split_and!; first [lra|lia]. }
  split; [exact H|].
  destruct (ammunition_accounted sampleEntropy sampleUuid newWeaponsStation skirmish H)
    as ((Hok & _) & _).
  exact Hok.
Defined.

(** X20 at a concrete input: five frames after a shot. *)
Lemma rearming_takes_its_time_witness :
  stationOk firedStation /\
  phaserCooldown (weaponsFrames firedStation (fun _ => skirmish) 5) = 25%Z.
Proof.
  assert (H : stationOk firedStation).
  { unfold stationOk. cbn. split_and!; first [lra|lia]. }
  split; [exact H|].
  exact (proj1 (rearming_takes_its_time sampleEntropy sampleUuid firedStation
                  (fun _ => skirmish) 5 H)).
Defined.

(** X21 at a concrete input. *)
Lemma renderer_keeps_orientation_witness :
  0 < 2 /\
  px (worldToScreen canvas 7 9 7 9 2) == width canvas / 2 /\
  width canvas / 2 <= px (worldToScreen canvas 8 9 7 9 2).
Proof.
  assert (H : 0 < 2) by reflexivity.
  split; [exact H|].
  destruct (renderer_keeps_orientation canvas 8 8 9 9 7 9 2 H)
    as ((H1 & _) & _ & _ & H2 & _).
  split; [exact H1|]. apply H2. discriminate.
Defined.


(** X23 at a concrete input: three presses of [w] on the new ship, whose
    engines run at effectiveness 0.5. *)
Lemma throttle_key_stalls_witness :
  velocity (heap (Nat.iter 3 (keydown false "w") (reset sampleUuid)) O) < 8 * 0.5.
Proof.
  destruct (throttle_key_stalls (reset sampleUuid) 3) as (_ & _ & H).
  - reflexivity.
  - discriminate.
  - discriminate.
  - discriminate.
  - apply H; reflexivity.
Defined.

(** X24 at a concrete input. *)
Lemma steering_stores_bearing_witness :
  0 < samplePI /\
  heading (heap (handleCompassPointer sampleAtan2 samplePI 10 10 0 0 skirmish) O) < 360.
Proof.
  assert (H1 : 0 < samplePI) by reflexivity.
  assert (H2 : forall u v, - samplePI <= sampleAtan2 u v <= samplePI)
    by (intros u v; split; discriminate).
  split; [exact H1|].
  destruct (steering_stores_bearing sampleAtan2 samplePI sampleUuid canvas
              10 10 0 0 skirmish H1 H2) as (_ & (_ & _ & H) & _).
  exact H.
Defined.

(** X25 at a concrete input. *)
Lemma presets_hand_out_200_witness :
  getTotalPower (applyPreset "combat" skirmish) == 200.
Proof.
  destruct (presets_hand_out_200 "combat" skirmish) as [H _].
  apply H. apply list_elem_of_further, list_elem_of_here.
Defined.

(** X27 at a concrete input: hailing the warbird. *)
Lemma hail_answered_in_character_witness :
  fst (hailShip sampleUuid (Some "A") skirmish) = Some 1%nat.
Proof.
  destruct (hail_answered_in_character sampleEntropy sampleUuid (Some "A") skirmish)
    as (_ & H & _).
  exact (proj1 (H 1%nat eq_refl)).
Defined.

(** X28 at a concrete input: scanning the warbird. *)
Lemma scan_takes_eleven_ticks_witness :
  exists ts' st',
    scanTicks sampleUuid 11 (fst (performScan warbirdSelected)) skirmish
      = Done (ts', st', false) /\
    scanned (heap st' 1%nat) = true.
Proof.
  destruct (scan_takes_eleven_ticks sampleUuid warbirdSelected skirmish) as (_ & H & _).
  destruct (H 1%nat eq_refl eq_refl)
    as (_ & _ & _ & _ & _ & _ & ts' & st' & Hr & _ & _ & Hh & _).
  exists ts', st'. split; [exact Hr|]. by rewrite Hh.
Defined.
